(** * Catalog reconciler of NiteVelour ([tools/sync_models.mjs])

    A shallow embedding of the sync script that fetches performer records
    from the paginated upstream API, merges them with the previously
    persisted table and maintains the stable catalog of identifiers.

    Conventions of the embedding.
    - A JavaScript string is a [string]: a sequence of code units below 256.
    - A JavaScript number is a [Z] where it is whole: counts, page numbers,
      quotas and the whole numbers of a file, of a size that [String] prints
      digit by digit. The value of [--max], which the script never rounds,
      is a rational [Q], and the arithmetic on it is exact. It is compared
      with lengths as it stands, so the loops that fill the catalog stop at
      the first length that is at least [max], that is at [max] rounded up,
      while [slice(0, max)] cuts at the whole part of [max]. A number of a
      file that has a fractional part is a [JFrac], printed with the digits
      of its decimal expansion, which is what [String] prints for a decimal
      fraction of few digits that is not below 0.000001 in size. Numbers
      that are not finite are not represented: an option that is not a
      number counts as 0, which the script replaces by the default as well.
      [--size] is taken to be whole.
    - A value obtained from [JSON.parse] is a [json]; [undefined] is the
      [None] of [option json], and so is the [null] that [readJSONIfExists]
      returns for a missing file.
    - [String] throws a [TypeError] on an object that has a property
      [toString], and on an array that holds such an object, in itself or in
      an array within it. The functions of the script that call [String]
      come in two parts: the value that is returned when nothing is thrown
      ([idFor], [normalizeBrand], ...) and the condition under which the
      call throws ([idFor_throws], [normalizeBrand_throws], ...). [main]
      tests the conditions where the script makes the calls, in its order,
      and ends in [Failed TypeError] at the first that holds; all of them
      come before the files are written. A value on which [String] returned
      is converted again without a test.
    - A [Map] keeps its keys in insertion order, so it is an association
      list with unique keys; a [Set] is only tested for membership, so it
      is a [gset string].
    - [console.warn] appends to a list of warnings, every call of [fetch]
      is recorded in a list of requests, and the files are part of the
      state returned by [main]; writing them is taken to succeed. The pause
      between two pages, the lines of [console.log] with their counts by
      brand, and the choice of another path for the catalog file are left
      out; of the printed lines only the status word of the catalog is
      kept, as [catalog_status].
    - [arg] and [hasFlag] read the list of the arguments of the process;
      [main] takes their results as its [options]. The file [.env] is taken
      to have been read into the environment already. *)

From Stdlib Require Import ZArith QArith Qround String Ascii List Bool Lia Lqa.
From stdpp Require Import base tactics option list gmap strings pretty.

Local Open Scope Z_scope.

(** ** JSON values and the JavaScript built-ins used by the script *)

#[local] Set Warnings "-register-all".

Inductive json : Type :=
| JNull
| JBool (b : bool)
| JNum (z : Z)
| JFrac (q : Q)
| JStr (s : string)
| JArr (items : list json)
| JObj (fields : list (string * json)).

Module Js.

(** [v ? a : b] on a value that may be [undefined]. *)
Definition truthy (v : option json) : bool :=
  match v with
  | None | Some JNull | Some (JBool false) | Some (JNum 0) | Some (JStr "") => false
  | Some (JFrac q) => negb (Qeq_bool q 0)
  | Some _ => true
  end.

(** [a || b]. *)
Definition or (a b : option json) : option json :=
  if truthy a then a else b.

(** The digits after the point of [r / d], for [0 <= r < d]. *)
Fixpoint decimals (fuel : nat) (r d : Z) : string :=
  match fuel with
  | O => ""
  | S fuel' =>
      if r =? 0 then ""
      else pretty (10 * r / d) +:+ decimals fuel' ((10 * r) mod d) d
  end.

(** [String(q)] for a number written with a point: its sign, the digits
    before the point and the digits after it. *)
Definition decimal (q : Q) : string :=
  let n := Z.abs (Qnum q) in
  let d := Z.pos (Qden q) in
  (if Qnum q <? 0 then "-" else "") +:+ pretty (n / d) +:+
  (if n mod d =? 0 then "" else "." +:+ decimals 20 (n mod d) d).

(** [String(v)]. An array is rendered as its elements joined by commas, with
    [null] as the empty string. *)
Fixpoint String (v : json) : string :=
  match v with
  | JNull => "null"
  | JBool true => "true"
  | JBool false => "false"
  | JNum z => pretty z
  | JFrac q => decimal q
  | JStr s => s
  | JArr items =>
      (fix join (l : list json) : string :=
         match l with
         | [] => ""
         | x :: r =>
             let sx := match x with JNull => "" | _ => String x end in
             match r with
             | [] => sx
             | _ => sx +:+ "," +:+ join r
             end
         end) items
  | JObj _ => "[object Object]"
  end.

Definition String_opt (v : option json) : string :=
  match v with
  | None => "undefined"
  | Some j => String j
  end.

(** [o?.k]: only objects carry the properties the script reads. *)
Fixpoint assoc (k : string) (fields : list (string * json)) : option json :=
  match fields with
  | [] => None
  | (k', v) :: r => if decide (k' = k) then Some v else assoc k r
  end.

Definition prop (o : option json) (k : string) : option json :=
  match o with
  | Some (JObj fields) => assoc k fields
  | _ => None
  end.

(** Whether [String(v)] throws a [TypeError] instead of returning. The
    conversion of an object calls its [toString], which is the one of
    [Object.prototype] unless the object has a property of that name; a
    property read by [JSON.parse] is never a function, and then neither it nor
    [valueOf] yields a string. The conversion of an array converts its
    elements, [null] apart. Where [throws v] holds, [String v] is not the
    value of anything. *)
Fixpoint throws (v : json) : bool :=
  match v with
  | JObj fields =>
      match assoc "toString" fields with
      | Some _ => true
      | None => false
      end
  | JArr items =>
      existsb (fun x => match x with JNull => false | _ => throws x end) items
  | _ => false
  end.

Definition throws_opt (v : option json) : bool :=
  match v with
  | None => false
  | Some j => throws j
  end.

(** [Array.isArray(v) ? v : dflt]. *)
Definition array_or (dflt : list json) (v : option json) : list json :=
  match v with
  | Some (JArr items) => items
  | _ => dflt
  end.

Definition isArray (v : option json) : bool :=
  match v with
  | Some (JArr _) => true
  | _ => false
  end.

(** White space removed by [trim], among the code units below 256. *)
Definition is_white (c : ascii) : bool :=
  match c with
  | "009" | "010" | "011" | "012" | "013" | " " | "160" => true
  | _ => false
  end%char.

Fixpoint trimStart (s : string) : string :=
  match s with
  | "" => ""
  | String.String c r => if is_white c then trimStart r else s
  end.

Fixpoint trimEnd (s : string) : string :=
  match s with
  | "" => ""
  | String.String c r =>
      match trimEnd r with
      | "" => if is_white c then "" else String.String c ""
      | r' => String.String c r'
      end
  end.

Definition trim (s : string) : string := trimEnd (trimStart s).

(** [toLowerCase] on one code unit: A-Z and the Latin-1 capitals. *)
Definition lower_char (c : ascii) : ascii :=
  let n := N_of_ascii c in
  if ((65 <=? n) && (n <=? 90) ||
      (192 <=? n) && (n <=? 222) && negb (n =? 215))%N
  then ascii_of_N (n + 32) else c.

Fixpoint toLowerCase (s : string) : string :=
  match s with
  | "" => ""
  | String.String c r => String.String (lower_char c) (toLowerCase r)
  end.

(** [s.includes(needle)]. *)
Fixpoint includes (needle s : string) : bool :=
  if String.prefix needle s then true
  else match s with
       | "" => false
       | String.String _ r => includes needle r
       end.

(** [s.split(sep)] for a separator of one code unit. *)
Fixpoint split (sep : ascii) (s : string) : list string :=
  match s with
  | "" => [""]
  | String.String c r =>
      if decide (c = sep) then "" :: split sep r
      else match split sep r with
           | [] => [String.String c ""]
           | w :: ws => String.String c w :: ws
           end
  end.

(** [l.join(sep)] on an array of strings. *)
Definition join (sep : string) (l : list string) : string := String.concat sep l.

(** [s.slice(0, n)]. *)
Definition slice0 (n : nat) (s : string) : string := String.substring 0 n s.

Definition nonempty (s : string) : bool := negb (String.eqb s "").

(** Numbers that need not be whole: [a < b], [a >= b], [Math.floor(a)], the
    whole part that [slice] takes of an index, and [a % b] for [b] not 0. *)
Definition lt (a b : Q) : bool := negb (Qle_bool b a).

Definition ge (a b : Q) : bool := Qle_bool b a.

Definition floor (a : Q) : Z := Qfloor a.

Definition trunc (a : Q) : Z := if Qle_bool 0 a then Qfloor a else Qceiling a.

Definition rem (a b : Q) : Q := (a - b * inject_Z (trunc (a / b)))%Q.

(** A number as [JSON.parse] gives it back. *)
Definition number (q : Q) : json :=
  if Qeq_bool (inject_Z (Qfloor q)) q then JNum (Qfloor q) else JFrac q.

End Js.

(** ** [Map]: insertion-ordered, [set] on a present key keeps its position *)

Module JsMap.
Section Ops.
Context {V : Type}.

Fixpoint get (k : string) (m : list (string * V)) : option V :=
  match m with
  | [] => None
  | (k', v) :: r => if decide (k' = k) then Some v else get k r
  end.

Definition has (k : string) (m : list (string * V)) : bool :=
  match get k m with Some _ => true | None => false end.

Fixpoint set (k : string) (v : V) (m : list (string * V)) : list (string * V) :=
  match m with
  | [] => [(k, v)]
  | (k', v') :: r => if decide (k' = k) then (k, v) :: r else (k', v') :: set k v r
  end.

Definition keys (m : list (string * V)) : list string := m.*1.
End Ops.
End JsMap.

(** ** Files, command line, environment and the upstream API *)

(** A JSON file on disk, as [readJSONIfExists] sees it. *)
Inductive file : Type :=
| Absent
| Unparsable
| Parsed (content : json).

Record disk : Type := Disk {
  site_config : file;        (* site.config.json *)
  performers_json : file;    (* data/performers.json *)
  catalog_json : file        (* the catalog, data/catalog.json by default *)
}.

(** The process environment after [loadDotEnv]; an unset variable is [""]. *)
Record environment : Type := Environment {
  CRAK_API_KEY : string;
  CRAK_KEY : string;
  CRAK_TOKEN : string;
  CRAK_UA : string
}.

(** The command line: [opt_max] and [opt_size] are [Number(arg(..))], with 0
    standing for a value that is not a number (both are falsy). [opt_max]
    is any number, whole or not; [opt_size] is taken to be whole. *)
Record options : Type := Options {
  opt_max : Q;
  opt_size : Z;
  opt_reseed : bool;
  opt_brands : string
}.

(** The two readings of the clock, [new Date().toISOString()]. *)
Record clock : Type := Clock {
  now_performers : string;
  now_catalog : string
}.

Record request : Type := Request {
  rq_apiKey : string;
  rq_token : string;
  rq_ua : string;
  rq_brand : string;
  rq_page : Z;
  rq_size : Z
}.

(** What [fetch] resolved to: [res_text] is [await res.text().catch(() => "")]
    and [res_json] is [JSON.parse(res_text)], [None] when it throws. *)
Record response : Type := Response {
  res_ok : bool;
  res_status : Z;
  res_text : string;
  res_json : option json
}.

(** The upstream API; [None] when [fetch] rejects. *)
Definition upstream : Type := request -> option response.

(** How a run ends when it does not complete: the three ways the process
    exits with status 1, which are the missing credentials, a call of [fetch]
    that is rejected and a [String] that throws, and the exhaustion of the
    fuel of [brand_loop], which [main] never reports (see [main_fuel]). *)
Inductive failure : Type :=
| MissingCredentials
| FetchRejected (rq : request)
| TypeError
| OutOfFuel.

Inductive outcome (A : Type) : Type :=
| Done (a : A)
| Failed (f : failure).
Arguments Done {A} a.
Arguments Failed {A} f.

#[global] Instance outcome_bind : MBind outcome := fun A B k m =>
  match m with
  | Done a => k a
  | Failed f => Failed f
  end.

(** ** The script *)

Definition readJSONIfExists (f : file) : option json :=
  match f with
  | Parsed j => Some j
  | Absent | Unparsable => None
  end.

(** [process.argv.indexOf(name)], counting from [i]; -1 when absent. *)
Fixpoint indexOf_from (i : Z) (name : string) (argv : list string) : Z :=
  match argv with
  | [] => -1
  | x :: r => if String.eqb x name then i else indexOf_from (i + 1) name r
  end.

(** [arg(name, defVal)] on the arguments [argv] of the process; [None] is [null]. *)
Definition arg (argv : list string) (name : string) (defVal : option string)
    : option string :=
  let idx := indexOf_from 0 name argv in
  if (0 <=? idx) && (idx + 1 <? Z.of_nat (length argv))
  then argv !! Z.to_nat (idx + 1)
  else defVal.

(** [hasFlag(name)] *)
Definition hasFlag (argv : list string) (name : string) : bool :=
  existsb (fun x => String.eqb x name) argv.

Definition normalizeBrand (s : option json) : string :=
  let b := Js.trim (Js.toLowerCase (Js.String_opt (Js.or s (Some (JStr ""))))) in
  if negb (Js.nonempty b) then ""
  else if Js.includes "bonga" b then "bongacams"
  else if Js.includes "royal" b then "royalcams"
  else b.

(** [normalizeBrand(s)] throws where its [String] does. *)
Definition normalizeBrand_throws (s : option json) : bool :=
  Js.throws_opt (Js.or s (Some (JStr ""))).

(** [brandKeyFrom(p, fallback)] *)
Definition brandKeyFrom (p : json) (fallback : string) : string :=
  normalizeBrand
    (Js.or (Js.or (Js.or (Js.prop (Some p) "systemSource") (Js.prop (Some p) "source"))
                  (Js.prop (Some p) "brand"))
           (Some (JStr fallback))).

Definition brandKeyFrom_throws (p : json) (fallback : string) : bool :=
  normalizeBrand_throws
    (Js.or (Js.or (Js.or (Js.prop (Some p) "systemSource") (Js.prop (Some p) "source"))
                  (Js.prop (Some p) "brand"))
           (Some (JStr fallback))).

Definition idFor (p : json) : string :=
  Js.trim (Js.String_opt
    (Js.or (Js.or (Js.prop (Some p) "itemId") (Js.prop (Some p) "id")) (Some (JStr "")))).

(** [idFor(p)] throws where its [String] does. *)
Definition idFor_throws (p : json) : bool :=
  Js.throws_opt
    (Js.or (Js.or (Js.prop (Some p) "itemId") (Js.prop (Some p) "id")) (Some (JStr ""))).

Fixpoint arraysEqual_loop (a b : list json) : bool :=
  match a, b with
  | x :: a', y :: b' =>
      if negb (String.eqb (Js.String x) (Js.String y)) then false
      else arraysEqual_loop a' b'
  | _, _ => true
  end.

Definition arraysEqual (a b : list json) : bool :=
  if negb (length a =? length b)%nat then false else arraysEqual_loop a b.

Definition page_warning (rq : request) (res : response) : string :=
  "WARN: " +:+ rq_brand rq +:+ " page " +:+ pretty (rq_page rq) +:+ " -> " +:+
  pretty (res_status res) +:+ " " +:+ Js.slice0 140 (res_text res).

Definition parse_warning (rq : request) (res : response) : string :=
  "WARN: failed to parse JSON for " +:+ rq_brand rq +:+ " page " +:+
  pretty (rq_page rq) +:+ ": " +:+ Js.slice0 140 (res_text res).

(** [fetchPage] returns the records of the page and the warnings it logged. *)
Definition fetchPage (up : upstream) (rq : request) : outcome (list json * list string) :=
  match up rq with
  | None => Failed (FetchRejected rq)
  | Some res =>
      if negb (res_ok res) then Done ([], [page_warning rq res])
      else
        match res_json res with
        | Some data =>
            let arr :=
              Js.array_or (Js.array_or [] (Js.prop (Some data) "data"))
                          (Js.prop (Some data) "performers") in
            Done (arr, [])
        | None => Done ([], [parse_warning rq res])
        end
  end.

Definition splitBrands (s : string) : list string :=
  filter (fun b => Js.nonempty b = true)
    ((fun x => normalizeBrand (Some (JStr x))) <$>
       Js.split "," (Js.String_opt (Js.or (Some (JStr s)) (Some (JStr ""))))).

Definition default_brands : list string :=
  ["stripchat"; "chaturbate"; "awempire"; "streamate"].

Definition getDefaultBrandsFromConfig (d : disk) : list string :=
  let cfg := readJSONIfExists (site_config d) in
  let fromCfg := Js.array_or [] (Js.prop (Js.prop cfg "crak") "brands") in
  let brands :=
    filter (fun b => Js.nonempty b = true) ((fun x => normalizeBrand (Some x)) <$> fromCfg) in
  match brands with
  | [] => default_brands
  | _ => brands
  end.

(** [getDefaultBrandsFromConfig()] throws where [normalizeBrand] does on an
    entry of the configured list. *)
Definition getDefaultBrandsFromConfig_throws (d : disk) : bool :=
  let cfg := readJSONIfExists (site_config d) in
  let fromCfg := Js.array_or [] (Js.prop (Js.prop cfg "crak") "brands") in
  existsb (fun x => normalizeBrand_throws (Some x)) fromCfg.

(** *** Quotas *)

(** [for (let i = 0; i < nBrands; i++) quota.set(brandList[i], base + (i < extra ? 1 : 0))] *)
Fixpoint set_quotas (base : Z) (extra : Q) (i : Z) (brands : list string)
    (quota : list (string * Z)) : list (string * Z) :=
  match brands with
  | [] => quota
  | b :: r =>
      set_quotas base extra (i + 1) r
        (JsMap.set b (base + (if Js.lt (inject_Z i) extra then 1 else 0)) quota)
  end.

(** [base = Math.floor(max / nBrands)] and [extra = max % nBrands]; the list
    of brands is never empty. *)
Definition quotas (max : Q) (brandList : list string) : list (string * Z) :=
  let nBrands := inject_Z (Z.of_nat (length brandList)) in
  let base := Js.floor (max / nBrands) in
  let extra := Js.rem max nBrands in
  set_quotas base extra 0 brandList [].

(** [quota.get(brand) || 0] *)
Definition want_of (quota : list (string * Z)) (brand : string) : Z :=
  match JsMap.get brand quota with
  | Some q => q
  | None => 0
  end.

(** *** The fetch loop *)

Record fetch_state : Type := FetchState {
  seen : gset string;
  freshByBrand : list (string * list json);
  warned : list string;
  requested : list request
}.

(** [freshByBrand.get(brand) || []] *)
Definition got (brand : string) (st : fetch_state) : list json :=
  match JsMap.get brand (freshByBrand st) with
  | Some l => l
  | None => []
  end.

(** [seen.add(id); (freshByBrand.get(brand) || []).push(p)]: without an entry
    for the brand the record would go to a temporary array. *)
Definition accept (brand id : string) (p : json) (st : fetch_state) : fetch_state :=
  {| seen := {[id]} ∪ seen st;
     freshByBrand :=
       match JsMap.get brand (freshByBrand st) with
       | Some l => JsMap.set brand (l ++ [p]) (freshByBrand st)
       | None => freshByBrand st
       end;
     warned := warned st;
     requested := requested st |}.

(** The [for (const p of arr)] loop over one page. *)
Fixpoint take_page (brand : string) (want : Z) (arr : list json)
    (st : fetch_state) : fetch_state :=
  match arr with
  | [] => st
  | p :: r =>
      let id := idFor p in
      if negb (Js.nonempty id) then take_page brand want r st
      else if decide (id ∈ seen st) then take_page brand want r st
      else
        let st' := accept brand id p st in
        if want <=? Z.of_nat (length (got brand st')) then st'
        else take_page brand want r st'
  end.

(** Whether the loop over one page comes to a record on which [idFor]
    throws: a record after the one that fills the quota is not looked at. *)
Fixpoint take_page_throws (brand : string) (want : Z) (arr : list json)
    (st : fetch_state) : bool :=
  match arr with
  | [] => false
  | p :: r =>
      if idFor_throws p then true
      else
        let id := idFor p in
        if negb (Js.nonempty id) then take_page_throws brand want r st
        else if decide (id ∈ seen st) then take_page_throws brand want r st
        else
          let st' := accept brand id p st in
          if want <=? Z.of_nat (length (got brand st')) then false
          else take_page_throws brand want r st'
  end.

(** One call of [fetchPage] that returned: the request and its warnings. *)
Definition logged (rq : request) (w : list string) (st : fetch_state) : fetch_state :=
  {| seen := seen st;
     freshByBrand := freshByBrand st;
     warned := warned st ++ w;
     requested := requested st ++ [rq] |}.

Definition page_cap : Z := 250.

(** The [while] loop of one brand, entered with the current [page]. The
    [fuel] bounds the number of iterations of the model; 250 is enough
    because of the [page > 250] exit. *)
Fixpoint brand_loop (fuel : nat) (up : upstream) (mk : Z -> request)
    (brand : string) (want page : Z) (st : fetch_state) : outcome fetch_state :=
  if Z.of_nat (length (got brand st)) <? want then
    match fuel with
    | O => Failed OutOfFuel
    | S fuel' =>
        '(arr, w) ← fetchPage up (mk page);
        let st1 := logged (mk page) w st in
        match arr with
        | [] => Done st1
        | _ =>
            if take_page_throws brand want arr st1 then Failed TypeError
            else
              let st2 := take_page brand want arr st1 in
              let page' := page + 1 in
              if page_cap <? page' then Done st2
              else brand_loop fuel' up mk brand want page' st2
        end
    end
  else Done st.

(** [for (const brand of brandList)] *)
Fixpoint fetch_brands (up : upstream) (mk : string -> Z -> request)
    (quota : list (string * Z)) (brands : list string)
    (st : fetch_state) : outcome fetch_state :=
  match brands with
  | [] => Done st
  | brand :: r =>
      let want := want_of quota brand in
      if want <=? 0 then fetch_brands up mk quota r st
      else
        st' ← brand_loop (Z.to_nat page_cap) up (mk brand) brand want 1 st;
        fetch_brands up mk quota r st'
  end.

(** [for (const b of brandList) freshByBrand.set(b, [])] *)
Definition empty_fresh (brandList : list string) : list (string * list json) :=
  foldl (fun m b => JsMap.set b [] m) [] brandList.

(** [for (const b of brandList) fresh.push(...(freshByBrand.get(b) || []))] *)
Definition collect_fresh (brandList : list string) (st : fetch_state) : list json :=
  concat ((fun b => got b st) <$> brandList).

(** *** Previous data, merge and catalog assembly *)

Fixpoint build_prevMap (prevArr : list json) (prevMap : list (string * json))
    : list (string * json) :=
  match prevArr with
  | [] => prevMap
  | p :: r =>
      let id := idFor p in
      build_prevMap r
        (if Js.nonempty id && negb (JsMap.has id prevMap)
         then JsMap.set id p prevMap else prevMap)
  end.

Fixpoint merge_fresh (fresh : list json) (merged : list (string * json))
    : list (string * json) :=
  match fresh with
  | [] => merged
  | p :: r =>
      let id := idFor p in
      merge_fresh r (if negb (Js.nonempty id) then merged else JsMap.set id p merged)
  end.

Record catalog_acc : Type := CatalogAcc {
  outIds : list string;
  used : gset string
}.

Definition push_id (id : string) (acc : catalog_acc) : catalog_acc :=
  {| outIds := outIds acc ++ [id]; used := {[id]} ∪ used acc |}.

(** [outIds.length >= max] *)
Definition full (max : Q) (acc : catalog_acc) : bool :=
  Js.ge (inject_Z (Z.of_nat (length (outIds acc)))) max.

(** Step 1: [for (const id of prevIds)] *)
Fixpoint keep_previous (max : Q) (merged : list (string * json))
    (prevIds : list string) (acc : catalog_acc) : catalog_acc :=
  match prevIds with
  | [] => acc
  | id :: r =>
      if negb (JsMap.has id merged) then keep_previous max merged r acc
      else if decide (id ∈ used acc) then keep_previous max merged r acc
      else
        let acc' := push_id id acc in
        if full max acc' then acc' else keep_previous max merged r acc'
  end.

(** Step 2: [for (const p of fresh)] *)
Fixpoint fill_fresh (max : Q) (fresh : list json) (acc : catalog_acc) : catalog_acc :=
  match fresh with
  | [] => acc
  | p :: r =>
      if full max acc then acc
      else
        let id := idFor p in
        if negb (Js.nonempty id) || bool_decide (id ∈ used acc) then fill_fresh max r acc
        else fill_fresh max r (push_id id acc)
  end.

(** Step 3: [for (const id of merged.keys())] *)
Fixpoint fill_keys (max : Q) (keys : list string) (acc : catalog_acc) : catalog_acc :=
  match keys with
  | [] => acc
  | id :: r =>
      if full max acc then acc
      else if decide (id ∈ used acc) then fill_keys max r acc
      else fill_keys max r (push_id id acc)
  end.

Definition build_catalog (needReseed : bool) (max : Q) (prevIds : list string)
    (fresh : list json) (merged : list (string * json)) : catalog_acc :=
  let acc0 := {| outIds := []; used := ∅ |} in
  let acc1 := if negb needReseed then keep_previous max merged prevIds acc0 else acc0 in
  let acc2 := fill_fresh max fresh acc1 in
  if Js.lt (inject_Z (Z.of_nat (length (outIds acc2)))) max
  then fill_keys max (JsMap.keys merged) acc2 else acc2.

(** [outIds.map((id) => merged.get(id)).filter(Boolean)] *)
Definition select_performers (merged : list (string * json)) (ids : list string) : list json :=
  omap (fun id => let v := JsMap.get id merged in if Js.truthy v then v else None) ids.

(** *** [main] *)

(** [let max = Number(arg("--max", "10000")) || 10000; if (max < 1) max = 10000;] *)
Definition effective_max (o : options) : Q :=
  let max := if Qeq_bool (opt_max o) 0 then 10000%Q else opt_max o in
  if Js.lt max 1 then 10000%Q else max.

Definition effective_size (o : options) : Z :=
  let size := if opt_size o =? 0 then 100 else opt_size o in
  let size := if size <? 1 then 100 else size in
  if 100 <? size then 100 else size.

(** Brands: command line, then configuration file, then the default. *)
Definition brandList_of (o : options) (d : disk) : list string :=
  match splitBrands (opt_brands o) with
  | [] => getDefaultBrandsFromConfig d
  | desiredBrands => desiredBrands
  end.

(** The brand list is computed without a throw unless it is taken from the
    configuration file. *)
Definition brandList_throws (o : options) (d : disk) : bool :=
  match splitBrands (opt_brands o) with
  | [] => getDefaultBrandsFromConfig_throws d
  | _ => false
  end.

Definition prevArr_of (d : disk) : list json :=
  let prevPerf := readJSONIfExists (performers_json d) in
  if Js.truthy prevPerf then Js.array_or [] (Js.prop prevPerf "performers") else [].

(** The loop that builds [prevMap] throws where [idFor] does. *)
Definition prevMap_throws (d : disk) : bool := existsb idFor_throws (prevArr_of d).

Definition prevMap_of (d : disk) : list (string * json) :=
  build_prevMap (prevArr_of d) [].

Definition prevIds_of (prevCat : option json) : list string :=
  let prevIds :=
    if Js.truthy prevCat then
      if Js.isArray prevCat then Js.array_or [] prevCat
      else Js.array_or [] (Js.prop prevCat "ids")
    else [] in
  filter (fun x => Js.nonempty x = true) (Js.String <$> prevIds).

Definition prevBrands_of (prevCat : option json) : list string :=
  if Js.truthy prevCat then
    filter (fun b => Js.nonempty b = true)
      ((fun x => normalizeBrand (Some x)) <$> Js.array_or [] (Js.prop prevCat "brands"))
  else [].

(** Reading the previous catalog throws where [normalizeBrand] does on one
    of its brands or [String] on one of its identifiers. *)
Definition prevCat_throws (prevCat : option json) : bool :=
  if Js.truthy prevCat then
    existsb (fun x => normalizeBrand_throws (Some x))
      (Js.array_or [] (Js.prop prevCat "brands"))
    || existsb Js.throws
         (if Js.isArray prevCat then Js.array_or [] prevCat
          else Js.array_or [] (Js.prop prevCat "ids"))
  else false.

(** [prevBrands.length && (prevBrands.join(",") !== brandList.join(","))] *)
Definition brandsChanged_of (prevBrands brandList : list string) : bool :=
  negb (length prevBrands =? 0)%nat &&
  negb (String.eqb (Js.join "," prevBrands) (Js.join "," brandList)).

(** [reseed || !prevIds.length || brandsChanged] *)
Definition needReseed_of (reseed : bool) (prevIds : list string) (brandsChanged : bool) : bool :=
  reseed || (length prevIds =? 0)%nat || brandsChanged.

(** The warning of a changed brand list (its dash written as a hyphen). *)
Definition brands_warning : string :=
  "[sync] Brand list changed vs catalog.json - reseeding catalog automatically.".

Definition performers_object (c : clock) (brandList : list string)
    (outPerformers : list json) : json :=
  JObj [("generatedAt", JStr (now_performers c));
        ("brands", JArr (JStr <$> brandList));
        ("count", JNum (Z.of_nat (length outPerformers)));
        ("performers", JArr outPerformers)].

Definition catalog_object (c : clock) (brandList : list string) (max : Q)
    (ids : list string) : json :=
  JObj [("generatedAt", JStr (now_catalog c));
        ("brands", JArr (JStr <$> brandList));
        ("max", Js.number max);
        ("count", JNum (Z.of_nat (length ids)));
        ("ids", JArr (JStr <$> ids))].

(** Everything a completed run computed and did. *)
Record report : Type := Report {
  r_max : Q;
  r_brandList : list string;
  r_prevIds : list string;
  r_prevBrands : list string;
  r_brandsChanged : bool;
  r_needReseed : bool;
  r_quota : list (string * Z);
  r_fresh : list json;
  r_merged : list (string * json);
  r_outIds : list string;
  r_outPerformers : list json;
  r_idsChanged : bool;
  r_catalog_written : bool;   (* whether the catalog file was written *)
  r_warnings : list string;   (* console.warn, in order *)
  r_requests : list request;  (* the calls of fetch, in order *)
  r_disk : disk               (* the files after the run *)
}.

(** The credentials and user agent read from the environment. *)
Definition apiKey_of (e : environment) : string :=
  if Js.nonempty (CRAK_API_KEY e) then CRAK_API_KEY e
  else if Js.nonempty (CRAK_KEY e) then CRAK_KEY e else "".

Definition ua_of (e : environment) : string :=
  if Js.nonempty (CRAK_UA e) then CRAK_UA e else "nitevelour.com".

Definition request_of (e : environment) (o : options) (brand : string) (page : Z) : request :=
  {| rq_apiKey := apiKey_of e; rq_token := CRAK_TOKEN e; rq_ua := ua_of e;
     rq_brand := brand; rq_page := page; rq_size := effective_size o |}.

(** The fetch loops of [main], from the empty accumulation. *)
Definition fetch_all (e : environment) (o : options) (up : upstream)
    (brandList : list string) : outcome fetch_state :=
  fetch_brands up (request_of e o) (quotas (effective_max o) brandList) brandList
    {| seen := ∅; freshByBrand := empty_fresh brandList; warned := []; requested := [] |}.

(** The rest of [main], given the state the fetch loops ended in. The warning
    of a changed brand list is logged before the first request. *)
Definition reconcile (o : options) (c : clock) (d : disk) (st : fetch_state) : report :=
  let max := effective_max o in
  let reseed := opt_reseed o in
  let brandList := brandList_of o d in
  let prevMap := prevMap_of d in
  let prevCat := readJSONIfExists (catalog_json d) in
  let prevIds := prevIds_of prevCat in
  let prevBrands := prevBrands_of prevCat in
  let brandsChanged := brandsChanged_of prevBrands brandList in
  let needReseed := needReseed_of reseed prevIds brandsChanged in
  let fresh := collect_fresh brandList st in
  let merged := merge_fresh fresh prevMap in
  let outIds := outIds (build_catalog needReseed max prevIds fresh merged) in
  let outPerformers := select_performers merged outIds in
  let prevIdsComparable := take (Z.to_nat (Js.trunc max)) prevIds in
  let idsChanged := negb (arraysEqual (JStr <$> prevIdsComparable) (JStr <$> outIds)) in
  let write_catalog := needReseed || idsChanged || negb (Js.truthy prevCat) in
  {| r_max := max;
     r_brandList := brandList;
     r_prevIds := prevIds;
     r_prevBrands := prevBrands;
     r_brandsChanged := brandsChanged;
     r_needReseed := needReseed;
     r_quota := quotas max brandList;
     r_fresh := fresh;
     r_merged := merged;
     r_outIds := outIds;
     r_outPerformers := outPerformers;
     r_idsChanged := idsChanged;
     r_catalog_written := write_catalog;
     r_warnings :=
       (if brandsChanged && negb reseed then [brands_warning] else []) ++ warned st;
     r_requests := requested st;
     r_disk :=
       {| site_config := site_config d;
          performers_json := Parsed (performers_object c brandList outPerformers);
          catalog_json :=
            if write_catalog then Parsed (catalog_object c brandList max outIds)
            else catalog_json d |} |}.

(** The counts by brand are only printed, but the loop that takes them calls
    [brandKeyFrom] on every record that is about to be written. *)
Definition counts_throws (outPerformers : list json) : bool :=
  existsb (fun p => brandKeyFrom_throws p "") outPerformers.

(** A [TypeError] ends the run where it is thrown, and all the places where
    one can be thrown come before the files are written. *)
Definition main (e : environment) (o : options) (c : clock) (up : upstream) (d : disk)
    : outcome report :=
  if negb (Js.nonempty (apiKey_of e)) || negb (Js.nonempty (CRAK_TOKEN e))
  then Failed MissingCredentials
  else if brandList_throws o d then Failed TypeError
  else if prevMap_throws d then Failed TypeError
  else if prevCat_throws (readJSONIfExists (catalog_json d)) then Failed TypeError
  else
    st ← fetch_all e o up (brandList_of o d);
    let r := reconcile o c d st in
    if counts_throws (r_outPerformers r) then Failed TypeError
    else Done r.

(** ** Notions used in the statements *)

(** The elements of a list in the order of their first occurrences. *)
Fixpoint distinct (l : list string) : list string :=
  match l with
  | [] => []
  | x :: r => x :: filter (fun y => y ≠ x) (distinct r)
  end.

Definition zsum (l : list Z) : Z := foldr Z.add 0 l.

(** The state of a map of records the script relies on: every record is
    filed under its own, non-empty identifier, and is an object. *)
Definition keyed (m : list (string * json)) : Prop :=
  Forall (fun kv => idFor kv.2 = kv.1 ∧ kv.1 ≠ "") m.

(** The loop invariant of the three steps: [used] is the set of [outIds],
    which holds no identifier twice. *)
Definition acc_ok (acc : catalog_acc) : Prop :=
  NoDup (outIds acc) ∧ ∀ x, x ∈ used acc ↔ x ∈ outIds acc.

(** [acc'] is [acc] with identifiers appended that were not used and satisfy [S]. *)
Definition extends (S : string → Prop) (acc acc' : catalog_acc) : Prop :=
  ∃ rest, outIds acc' = outIds acc ++ rest ∧
          Forall (fun x => (x ∉ used acc) ∧ S x) rest ∧
          (used acc ⊆ used acc').

(** The warnings [fetchPage] logs for a request. *)
Definition page_log (up : upstream) (rq : request) (w : list string) : Prop :=
  ∃ arr, fetchPage up rq = Done (arr, w).

(** What holds of the result of a computation that completed. *)
Definition after {A : Type} (P : A → Prop) (m : outcome A) : Prop :=
  match m with
  | Done a => P a
  | Failed _ => True
  end.


(** The warnings that [fetchPage] logs for a request, read off the answer. *)
Definition page_warnings (up : upstream) (rq : request) : list string :=
  match up rq with
  | Some res =>
      if negb (res_ok res) then [page_warning rq res]
      else match res_json res with
           | Some _ => []
           | None => [parse_warning rq res]
           end
  | None => []
  end.

(** Brand names that [normalizeBrand] keeps and does not drop. *)
Definition normalised (brands : list string) : Prop :=
  Forall (fun b => normalizeBrand (Some (JStr b)) = b ∧ b ≠ "") brands.

(** The records upstream returned for a request. *)
Definition page_records (up : upstream) (rq : request) : list json :=
  match fetchPage up rq with
  | Done (arr, _) => arr
  | Failed _ => []
  end.

(** Every accumulated record of a brand was returned for a request made for
    that brand. *)
Definition traced (up : upstream) (st : fetch_state) : Prop :=
  ∀ b p, p ∈ got b st →
    ∃ rq, rq ∈ requested st ∧ rq_brand rq = b ∧ p ∈ page_records up rq.

(** The records of a list that have an identifier which is not in [S] and
    was not met earlier in the list, in the order of the list. *)
Fixpoint first_new (S : gset string) (l : list json) : list json :=
  match l with
  | [] => []
  | p :: r =>
      if Js.nonempty (idFor p) && bool_decide (idFor p ∉ S)
      then p :: first_new ({[idFor p]} ∪ S) r
      else first_new S r
  end.

(** The records a run takes, brand after brand, when it has requested the
    pages 1 to [k] of brand [b] for each [(b, k)] of the list: of every brand
    the first new records of its pages, up to its quota. *)
Fixpoint pick_fresh (up : upstream) (mk : string → Z → request)
    (quota : list (string * Z)) (S : gset string) (bks : list (string * Z)) : list json :=
  match bks with
  | [] => []
  | (b, k) :: rest =>
      let t := take (Z.to_nat (want_of quota b))
                 (first_new S (concat (page_records up <$> (mk b <$> seqZ 1 k)))) in
      t ++ pick_fresh up mk quota (list_to_set (idFor <$> t) ∪ S) rest
  end.

(** The word the run prints for the catalog:
    [needReseed ? "reseed" : (idsChanged ? "updated" : "unchanged")]. *)
Definition catalog_status (needReseed idsChanged : bool) : string :=
  if needReseed then "reseed" else if idsChanged then "updated" else "unchanged".

(** Strings without a comma. *)
Definition comma_free (s : string) : Prop :=
  ","%char ∉ list_ascii_of_string s.

(** ** Sample runs *)

Module Sample.

Definition performer (id : string) : json :=
  JObj [("itemId", JStr id); ("systemSource", JStr "x")].

Definition env : environment :=
  {| CRAK_API_KEY := "key"; CRAK_KEY := ""; CRAK_TOKEN := "token"; CRAK_UA := "" |}.

Definition clock1 : clock := {| now_performers := "t1"; now_catalog := "t2" |}.

Definition page_of (records : list json) : response :=
  {| res_ok := true; res_status := 200; res_text := "";
     res_json := Some (JObj [("performers", JArr records)]) |}.

(** An upstream whose first page of every brand holds the given records. *)
Definition serve (records : list json) : upstream :=
  fun rq => Some (page_of (if rq_page rq =? 1 then records else [])).

Definition performers_file (records : list json) : file :=
  Parsed (JObj [("performers", JArr records)]).

Definition catalog_file (brands ids : list string) : file :=
  Parsed (JObj [("brands", JArr (JStr <$> brands)); ("ids", JArr (JStr <$> ids))]).

Definition opts_of (max : Q) (brands : string) : options :=
  {| opt_max := max; opt_size := 100; opt_reseed := false; opt_brands := brands |}.

Definition opts (max : Z) (brands : string) : options := opts_of (inject_Z max) brands.

(** The previous catalog holds 1, 2, 3; the table has lost 2; upstream
    returns 4. *)
Definition disk_123 : disk :=
  {| site_config := Absent;
     performers_json := performers_file [performer "1"; performer "3"];
     catalog_json := catalog_file ["x"] ["1"; "2"; "3"] |}.

(** The previous catalog and table hold 1, 2, 3. *)
Definition disk_full : disk :=
  {| site_config := Absent;
     performers_json := performers_file [performer "1"; performer "2"; performer "3"];
     catalog_json := catalog_file ["x"] ["1"; "2"; "3"] |}.

(** A previous catalog without identifiers. *)
Definition disk_no_ids : disk :=
  {| site_config := Absent;
     performers_json := Absent;
     catalog_json := catalog_file ["x"] [] |}.

Definition disk_empty : disk :=
  {| site_config := Absent; performers_json := Absent; catalog_json := Absent |}.

(** An upstream that refuses every request. *)
Definition refusal : response :=
  {| res_ok := false; res_status := 401; res_text := "denied"; res_json := None |}.

Definition refuse : upstream := fun _ => Some refusal.

(** An upstream with one record per brand, 1 for [a] and 2 for any other. *)
Definition serve_by_brand : upstream :=
  fun rq =>
    Some (page_of
            (if rq_page rq =? 1
             then [performer (if String.eqb (rq_brand rq) "a" then "1" else "2")]
             else [])).

(** The first request for brand [x], and the state before it. *)
Definition request_x (page : Z) : request := request_of env (opts 3 "x") "x" page.

Definition state_x : fetch_state :=
  {| seen := ∅; freshByBrand := [("x", [])]; warned := []; requested := [] |}.

(** A page with a record twice and a value that is no record, and the
    state after the loop of brand [x] has taken two records of it. *)
Definition records_x : list json :=
  [performer "4"; JNull; performer "4"; performer "5"; performer "6"].

Definition state_x_taken : fetch_state :=
  take_page "x" 2 records_x (logged (request_x 1) [] state_x).

(** An environment without a token, and an upstream that cannot be reached. *)
Definition env_no_token : environment :=
  {| CRAK_API_KEY := ""; CRAK_KEY := "key"; CRAK_TOKEN := ""; CRAK_UA := "" |}.

Definition offline : upstream := fun _ => None.

(** A record with an identifier, and one with a brand, that [String] cannot
    convert. *)
Definition unconvertible : json := JObj [("id", JObj [("toString", JNum 1)])].

Definition unconvertible_brand : json :=
  JObj [("id", JStr "9"); ("brand", JArr [JObj [("toString", JNull)]])].

End Sample.

(** * Properties *)

(** ** The built-ins on examples *)

Example String_array : Js.String (JArr [JNum 12; JNull; JStr "x"; JArr [JBool true]]) = "12,,x,true".
Proof. vm_compute. reflexivity. Qed.

Example String_throws_toString :
  Js.throws (JObj [("toString", JStr "x")]) = true ∧
  Js.throws (JObj [("valueOf", JStr "x")]) = false ∧
  Js.throws (JArr [JNull; JArr [JObj [("toString", JNull)]]]) = true ∧
  Js.throws (JArr [JNull; JObj [("id", JObj [("toString", JNull)])]]) = false.
Proof. done. Qed.

Example idFor_throws_second_choice :
  idFor_throws (JObj [("itemId", JNum 0); ("id", JObj [("toString", JNum 1)])]) = true ∧
  idFor_throws (JObj [("itemId", JNum 7); ("id", JObj [("toString", JNum 1)])]) = false.
Proof. done. Qed.

Example quotas_of_a_fraction :
  quotas 2.5 ["a"; "b"] = [("a", 2); ("b", 1)] ∧ quotas 2.5 ["a"] = [("a", 3)].
Proof. split; vm_compute; reflexivity. Qed.

Example effective_max_below_one :
  effective_max (Sample.opts_of 0.5 "x") = 10000%Q ∧
  effective_max (Sample.opts_of 2.5 "x") = 2.5%Q ∧
  Js.number 2.5 = JFrac 2.5 ∧ Js.number 3 = JNum 3 ∧ Js.String (JFrac 2.5) = "2.5".
Proof. split_and!; vm_compute; reflexivity. Qed.

Example trim_both_ends : Js.trim (String "009" " ab c  ") = "ab c".
Proof. reflexivity. Qed.

Example split_commas : Js.split "," "a,,b" = ["a"; ""; "b"].
Proof. reflexivity. Qed.

Example split_empty : Js.split "," "" = [""].
Proof. reflexivity. Qed.

Example splitBrands_synonyms :
  splitBrands " BongaCams , ,royal-x,Stripchat" = ["bongacams"; "royalcams"; "stripchat"].
Proof. vm_compute. reflexivity. Qed.

Example idFor_itemId : idFor (JObj [("itemId", JNum 42); ("id", JStr "7")]) = "42".
Proof. vm_compute. reflexivity. Qed.

Example idFor_falls_back : idFor (JObj [("itemId", JNum 0); ("id", JStr " 7 ")]) = "7".
Proof. vm_compute. reflexivity. Qed.

Example idFor_blank_itemId : idFor (JObj [("itemId", JStr "  "); ("id", JStr "7")]) = "".
Proof. vm_compute. reflexivity. Qed.

Example idFor_not_an_object : idFor (JStr "7") = "".
Proof. vm_compute. reflexivity. Qed.

Example set_keeps_position :
  JsMap.keys (JsMap.set "a" 3 (JsMap.set "b" 2 (JsMap.set "a" 1 []))) = ["a"; "b"].
Proof. reflexivity. Qed.

(** ** Strings *)

Lemma nonempty_true s : Js.nonempty s = true ↔ s ≠ "".
Proof.
  unfold Js.nonempty. rewrite negb_true_iff. split.
  - intros H ->. discriminate.
  - intros H. apply String.eqb_neq. exact H.
Qed.

Lemma nonempty_false s : Js.nonempty s = false ↔ s = "".
Proof.
  unfold Js.nonempty. rewrite negb_false_iff. apply String.eqb_eq.
Qed.

Lemma filter_nonempty_all (l : list string) :
  Forall (fun s => s ≠ "") l → filter (fun b => Js.nonempty b = true) l = l.
Proof.
  induction 1 as [|x l Hx _ IH]; [done|].
  rewrite filter_cons_True; [by rewrite IH | by apply nonempty_true].
Qed.

Lemma filter_nonempty_Forall (l : list string) :
  Forall (fun s => s ≠ "") (filter (fun b => Js.nonempty b = true) l).
Proof.
  apply Forall_forall. intros x [Hx _]%list_elem_of_filter. by apply nonempty_true.
Qed.

(** ** Maps *)

Section JsMapFacts.
Context {V : Type}.
Implicit Types (m : list (string * V)) (k : string) (v : V).

Lemma get_set_eq k v m : JsMap.get k (JsMap.set k v m) = Some v.
Proof.
  induction m as [|[k' v'] m IH]; simpl.
  - by rewrite decide_True.
  - destruct (decide (k' = k)) as [->|Hne]; simpl.
    + by rewrite decide_True.
    + by rewrite decide_False.
Qed.

Lemma get_set_ne k k' v m : k ≠ k' → JsMap.get k' (JsMap.set k v m) = JsMap.get k' m.
Proof.
  intros Hne. induction m as [|[k0 v0] m IH]; simpl.
  - by rewrite decide_False.
  - destruct (decide (k0 = k)) as [->|Hk]; simpl.
    + by rewrite !decide_False.
    + destruct (decide (k0 = k')); [done | exact IH].
Qed.

Lemma has_true k m : JsMap.has k m = true ↔ k ∈ JsMap.keys m.
Proof.
  unfold JsMap.has, JsMap.keys. induction m as [|[k' v'] m IH]; simpl.
  - split; [done | by intros ?%elem_of_nil].
  - destruct (decide (k' = k)) as [->|Hne].
    + split; [intros _; left | done].
    + rewrite IH. split; [by right | by intros [?|?]%elem_of_cons].
Qed.

Lemma has_false k m : JsMap.has k m = false ↔ k ∉ JsMap.keys m.
Proof. rewrite <- has_true. by destruct (JsMap.has k m). Qed.

Lemma get_Some_elem k v m : JsMap.get k m = Some v → (k, v) ∈ m.
Proof.
  induction m as [|[k' v'] m IH]; simpl; [done|].
  destruct (decide (k' = k)) as [->|Hne].
  - intros [= ->]. left.
  - intros H. right. by apply IH.
Qed.

Lemma has_get k m : JsMap.has k m = true → ∃ v, JsMap.get k m = Some v.
Proof. unfold JsMap.has. destruct (JsMap.get k m); [eauto | done]. Qed.

Lemma keys_set k v m :
  JsMap.keys (JsMap.set k v m) =
  if JsMap.has k m then JsMap.keys m else JsMap.keys m ++ [k].
Proof.
  unfold JsMap.has, JsMap.keys. induction m as [|[k' v'] m IH]; [done|].
  simpl JsMap.set. simpl JsMap.get.
  destruct (decide (k' = k)) as [->|Hne]; [done|].
  rewrite !fmap_cons, IH. by destruct (JsMap.get k m).
Qed.

Lemma has_set k k' v m :
  JsMap.has k' (JsMap.set k v m) = bool_decide (k = k') || JsMap.has k' m.
Proof.
  unfold JsMap.has. destruct (decide (k = k')) as [->|Hne].
  - by rewrite get_set_eq, bool_decide_eq_true_2.
  - by rewrite get_set_ne, bool_decide_eq_false_2.
Qed.

Lemma NoDup_keys_set k v m : NoDup (JsMap.keys m) → NoDup (JsMap.keys (JsMap.set k v m)).
Proof.
  intros Hnd. rewrite keys_set. destruct (JsMap.has k m) eqn:Hk; [done|].
  apply NoDup_app. split_and!; [done | | apply NoDup_singleton].
  intros x Hx ->%list_elem_of_singleton. by apply has_false in Hk.
Qed.

Lemma elem_of_set k v k' v' m :
  (k', v') ∈ JsMap.set k v m → (k', v') = (k, v) ∨ (k', v') ∈ m.
Proof.
  induction m as [|[k0 v0] m IH]; simpl.
  - intros ->%list_elem_of_singleton. by left.
  - destruct (decide (k0 = k)) as [->|Hne].
    + intros [->|?]%elem_of_cons; [by left | right; by right].
    + intros [->|H]%elem_of_cons; [right; left|].
      destruct (IH H) as [?|?]; [by left | right; by right].
Qed.
End JsMapFacts.

(** ** Catalog assembly *)

Lemma acc_ok_empty : acc_ok {| outIds := []; used := ∅ |}.
Proof. split; [constructor | intros x; simpl; set_solver]. Qed.

Lemma push_id_ok id acc : acc_ok acc → id ∉ used acc → acc_ok (push_id id acc).
Proof.
  intros [Hnd Hin] Hid. split; simpl.
  - apply NoDup_app. split_and!; [done | | apply NoDup_singleton].
    intros x Hx ->%list_elem_of_singleton. by apply Hid, Hin.
  - intros x. rewrite elem_of_union, elem_of_singleton, elem_of_app, list_elem_of_singleton, Hin.
    tauto.
Qed.

Lemma ge_ceiling n x : Js.ge (inject_Z n) x = (Qceiling x <=? n).
Proof.
  unfold Js.ge. destruct (Qceiling x <=? n) eqn:Hle.
  - apply Z.leb_le in Hle. apply Qle_bool_iff.
    apply Qle_trans with (inject_Z (Qceiling x)); [apply Qle_ceiling|].
    by rewrite <- Zle_Qle.
  - apply Z.leb_gt in Hle. apply not_true_iff_false. intros H%Qle_bool_iff.
    apply Qceiling_resp_le in H. rewrite Qceiling_Z in H. lia.
Qed.

Lemma lt_ceiling n x : Js.lt (inject_Z n) x = (n <? Qceiling x).
Proof.
  unfold Js.lt. fold (Js.ge (inject_Z n) x). rewrite ge_ceiling.
  destruct (Qceiling x <=? n) eqn:Hle; symmetry; simpl.
  - apply Z.ltb_ge. by apply Z.leb_le.
  - apply Z.ltb_lt. by apply Z.leb_gt.
Qed.

Lemma full_true max acc :
  full max acc = true ↔ Qceiling max ≤ Z.of_nat (length (outIds acc)).
Proof. unfold full. rewrite ge_ceiling. apply Z.leb_le. Qed.

Lemma full_false max acc :
  full max acc = false ↔ Z.of_nat (length (outIds acc)) < Qceiling max.
Proof. unfold full. rewrite ge_ceiling. apply Z.leb_gt. Qed.

Lemma push_id_length id acc :
  Z.of_nat (length (outIds (push_id id acc))) = Z.of_nat (length (outIds acc)) + 1.
Proof. simpl. rewrite length_app. simpl. lia. Qed.

Lemma keep_previous_ok max merged prevIds acc :
  acc_ok acc → acc_ok (keep_previous max merged prevIds acc).
Proof.
  revert acc. induction prevIds as [|id r IH]; intros acc Hok; simpl; [done|].
  destruct (JsMap.has id merged); simpl; [|by apply IH].
  destruct (decide (id ∈ used acc)); [by apply IH|].
  destruct (full max (push_id id acc)); [|apply IH]; by apply push_id_ok.
Qed.

Lemma keep_previous_length max merged prevIds acc :
  Z.of_nat (length (outIds acc)) < Qceiling max →
  Z.of_nat (length (outIds (keep_previous max merged prevIds acc))) ≤ Qceiling max.
Proof.
  revert acc. induction prevIds as [|id r IH]; intros acc Hlt; simpl; [lia|].
  destruct (JsMap.has id merged); simpl; [|by apply IH].
  destruct (decide (id ∈ used acc)); [by apply IH|].
  destruct (full max (push_id id acc)) eqn:Hfull.
  - rewrite push_id_length. lia.
  - apply IH. by apply full_false.
Qed.

Lemma fill_fresh_ok max fresh acc : acc_ok acc → acc_ok (fill_fresh max fresh acc).
Proof.
  revert acc. induction fresh as [|p r IH]; intros acc Hok; simpl; [done|].
  destruct (full max acc); [done|].
  destruct (Js.nonempty (idFor p)); simpl; [|by apply IH].
  case_bool_decide; [by apply IH|]. by apply IH, push_id_ok.
Qed.

Lemma fill_fresh_length max fresh acc :
  Z.of_nat (length (outIds acc)) ≤ Qceiling max →
  Z.of_nat (length (outIds (fill_fresh max fresh acc))) ≤ Qceiling max.
Proof.
  revert acc. induction fresh as [|p r IH]; intros acc Hle; simpl; [done|].
  destruct (full max acc) eqn:Hfull; [done|]. apply full_false in Hfull.
  destruct (Js.nonempty (idFor p)); simpl; [|by apply IH].
  case_bool_decide; [by apply IH|]. apply IH. rewrite push_id_length. lia.
Qed.

Lemma fill_keys_ok max keys acc : acc_ok acc → acc_ok (fill_keys max keys acc).
Proof.
  revert acc. induction keys as [|id r IH]; intros acc Hok; simpl; [done|].
  destruct (full max acc); [done|].
  destruct (decide (id ∈ used acc)); [by apply IH|]. by apply IH, push_id_ok.
Qed.

Lemma fill_keys_length max keys acc :
  Z.of_nat (length (outIds acc)) ≤ Qceiling max →
  Z.of_nat (length (outIds (fill_keys max keys acc))) ≤ Qceiling max.
Proof.
  revert acc. induction keys as [|id r IH]; intros acc Hle; simpl; [done|].
  destruct (full max acc) eqn:Hfull; [done|]. apply full_false in Hfull.
  destruct (decide (id ∈ used acc)); [by apply IH|].
  apply IH. rewrite push_id_length. lia.
Qed.

Lemma build_catalog_ok needReseed max prevIds fresh merged :
  acc_ok (build_catalog needReseed max prevIds fresh merged).
Proof.
  unfold build_catalog. rewrite lt_ceiling.
  assert (acc_ok (if negb needReseed
                  then keep_previous max merged prevIds {| outIds := []; used := ∅ |}
                  else {| outIds := []; used := ∅ |})) as H1.
  { destruct needReseed; simpl; [apply acc_ok_empty | apply keep_previous_ok, acc_ok_empty]. }
  apply (fill_fresh_ok max fresh) in H1.
  destruct (_ <? Qceiling max); [by apply fill_keys_ok | done].
Qed.

Lemma build_catalog_length needReseed max prevIds fresh merged :
  1 ≤ Qceiling max →
  Z.of_nat (length (outIds (build_catalog needReseed max prevIds fresh merged))) ≤ Qceiling max.
Proof.
  intros Hmax. unfold build_catalog. rewrite lt_ceiling.
  assert (Z.of_nat (length (outIds
            (if negb needReseed
             then keep_previous max merged prevIds {| outIds := []; used := ∅ |}
             else {| outIds := []; used := ∅ |}))) ≤ Qceiling max) as H1.
  { destruct needReseed; simpl; [lia|]. apply keep_previous_length. simpl. lia. }
  apply (fill_fresh_length max fresh) in H1.
  destruct (_ <? Qceiling max); [by apply fill_keys_length | done].
Qed.

Lemma effective_max_ge o : (1 <= effective_max o)%Q.
Proof.
  unfold effective_max, Js.lt.
  destruct (Qeq_bool (opt_max o) 0); simpl.
  - replace (Qle_bool 1 10000) with true by reflexivity. simpl. discriminate.
  - destruct (Qle_bool 1 (opt_max o)) eqn:H1; simpl; [|discriminate].
    by apply Qle_bool_iff.
Qed.

Lemma effective_max_pos o : 1 ≤ Qceiling (effective_max o).
Proof.
  pose proof (Qceiling_resp_le _ _ (effective_max_ge o)) as H.
  by change (Qceiling 1%Q) with 1 in H.
Qed.

Lemma effective_max_id o : (1 <= opt_max o)%Q → effective_max o = opt_max o.
Proof.
  intros H. unfold effective_max, Js.lt.
  destruct (Qeq_bool (opt_max o) 0) eqn:H0.
  - apply Qeq_bool_iff in H0. rewrite H0 in H. by apply Qle_bool_iff in H.
  - by rewrite (proj2 (Qle_bool_iff _ _) H).
Qed.

(** The run without its exits. *)
Lemma main_unfold e o c up d :
  main e o c up d =
  if negb (Js.nonempty (apiKey_of e)) || negb (Js.nonempty (CRAK_TOKEN e))
  then Failed MissingCredentials
  else if brandList_throws o d || prevMap_throws d
          || prevCat_throws (readJSONIfExists (catalog_json d))
  then Failed TypeError
  else
    match fetch_all e o up (brandList_of o d) with
    | Done st =>
        if counts_throws (r_outPerformers (reconcile o c d st)) then Failed TypeError
        else Done (reconcile o c d st)
    | Failed f => Failed f
    end.
Proof.
  unfold main. destruct (_ || _); [done|].
  destruct (brandList_throws o d); [done|]. destruct (prevMap_throws d); [done|].
  by destruct (prevCat_throws _).
Qed.

(** A completed run is [reconcile] applied to the state of the fetch loops,
    and no [String] in it threw. *)
Lemma main_Done_checks e o c up d r :
  main e o c up d = Done r →
  brandList_throws o d = false ∧ prevMap_throws d = false ∧
  prevCat_throws (readJSONIfExists (catalog_json d)) = false ∧
  counts_throws (r_outPerformers r) = false ∧
  ∃ st, fetch_all e o up (brandList_of o d) = Done st ∧ r = reconcile o c d st.
Proof.
  rewrite main_unfold. destruct (_ || _); [done|].
  destruct (brandList_throws o d); [done|]. destruct (prevMap_throws d); [done|].
  destruct (prevCat_throws _); [done|]. cbn [orb].
  destruct (fetch_all e o up (brandList_of o d)) as [st|f]; [|done].
  destruct (counts_throws _) eqn:Hcounts; [done|].
  intros [= <-]. eauto 10.
Qed.

Lemma main_Done e o c up d r :
  main e o c up d = Done r →
  ∃ st, fetch_all e o up (brandList_of o d) = Done st ∧ r = reconcile o c d st.
Proof. by intros (_ & _ & _ & _ & ?)%main_Done_checks. Qed.

(** ** The catalog never exceeds [max] and holds no identifier twice *)

(** C1, as amended. In every completed run no identifier occurs twice in
    the list of catalog identifiers, and the list has at most [max] entries
    when [max] is a whole number; in general it has at most [max] rounded up
    entries, [max] being at least 1. The reseed decision plays no role. *)
Theorem C1_catalog_bounded_nodup e o c up d r :
  main e o c up d = Done r →
  (1 <= r_max r)%Q ∧
  NoDup (r_outIds r) ∧
  (∀ m : Z, (r_max r == inject_Z m)%Q → Z.of_nat (length (r_outIds r)) ≤ m) ∧
  Z.of_nat (length (r_outIds r)) ≤ Qceiling (r_max r).
Proof.
  intros (st & _ & ->)%main_Done. cbn [reconcile r_max r_outIds].
  assert (Z.of_nat (length (outIds (build_catalog
            (needReseed_of (opt_reseed o) (prevIds_of (readJSONIfExists (catalog_json d)))
               (brandsChanged_of (prevBrands_of (readJSONIfExists (catalog_json d)))
                  (brandList_of o d)))
            (effective_max o) (prevIds_of (readJSONIfExists (catalog_json d)))
            (collect_fresh (brandList_of o d) st)
            (merge_fresh (collect_fresh (brandList_of o d) st) (prevMap_of d)))))
          ≤ Qceiling (effective_max o)) as Hlen
    by apply build_catalog_length, effective_max_pos.
  split_and!.
  - apply effective_max_ge.
  - apply build_catalog_ok.
  - intros m Hm. by rewrite (Qceiling_comp _ _ Hm), Qceiling_Z in Hlen.
  - exact Hlen.
Qed.

Lemma C1_witness :
  ∃ r, main Sample.env (Sample.opts 3 "x") Sample.clock1
         (Sample.serve [Sample.performer "4"]) Sample.disk_123 = Done r ∧
       NoDup (r_outIds r) ∧ Z.of_nat (length (r_outIds r)) ≤ 3.
Proof.
  eexists. split; [vm_compute; reflexivity|].
  edestruct (C1_catalog_bounded_nodup Sample.env (Sample.opts 3 "x") Sample.clock1
               (Sample.serve [Sample.performer "4"]) Sample.disk_123)
    as (_ & Hnd & Hwhole & _); [vm_compute; reflexivity|].
  split; [exact Hnd|]. apply Hwhole. reflexivity.
Defined.

(** With [--max 2.5] and three records at hand the catalog gets three
    identifiers: the loops stop at the first length that is at least [max]. *)
Lemma C1_counterexample :
  ∃ r, main Sample.env (Sample.opts_of 2.5 "x") Sample.clock1 (Sample.serve [])
         Sample.disk_full = Done r ∧
       (r_max r == 2.5)%Q ∧
       r_outIds r = ["1"; "2"; "3"] ∧
       ¬ (inject_Z (Z.of_nat (length (r_outIds r))) <= r_max r)%Q.
Proof.
  eexists. split; [vm_compute; reflexivity|]. split_and!; [reflexivity | reflexivity |].
  vm_compute. intros H. by apply H.
Qed.

(** ** Numbers that need not be whole *)

Lemma Qceiling_unique y c :
  (inject_Z (c - 1) < y)%Q → (y <= inject_Z c)%Q → Qceiling y = c.
Proof.
  intros Hlo Hhi.
  pose proof (Qle_ceiling y) as H1. pose proof (Qceiling_lt y) as H2.
  assert (c - 1 < Qceiling y) as H3.
  { rewrite Zlt_Qlt. eapply Qlt_le_trans; [exact Hlo | exact H1]. }
  assert (Qceiling y - 1 < c) as H4.
  { rewrite Zlt_Qlt. eapply Qlt_le_trans; [exact H2 | exact Hhi]. }
  lia.
Qed.

Lemma Qceiling_add_Z x k : Qceiling (x + inject_Z k) = Qceiling x + k.
Proof.
  apply Qceiling_unique.
  - pose proof (Qceiling_lt x) as H.
    replace (Qceiling x + k - 1) with ((Qceiling x - 1) + k) by lia.
    rewrite inject_Z_plus. lra.
  - pose proof (Qle_ceiling x) as H. rewrite inject_Z_plus. lra.
Qed.

Lemma trunc_nonneg q : (0 <= q)%Q → Js.trunc q = Qfloor q.
Proof. intros H. unfold Js.trunc. by rewrite (proj2 (Qle_bool_iff _ _) H). Qed.

Lemma quota_parts max n :
  (0 <= max)%Q → 0 < n →
  0 ≤ Js.floor (max / inject_Z n) ∧
  0 ≤ Qceiling (Js.rem max (inject_Z n)) ∧
  n * Js.floor (max / inject_Z n) + Qceiling (Js.rem max (inject_Z n)) = Qceiling max.
Proof.
  intros Hmax Hn. unfold Js.floor, Js.rem.
  assert (0 < inject_Z n)%Q as HN by (by rewrite (Zlt_Qlt 0 n) in Hn).
  assert (0 <= max / inject_Z n)%Q as Hq.
  { apply Qle_shift_div_l; [done|]. lra. }
  rewrite trunc_nonneg by done.
  set (base := Qfloor (max / inject_Z n)).
  assert (0 ≤ base) as Hbase.
  { pose proof (Qfloor_resp_le _ _ Hq) as H. by change (Qfloor 0%Q) with 0 in H. }
  assert (inject_Z n * inject_Z base <= max)%Q as Hle.
  { pose proof (Qfloor_le (max / inject_Z n)) as H. fold base in H.
    apply (Qmult_le_l _ _ (inject_Z n)) in H; [|done].
    rewrite Qmult_div_r in H; [done|]. lra. }
  split_and!; [done | |].
  - assert (0 <= max - inject_Z n * inject_Z base)%Q as H by lra.
    apply Qceiling_resp_le in H. by change (Qceiling 0%Q) with 0 in H.
  - rewrite Z.add_comm, <- Qceiling_add_Z.
    apply Qceiling_comp. rewrite inject_Z_mult. ring.
Qed.


Lemma whole_ceiling q m : (q == inject_Z m)%Q → Qceiling q = m.
Proof. intros Hq. by rewrite (Qceiling_comp _ _ Hq), Qceiling_Z. Qed.

Lemma whole_trunc_ceiling q m : (q == inject_Z m)%Q → Js.trunc q = Qceiling q.
Proof.
  intros Hq. unfold Js.trunc. destruct (Qle_bool 0 q); [|done].
  by rewrite (Qfloor_comp _ _ Hq), (Qceiling_comp _ _ Hq), Qfloor_Z, Qceiling_Z.
Qed.

Lemma whole_trunc q m : (q == inject_Z m)%Q → Js.trunc q = m.
Proof. intros Hq. by rewrite (whole_trunc_ceiling q m), (whole_ceiling q m). Qed.



(** ** Quotas *)

Lemma set_quotas_cons base extra i b r quota :
  set_quotas base extra i (b :: r) quota =
  set_quotas base extra (i + 1) r
    (JsMap.set b (base + (if i <? Qceiling extra then 1 else 0)) quota).
Proof. simpl. by rewrite lt_ceiling. Qed.

Section Quotas.
Variable base : Z.
Variable extra : Q.

Lemma set_quotas_get_other brands i quota k :
  k ∉ brands →
  JsMap.get k (set_quotas base extra i brands quota) = JsMap.get k quota.
Proof.
  revert i quota. induction brands as [|b r IH]; intros i quota Hk; simpl; [done|].
  apply not_elem_of_cons in Hk as [Hkb Hkr].
  rewrite IH by done. by apply get_set_ne.
Qed.



End Quotas.




(** ** The fetch loops *)

Lemma fetchPage_Done up rq arr w :
  fetchPage up rq = Done (arr, w) →
  ∃ res, up rq = Some res ∧
    ((res_ok res = false ∧ arr = [] ∧ w = [page_warning rq res]) ∨
     (res_ok res = true ∧ res_json res = None ∧ arr = [] ∧ w = [parse_warning rq res]) ∨
     (res_ok res = true ∧ ∃ data, res_json res = Some data ∧ w = [] ∧
        arr = Js.array_or (Js.array_or [] (Js.prop (Some data) "data"))
                (Js.prop (Some data) "performers"))).
Proof.
  unfold fetchPage. destruct (up rq) as [res|]; [|done].
  exists res. split; [done|]. destruct (res_ok res); simpl in *.
  - destruct (res_json res) as [data|]; injection H as <- <-.
    + right. right. eauto.
    + right. left. done.
  - injection H as <- <-. left. done.
Qed.

Lemma fetchPage_Failed up rq f :
  fetchPage up rq = Failed f → f = FetchRejected rq ∧ up rq = None.
Proof.
  unfold fetchPage. destruct (up rq) as [res|]; [|by intros [= <-]].
  destruct (negb (res_ok res)); [done|]. by destruct (res_json res).
Qed.

Lemma fetchPage_log up rq arr w : fetchPage up rq = Done (arr, w) → page_log up rq w.
Proof. intros H. by exists arr. Qed.

Lemma page_log_cases up rq w :
  page_log up rq w →
  w = [] ∨ ∃ res, up rq = Some res ∧ (w = [page_warning rq res] ∨ w = [parse_warning rq res]).
Proof.
  intros [arr (res & Hres & [(_ & _ & ->)|[(_ & _ & _ & ->)|(_ & data & _ & -> & _)]])%fetchPage_Done];
    eauto.
Qed.

Lemma fetch_brands_cons up mk quota brand r st :
  fetch_brands up mk quota (brand :: r) st =
  if want_of quota brand <=? 0 then fetch_brands up mk quota r st
  else match brand_loop (Z.to_nat page_cap) up (mk brand) brand (want_of quota brand) 1 st with
       | Done st' => fetch_brands up mk quota r st'
       | Failed f => Failed f
       end.
Proof. reflexivity. Qed.

Section FetchInvariantChecked.
Variable up : upstream.
Variable I : fetch_state → Prop.
Hypothesis I_accept : ∀ brand p st,
  I st → idFor_throws p = false → idFor p ≠ "" → idFor p ∉ seen st →
  I (accept brand (idFor p) p st).
Hypothesis I_logged : ∀ rq w st, I st → page_log up rq w → I (logged rq w st).

Lemma take_page_checked_inv brand want arr st :
  take_page_throws brand want arr st = false → I st → I (take_page brand want arr st).
Proof.
  revert st. induction arr as [|p r IH]; intros st Hthrows Hst; simpl in *; [done|].
  destruct (idFor_throws p) eqn:Hp; [done|].
  destruct (Js.nonempty (idFor p)) eqn:Hid; simpl in *; [|by apply IH].
  apply nonempty_true in Hid.
  destruct (decide (idFor p ∈ seen st)); [by apply IH|].
  destruct (_ <=? _); [|apply IH; [done|]]; by apply I_accept.
Qed.

Lemma brand_loop_checked_post fuel mk brand want page st :
  I st → after I (brand_loop fuel up mk brand want page st).
Proof.
  revert page st. induction fuel as [|fuel IH]; intros page st Hst; simpl.
  - by destruct (_ <? want).
  - destruct (_ <? want); [|done].
    destruct (fetchPage up (mk page)) as [[arr w]|f] eqn:Hpage; simpl; [|done].
    apply fetchPage_log in Hpage.
    destruct arr as [|p arr]; cbv beta iota.
    + by apply I_logged.
    + destruct (take_page_throws _ _ _ _) eqn:Hthrows; [done|].
      destruct (page_cap <? page + 1).
      * by apply take_page_checked_inv, I_logged.
      * by apply IH, take_page_checked_inv, I_logged.
Qed.

Lemma fetch_brands_checked_post mk quota brands st :
  I st → after I (fetch_brands up mk quota brands st).
Proof.
  revert st. induction brands as [|brand r IH]; intros st Hst; [done|].
  rewrite fetch_brands_cons.
  destruct (want_of quota brand <=? 0); [by apply IH|].
  pose proof (brand_loop_checked_post (Z.to_nat page_cap) (mk brand) brand
                (want_of quota brand) 1 st Hst) as Hloop.
  destruct (brand_loop _ up (mk brand) brand _ 1 st) as [st1|f]; [|done].
  by apply IH.
Qed.

End FetchInvariantChecked.

Section FetchInvariant.
Variable up : upstream.
Variable I : fetch_state → Prop.
Hypothesis I_accept : ∀ brand p st,
  I st → idFor p ≠ "" → idFor p ∉ seen st → I (accept brand (idFor p) p st).
Hypothesis I_logged : ∀ rq w st, I st → page_log up rq w → I (logged rq w st).

Lemma take_page_inv brand want arr st : I st → I (take_page brand want arr st).
Proof.
  revert st. induction arr as [|p r IH]; intros st Hst; simpl; [done|].
  destruct (Js.nonempty (idFor p)) eqn:Hid; simpl; [|by apply IH].
  apply nonempty_true in Hid.
  destruct (decide (idFor p ∈ seen st)); [by apply IH|].
  destruct (_ <=? _); [|apply IH]; by apply I_accept.
Qed.

Lemma brand_loop_post fuel mk brand want page st :
  I st → after I (brand_loop fuel up mk brand want page st).
Proof. apply brand_loop_checked_post; [|done]. intros ???? _. by apply I_accept. Qed.

Lemma fetch_brands_post mk quota brands st :
  I st → after I (fetch_brands up mk quota brands st).
Proof. apply fetch_brands_checked_post; [|done]. intros ???? _. by apply I_accept. Qed.

Lemma fetch_brands_inv mk quota brands st st' :
  I st → fetch_brands up mk quota brands st = Done st' → I st'.
Proof.
  intros Hst Hrun. pose proof (fetch_brands_post mk quota brands st Hst) as Hpost.
  by rewrite Hrun in Hpost.
Qed.
End FetchInvariant.

(** The fuel of [brand_loop] is enough whenever it covers the pages left
    before the cap: the loop then ends by itself, or because [fetch] rejected
    or [idFor] threw. *)
Lemma brand_loop_result fuel up mk brand want page st :
  page ≤ page_cap → page_cap + 1 - page ≤ Z.of_nat fuel →
  (∃ st', brand_loop fuel up mk brand want page st = Done st') ∨
  (∃ rq, brand_loop fuel up mk brand want page st = Failed (FetchRejected rq) ∧ up rq = None) ∨
  brand_loop fuel up mk brand want page st = Failed TypeError.
Proof.
  unfold page_cap.
  revert page st. induction fuel as [|fuel IH]; intros page st Hpage Hfuel; [simpl in *; lia|].
  simpl. destruct (_ <? want); [|eauto].
  destruct (fetchPage up (mk page)) as [[arr w]|f] eqn:Hfetch; simpl.
  - destruct arr as [|p arr]; cbv beta iota; [eauto|].
    destruct (take_page_throws _ _ _ _); [eauto|].
    destruct (page_cap <? page + 1) eqn:Hcap; [eauto|].
    apply Z.ltb_ge in Hcap. unfold page_cap in Hcap. apply IH; lia.
  - apply fetchPage_Failed in Hfetch as [-> Hup]. eauto.
Qed.

Lemma fetch_brands_result up mk quota brands st :
  (∃ st', fetch_brands up mk quota brands st = Done st') ∨
  (∃ rq, fetch_brands up mk quota brands st = Failed (FetchRejected rq) ∧ up rq = None) ∨
  fetch_brands up mk quota brands st = Failed TypeError.
Proof.
  revert st. induction brands as [|brand r IH]; intros st; [left; by eexists|].
  rewrite fetch_brands_cons.
  destruct (want_of quota brand <=? 0); [apply IH|].
  destruct (brand_loop_result (Z.to_nat page_cap) up (mk brand) brand
              (want_of quota brand) 1 st) as [[st' ->]|[[rq [-> Hrq]]| ->]];
    [done | done | apply IH | eauto | eauto].
Qed.

(** [main] ends in one of four ways: it completes, or the credentials are
    missing, or a call of [fetch] rejected, or a [String] threw. It never
    runs out of fuel. *)
Lemma main_result e o c up d :
  (∃ r, main e o c up d = Done r) ∨
  (main e o c up d = Failed MissingCredentials ∧ (apiKey_of e = "" ∨ CRAK_TOKEN e = "")) ∨
  (∃ rq, main e o c up d = Failed (FetchRejected rq) ∧ up rq = None) ∨
  main e o c up d = Failed TypeError.
Proof.
  rewrite main_unfold.
  destruct (Js.nonempty (apiKey_of e)) eqn:Hkey;
    [|apply nonempty_false in Hkey; right; left; by eauto].
  destruct (Js.nonempty (CRAK_TOKEN e)) eqn:Htoken;
    [|apply nonempty_false in Htoken; right; left; by eauto].
  cbn [negb orb]. destruct (_ || _); [by eauto 10|].
  unfold fetch_all.
  destruct (fetch_brands_result up (request_of e o)
              (quotas (effective_max o) (brandList_of o d)) (brandList_of o d)
              {| seen := ∅; freshByBrand := empty_fresh (brandList_of o d);
                 warned := []; requested := [] |}) as [[st' ->]|[[rq [-> Hrq]]| ->]];
    [|by eauto 10|by eauto 10].
  destruct (counts_throws _); eauto 10.
Qed.

Lemma main_fuel e o c up d : main e o c up d ≠ Failed OutOfFuel.
Proof.
  destruct (main_result e o c up d) as [[r ->]|[[-> _]|[[rq [-> _]]| ->]]]; done.
Qed.


(** ** The reseed decision *)



Lemma page_warning_not_brands rq res : page_warning rq res ≠ brands_warning.
Proof. discriminate. Qed.

Lemma parse_warning_not_brands rq res : parse_warning rq res ≠ brands_warning.
Proof. discriminate. Qed.

Lemma fetch_all_warned e o up brandList st :
  fetch_all e o up brandList = Done st → brands_warning ∉ warned st.
Proof.
  unfold fetch_all. apply (fetch_brands_inv up (fun st => brands_warning ∉ warned st)).
  - done.
  - intros rq w st0 Hst Hlog. simpl. rewrite elem_of_app. intros [?|Hw]; [done|].
    destruct (page_log_cases _ _ _ Hlog) as [->|(res & _ & [->| ->])].
    + by apply elem_of_nil in Hw.
    + apply list_elem_of_singleton in Hw. symmetry in Hw.
      by apply page_warning_not_brands in Hw.
    + apply list_elem_of_singleton in Hw. symmetry in Hw.
      by apply parse_warning_not_brands in Hw.
  - simpl. apply not_elem_of_nil.
Qed.




(** The same brands in another order count as a change: the run reseeds,
    warns, and the catalog follows the new order of the brands. *)
Example reseed_on_permuted_brands :
  ∃ r, main Sample.env (Sample.opts 2 "b,a") Sample.clock1 Sample.serve_by_brand
         {| site_config := Absent;
            performers_json := Sample.performers_file [Sample.performer "1"; Sample.performer "2"];
            catalog_json := Sample.catalog_file ["a"; "b"] ["1"; "2"] |} = Done r ∧
       r_needReseed r = true ∧ r_warnings r = [brands_warning] ∧ r_outIds r = ["2"; "1"].
Proof. eexists. split; [vm_compute; reflexivity|]. done. Qed.

(** ** What the three steps of the assembly append *)

Lemma filter_Forall_id {A} (P : A → Prop) `{!∀ x, Decision (P x)} (l : list A) :
  Forall P l → filter P l = l.
Proof.
  induction 1 as [|x r Hx _ IH]; [done|]. by rewrite filter_cons_True, IH.
Qed.

Lemma distinct_filter (P : string → Prop) `{!∀ x, Decision (P x)} l :
  distinct (filter P l) = filter P (distinct l).
Proof.
  induction l as [|x r IH]; [done|]. simpl distinct.
  destruct (decide (P x)) as [Hx|Hx].
  - rewrite !filter_cons_True by done. simpl. f_equal.
    rewrite IH, !list_filter_filter. apply list_filter_iff. tauto.
  - rewrite !filter_cons_False by done. rewrite IH, list_filter_filter.
    apply list_filter_iff. intros y. split; [|tauto]. intros Hy. split; [done|].
    by intros ->.
Qed.

Lemma distinct_NoDup l : NoDup (distinct l).
Proof.
  induction l as [|x r IH]; simpl; constructor.
  - rewrite list_elem_of_filter. tauto.
  - by apply NoDup_filter.
Qed.

Lemma distinct_id l : NoDup l → distinct l = l.
Proof.
  induction 1 as [|x r Hx _ IH]; [done|]. simpl. rewrite IH. f_equal.
  apply filter_Forall_id. apply Forall_forall. by intros y Hy ->.
Qed.

Lemma elem_of_distinct x l : x ∈ distinct l ↔ x ∈ l.
Proof.
  induction l as [|y r IH]; [done|]. simpl.
  rewrite !elem_of_cons, list_elem_of_filter, IH.
  destruct (decide (x = y)); tauto.
Qed.

(** Step 1 keeps the first [max] previous identifiers that are still in the
    merged table, each once, in the order of the previous catalog. *)
Lemma keep_previous_spec max merged prevIds acc :
  Z.of_nat (length (outIds acc)) < Qceiling max →
  outIds (keep_previous max merged prevIds acc) =
  outIds acc ++
  take (Z.to_nat (Qceiling max) - length (outIds acc))
    (distinct (filter (fun id => JsMap.has id merged = true ∧ id ∉ used acc) prevIds)).
Proof.
  revert acc. induction prevIds as [|id r IH]; intros acc Hlt.
  { simpl. by rewrite take_nil, app_nil_r. }
  simpl keep_previous. destruct (JsMap.has id merged) eqn:Hhas; simpl negb; cbv iota.
  2:{ rewrite filter_cons_False by (rewrite Hhas; intros [? _]; done). by apply IH. }
  destruct (decide (id ∈ used acc)) as [Hin|Hin].
  { rewrite filter_cons_False by tauto. by apply IH. }
  rewrite filter_cons_True by done. simpl distinct.
  destruct (Z.to_nat (Qceiling max) - length (outIds acc))%nat as [|k] eqn:Hk; [lia|].
  simpl take. destruct (full max (push_id id acc)) eqn:Hfull.
  - apply full_true in Hfull. rewrite push_id_length in Hfull.
    assert (k = 0%nat) as -> by lia. by rewrite take_0.
  - apply full_false in Hfull. rewrite IH by done.
    simpl outIds. rewrite <- app_assoc. simpl. do 2 f_equal.
    replace (Z.to_nat (Qceiling max) - length (outIds acc ++ [id]))%nat with k
      by (rewrite length_app; simpl; lia).
    f_equal. rewrite <- distinct_filter, list_filter_filter. f_equal.
    apply list_filter_iff. intros x. simpl. rewrite elem_of_union, elem_of_singleton.
    split; [intros [? ?]; split_and!; tauto | intros (? & ? & ?); split; [done | tauto]].
Qed.

Lemma extends_refl S acc : extends S acc acc.
Proof. exists []. by rewrite app_nil_r. Qed.

Lemma extends_push S id acc acc' :
  id ∉ used acc → S id → extends S (push_id id acc) acc' → extends S acc acc'.
Proof.
  intros Hid HS (rest & Hout & Hrest & Hused). exists (id :: rest). split_and!.
  - rewrite Hout. simpl. by rewrite <- app_assoc.
  - constructor; [done|]. eapply Forall_impl; [exact Hrest|].
    simpl. intros x [Hx ?]. split; [set_solver | done].
  - simpl in Hused. set_solver.
Qed.

Lemma extends_trans (S1 S2 S : string → Prop) acc1 acc2 acc3 :
  (∀ x, S1 x → S x) → (∀ x, S2 x → S x) →
  extends S1 acc1 acc2 → extends S2 acc2 acc3 → extends S acc1 acc3.
Proof.
  intros H1 H2 (r1 & Ho1 & Hr1 & Hu1) (r2 & Ho2 & Hr2 & Hu2). exists (r1 ++ r2). split_and!.
  - by rewrite Ho2, Ho1, app_assoc.
  - apply Forall_app. split.
    + eapply Forall_impl; [exact Hr1|]. intros x [? ?]. auto.
    + eapply Forall_impl; [exact Hr2|]. intros x [Hx ?]. split; [set_solver | auto].
  - set_solver.
Qed.

Lemma keep_previous_used max merged prevIds acc :
  used acc ⊆ used (keep_previous max merged prevIds acc).
Proof.
  revert acc. induction prevIds as [|id r IH]; intros acc; simpl; [done|].
  destruct (JsMap.has id merged); simpl; [|by apply IH].
  destruct (decide (id ∈ used acc)); [by apply IH|].
  destruct (full max (push_id id acc)); [simpl; set_solver|].
  etrans; [|apply IH]. simpl. set_solver.
Qed.

(** Unless step 1 filled the catalog, it used every previous identifier that
    is in the merged table. *)
Lemma keep_previous_covers max merged prevIds acc id :
  full max (keep_previous max merged prevIds acc) = false →
  id ∈ prevIds → JsMap.has id merged = true →
  id ∈ used (keep_previous max merged prevIds acc).
Proof.
  revert acc. induction prevIds as [|id0 r IH]; intros acc Hfull Hin Hhas.
  { by apply elem_of_nil in Hin. }
  simpl in *. apply elem_of_cons in Hin as [->|Hin].
  - rewrite Hhas in *. simpl in *.
    destruct (decide (id0 ∈ used acc)) as [Hu|Hu]; [by apply keep_previous_used|].
    destruct (full max (push_id id0 acc)) eqn:Hf; [congruence|].
    apply keep_previous_used. simpl. set_solver.
  - destruct (JsMap.has id0 merged); simpl in *; [|by apply IH].
    destruct (decide (id0 ∈ used acc)); [by apply IH|].
    destruct (full max (push_id id0 acc)) eqn:Hf; [congruence | by apply IH].
Qed.

Lemma fill_fresh_extends max fresh acc :
  extends (fun x => x ≠ "" ∧ ∃ p, p ∈ fresh ∧ idFor p = x) acc (fill_fresh max fresh acc).
Proof.
  revert acc. induction fresh as [|p r IH]; intros acc; simpl; [apply extends_refl|].
  destruct (full max acc); [apply extends_refl|].
  assert (extends (fun x => x ≠ "" ∧ ∃ p0, p0 ∈ p :: r ∧ idFor p0 = x) acc
            (fill_fresh max r acc)) as Hskip.
  { eapply (extends_trans (fun _ => False) _ _ acc acc); [| |apply extends_refl|apply IH]; [done|].
    intros x (? & p0 & ? & ?). split; [done|]. exists p0. split; [by right | done]. }
  destruct (Js.nonempty (idFor p)) eqn:Hid; simpl; [|done].
  case_bool_decide as Hu; [done|]. apply nonempty_true in Hid.
  apply (extends_push _ (idFor p)); [done | split; [done|]; exists p; split; [left | done] |].
  eapply (extends_trans (fun _ => False) _ _ _ (push_id (idFor p) acc)); [| |apply extends_refl|apply IH];
    [done|]. intros x (? & p0 & ? & ?). split; [done|]. exists p0. split; [by right | done].
Qed.

Lemma fill_keys_extends max keys acc :
  extends (fun x => x ∈ keys) acc (fill_keys max keys acc).
Proof.
  revert acc. induction keys as [|id r IH]; intros acc; simpl; [apply extends_refl|].
  destruct (full max acc); [apply extends_refl|].
  destruct (decide (id ∈ used acc)).
  - eapply (extends_trans (fun _ => False) _ _ acc acc); [| |apply extends_refl|apply IH]; [done|].
    intros x ?. by right.
  - apply (extends_push _ id); [done | left |].
    eapply (extends_trans (fun _ => False) _ _ _ (push_id id acc)); [| |apply extends_refl|apply IH]; [done|].
    intros x ?. by right.
Qed.

Lemma fill_fresh_full max fresh acc : full max acc = true → fill_fresh max fresh acc = acc.
Proof. intros H. destruct fresh; simpl; [done | by rewrite H]. Qed.

Lemma fill_keys_full max keys acc : full max acc = true → fill_keys max keys acc = acc.
Proof. intros H. destruct keys; simpl; [done | by rewrite H]. Qed.

(** Unless the catalog is full after step 2, every fresh identifier is in it. *)
Lemma fill_fresh_covers max fresh acc p :
  full max (fill_fresh max fresh acc) = false →
  p ∈ fresh → idFor p ≠ "" → idFor p ∈ used (fill_fresh max fresh acc).
Proof.
  revert acc. induction fresh as [|p0 r IH]; intros acc Hfull Hin Hid.
  { by apply elem_of_nil in Hin. }
  pose proof (fill_fresh_extends max r) as Hext.
  simpl in *. destruct (full max acc) eqn:Hf; [congruence|].
  apply elem_of_cons in Hin as [->|Hin].
  - rewrite (proj2 (nonempty_true _) Hid) in *. simpl in *.
    case_bool_decide as Hu.
    + destruct (Hext acc) as (_ & _ & _ & Hsub). set_solver.
    + destruct (Hext (push_id (idFor p0) acc)) as (_ & _ & _ & Hsub). simpl in Hsub. set_solver.
  - destruct (negb (Js.nonempty (idFor p0)) || bool_decide (idFor p0 ∈ used acc));
      by apply IH.
Qed.

Lemma fill_keys_covers max keys acc id :
  full max (fill_keys max keys acc) = false →
  id ∈ keys → id ∈ used (fill_keys max keys acc).
Proof.
  revert acc. induction keys as [|id0 r IH]; intros acc Hfull Hin.
  { by apply elem_of_nil in Hin. }
  pose proof (fill_keys_extends max r) as Hext.
  simpl in *. destruct (full max acc) eqn:Hf; [congruence|].
  apply elem_of_cons in Hin as [->|Hin].
  - destruct (decide (id0 ∈ used acc)) as [Hu|Hu].
    + destruct (Hext acc) as (_ & _ & _ & Hsub). set_solver.
    + destruct (Hext (push_id id0 acc)) as (_ & _ & _ & Hsub). simpl in Hsub. set_solver.
  - destruct (decide (id0 ∈ used acc)); by apply IH.
Qed.

(** ** The merged table *)

Lemma Forall_set {V} (P : string * V → Prop) k v (m : list (string * V)) :
  Forall P m → P (k, v) → Forall P (JsMap.set k v m).
Proof.
  intros Hm Hkv. apply Forall_forall. intros [k' v'] [->|Hin]%elem_of_set; [done|].
  by eapply Forall_forall in Hm.
Qed.

Lemma build_prevMap_keyed prevArr prevMap :
  keyed prevMap → keyed (build_prevMap prevArr prevMap).
Proof.
  revert prevMap. induction prevArr as [|p r IH]; intros prevMap Hm; simpl; [done|].
  apply IH. destruct (Js.nonempty (idFor p)) eqn:Hid; simpl; [|done].
  destruct (JsMap.has (idFor p) prevMap); simpl; [done|].
  apply Forall_set; [done|]. split; [done | by apply nonempty_true].
Qed.

Lemma build_prevMap_NoDup prevArr (prevMap : list (string * json)) :
  NoDup (JsMap.keys prevMap) → NoDup (JsMap.keys (build_prevMap prevArr prevMap)).
Proof.
  revert prevMap. induction prevArr as [|p r IH]; intros prevMap Hm; simpl; [done|].
  apply IH. destruct (_ && _); [by apply NoDup_keys_set | done].
Qed.

Lemma merge_fresh_keyed fresh merged : keyed merged → keyed (merge_fresh fresh merged).
Proof.
  revert merged. induction fresh as [|p r IH]; intros merged Hm; simpl; [done|].
  apply IH. destruct (Js.nonempty (idFor p)) eqn:Hid; simpl; [|done].
  apply Forall_set; [done|]. split; [done | by apply nonempty_true].
Qed.

Lemma merge_fresh_NoDup fresh (merged : list (string * json)) :
  NoDup (JsMap.keys merged) → NoDup (JsMap.keys (merge_fresh fresh merged)).
Proof.
  revert merged. induction fresh as [|p r IH]; intros merged Hm; simpl; [done|].
  apply IH. destruct (negb _); [done | by apply NoDup_keys_set].
Qed.

Lemma merge_fresh_has_mono fresh merged k :
  JsMap.has k merged = true → JsMap.has k (merge_fresh fresh merged) = true.
Proof.
  revert merged. induction fresh as [|p r IH]; intros merged Hk; simpl; [done|].
  apply IH. destruct (negb _); [done|]. rewrite has_set, Hk. apply orb_true_r.
Qed.

Lemma merge_fresh_has_fresh fresh merged p :
  p ∈ fresh → idFor p ≠ "" → JsMap.has (idFor p) (merge_fresh fresh merged) = true.
Proof.
  revert merged. induction fresh as [|p0 r IH]; intros merged Hin Hid.
  { by apply elem_of_nil in Hin. }
  simpl. apply elem_of_cons in Hin as [->|Hin]; [|by apply IH].
  apply merge_fresh_has_mono. rewrite (proj2 (nonempty_true _) Hid). simpl.
  rewrite has_set. by rewrite bool_decide_eq_true_2.
Qed.


Lemma prevMap_of_keyed d : keyed (prevMap_of d).
Proof. apply build_prevMap_keyed. constructor. Qed.

Lemma keyed_has_nonempty merged k : keyed merged → JsMap.has k merged = true → k ≠ "".
Proof.
  intros Hm Hk. apply has_get in Hk as [v Hv]. apply get_Some_elem in Hv.
  eapply Forall_forall in Hm; [|exact Hv]. by destruct Hm.
Qed.


(** ** Stable order without reseed *)

(** Without reseed the catalog starts with the first [max] previous
    identifiers still in the merged table, and continues with identifiers of
    the merged table that the previous catalog did not hold. *)
Lemma build_catalog_stable max prevIds fresh merged :
  1 ≤ Qceiling max →
  (∀ p, p ∈ fresh → idFor p ≠ "" → JsMap.has (idFor p) merged = true) →
  ∃ rest,
    outIds (build_catalog false max prevIds fresh merged) =
    take (Z.to_nat (Qceiling max))
      (distinct (filter (fun id => JsMap.has id merged = true) prevIds)) ++ rest ∧
    Forall (fun x => JsMap.has x merged = true ∧ x ∉ prevIds) rest.
Proof.
  intros Hmax Hfresh. unfold build_catalog. rewrite lt_ceiling. simpl negb. cbv iota.
  set (acc0 := {| outIds := []; used := ∅ |}).
  set (acc1 := keep_previous max merged prevIds acc0).
  assert (outIds acc1 =
          take (Z.to_nat (Qceiling max))
            (distinct (filter (fun id => JsMap.has id merged = true) prevIds))) as H1.
  { unfold acc1. rewrite keep_previous_spec by (simpl; lia). simpl.
    rewrite Nat.sub_0_r. do 2 f_equal. apply list_filter_iff. intros x.
    split; [tauto | intros ?; split; [done | apply not_elem_of_empty]]. }
  destruct (full max acc1) eqn:Hfull.
  - rewrite fill_fresh_full by done. apply full_true in Hfull.
    rewrite (proj2 (Z.ltb_ge _ _)) by lia.
    exists []. by rewrite app_nil_r.
  - assert (extends (fun x => JsMap.has x merged = true) acc1
              (if Z.of_nat (length (outIds (fill_fresh max fresh acc1))) <? Qceiling max
               then fill_keys max (JsMap.keys merged) (fill_fresh max fresh acc1)
               else fill_fresh max fresh acc1)) as (rest & Hout & Hrest & _).
    { destruct (_ <? Qceiling max).
      - eapply extends_trans; [| |apply fill_fresh_extends|apply fill_keys_extends].
        + intros x (? & p & ? & <-). by apply Hfresh.
        + intros x ?. by apply has_true.
      - eapply (extends_trans _ (fun _ => False));
          [| |apply fill_fresh_extends|apply extends_refl].
        + intros x (? & p & ? & <-). by apply Hfresh.
        + done. }
    exists rest. rewrite Hout, H1. split; [done|].
    eapply Forall_impl; [exact Hrest|]. intros x [Hx Hhas]. split; [done|].
    intros Hin. apply Hx. by apply keep_previous_covers.
Qed.

(** C2, as amended. In a run without the reseed flag, with a previous catalog
    and an unchanged brand list, the new catalog consists of the first [max]
    of the identifiers that are both in the previous catalog and in the merged
    table, each once and in the order of the previous catalog, followed only
    by identifiers that were not in the previous catalog. (For a [max] that
    is not whole, the first [max] rounded up.) *)
Theorem C2_order_stable e o c up d r :
  main e o c up d = Done r →
  opt_reseed o = false →
  is_Some (readJSONIfExists (catalog_json d)) →
  r_brandsChanged r = false →
  ∃ rest,
    r_outIds r =
    take (Z.to_nat (Qceiling (r_max r)))
      (distinct (filter (fun id => JsMap.has id (r_merged r) = true) (r_prevIds r))) ++ rest ∧
    Forall (fun x => x ∉ r_prevIds r) rest.
Proof.
  intros (st & _ & ->)%main_Done Hflag _. cbn [reconcile r_needReseed r_prevIds
    r_brandsChanged r_prevBrands r_brandList r_outIds r_max r_fresh r_merged].
  intros ->. rewrite Hflag. unfold needReseed_of. simpl.
  destruct (prevIds_of (readJSONIfExists (catalog_json d))) as [|id0 prevIds] eqn:Hprev.
  { simpl. rewrite take_nil. eexists. split; [reflexivity|].
    apply Forall_forall. intros x _. apply not_elem_of_nil. }
  simpl "||".
  destruct (build_catalog_stable (effective_max o) (id0 :: prevIds)
              (collect_fresh (brandList_of o d) st)
              (merge_fresh (collect_fresh (brandList_of o d) st) (prevMap_of d)))
    as (rest & Hout & Hrest).
  - apply effective_max_pos.
  - intros p Hp Hid. by apply merge_fresh_has_fresh.
  - exists rest. split; [done|]. eapply Forall_impl; [exact Hrest|]. by intros x [_ ?].
Qed.

Lemma C2_witness :
  ∃ r, main Sample.env (Sample.opts 3 "x") Sample.clock1
         (Sample.serve [Sample.performer "4"]) Sample.disk_123 = Done r ∧
       r_outIds r = ["1"; "3"; "4"] ∧
       ∃ rest,
         r_outIds r =
         take (Z.to_nat (Qceiling (r_max r)))
           (distinct (filter (fun id => JsMap.has id (r_merged r) = true) (r_prevIds r)))
         ++ rest ∧
         Forall (fun x => x ∉ r_prevIds r) rest.
Proof.
  eexists. split; [vm_compute; reflexivity|]. split; [reflexivity|].
  apply (C2_order_stable Sample.env (Sample.opts 3 "x") Sample.clock1
           (Sample.serve [Sample.performer "4"]) Sample.disk_123).
  - vm_compute. reflexivity.
  - reflexivity.
  - vm_compute. eauto.
  - vm_compute. reflexivity.
Defined.

(** The previous catalog holds 1, 2, 3, all still in the table, and [max] is
    2: identifier 3 is in the previous catalog and in the merged table, yet
    not in the new catalog. *)
Lemma C2_counterexample :
  ∃ r, main Sample.env (Sample.opts 2 "x") Sample.clock1 (Sample.serve [])
         Sample.disk_full = Done r ∧
       opt_reseed (Sample.opts 2 "x") = false ∧
       is_Some (readJSONIfExists (catalog_json Sample.disk_full)) ∧
       r_brandsChanged r = false ∧
       "3" ∈ r_prevIds r ∧ JsMap.has "3" (r_merged r) = true ∧ "3" ∉ r_outIds r.
Proof.
  eexists. split; [vm_compute; reflexivity|]. split_and!; try done; compute_done.
Qed.

(** ** The scenario of a lost identifier *)

Lemma build_catalog_scenario max merged p :
  Qceiling max = 3 →
  JsMap.has "1" merged = true → JsMap.has "2" merged = false →
  JsMap.has "3" merged = true → idFor p = "4" →
  outIds (build_catalog false max ["1"; "2"; "3"] [p] merged) = ["1"; "3"; "4"].
Proof.
  intros Hmax H1 H2 H3 Hp. unfold build_catalog. rewrite lt_ceiling. simpl negb. cbv iota.
  set (acc1 := keep_previous max merged ["1"; "2"; "3"] {| outIds := []; used := ∅ |}).
  assert (outIds acc1 = ["1"; "3"]) as Hout.
  { unfold acc1. rewrite keep_previous_spec by (simpl; lia). rewrite Hmax. simpl outIds.
    rewrite filter_cons_True by (split; [done | apply not_elem_of_empty]).
    rewrite filter_cons_False by (rewrite H2; intros [? _]; done).
    rewrite filter_cons_True by (split; [done | apply not_elem_of_empty]).
    reflexivity. }
  assert (acc_ok acc1) as [_ Hused] by apply keep_previous_ok, acc_ok_empty.
  assert ("4" ∉ used acc1) as H4.
  { rewrite Hused, Hout. compute_done. }
  cbn [fill_fresh]. rewrite (proj2 (full_false max acc1)) by (rewrite Hout, Hmax; simpl; lia).
  rewrite Hp. simpl. rewrite (bool_decide_eq_false_2 _ H4). simpl. rewrite Hout, Hmax.
  change (Z.of_nat (length (["1"; "3"] ++ ["4"])) <? 3) with false.
  simpl. by rewrite Hout.
Qed.

(** C6. The previous catalog holds 1, 2, 3 and records the brand list [x] of
    the run; [max] is 3 and the flag is not set; the merged table holds 1 and
    3 but no longer 2; the fetch returned one record, of identifier 4. The
    new catalog is 1, 3, 4. *)
Theorem C6_lost_identifier e o c up d r :
  main e o c up d = Done r →
  opt_reseed o = false → (r_max r == 3)%Q →
  r_prevIds r = ["1"; "2"; "3"] → r_prevBrands r = ["x"] → r_brandList r = ["x"] →
  JsMap.has "1" (r_merged r) = true →
  JsMap.has "2" (r_merged r) = false →
  JsMap.has "3" (r_merged r) = true →
  idFor <$> r_fresh r = ["4"] →
  r_outIds r = ["1"; "3"; "4"].
Proof.
  intros (st & _ & ->)%main_Done. cbn [reconcile r_needReseed r_prevIds
    r_brandsChanged r_prevBrands r_brandList r_outIds r_max r_fresh r_merged].
  intros -> Hmax -> -> -> H1 H2 H3 Hfresh.
  destruct (collect_fresh ["x"] st) as [|p [|p' fresh]] eqn:Hst; try done.
  injection Hfresh as Hp. apply build_catalog_scenario; try done.
  by rewrite (Qceiling_comp _ _ Hmax).
Qed.

Lemma C6_witness :
  ∃ r, main Sample.env (Sample.opts 3 "x") Sample.clock1
         (Sample.serve [Sample.performer "4"]) Sample.disk_123 = Done r ∧
       r_outIds r = ["1"; "3"; "4"].
Proof.
  eexists. split; [vm_compute; reflexivity|].
  apply (C6_lost_identifier Sample.env (Sample.opts 3 "x") Sample.clock1
           (Sample.serve [Sample.performer "4"]) Sample.disk_123);
    vm_compute; reflexivity.
Defined.

(** ** Pages: failures, termination and the cap *)

Lemma take_page_logs brand want arr st :
  warned (take_page brand want arr st) = warned st ∧
  requested (take_page brand want arr st) = requested st.
Proof.
  revert st. induction arr as [|p r IH]; intros st; simpl; [done|].
  destruct (negb _); [apply IH|].
  destruct (decide _); [apply IH|].
  destruct (_ <=? _); [done|]. apply (IH (accept brand (idFor p) p st)).
Qed.

(** The loop is left at once when the quota is met. *)
Lemma brand_loop_quota_met fuel up mk brand want page st :
  want ≤ Z.of_nat (length (got brand st)) →
  brand_loop fuel up mk brand want page st = Done st.
Proof.
  intros Hmet. destruct fuel; simpl; by rewrite (proj2 (Z.ltb_ge _ _) Hmet).
Qed.

(** The loop is left after a page without records, with nothing accumulated. *)
Lemma brand_loop_empty_page fuel up mk brand want page st w :
  Z.of_nat (length (got brand st)) < want →
  fetchPage up (mk page) = Done ([], w) →
  brand_loop (S fuel) up mk brand want page st = Done (logged (mk page) w st).
Proof.
  intros Hlt Hpage. simpl. by rewrite (proj2 (Z.ltb_lt _ _) Hlt), Hpage.
Qed.

(** The loop goes on to the next page otherwise, unless the cap is passed. *)
Lemma brand_loop_next_page fuel up mk brand want page st p arr w :
  Z.of_nat (length (got brand st)) < want →
  fetchPage up (mk page) = Done (p :: arr, w) →
  brand_loop (S fuel) up mk brand want page st =
  if take_page_throws brand want (p :: arr) (logged (mk page) w st) then Failed TypeError
  else
    let st2 := take_page brand want (p :: arr) (logged (mk page) w st) in
    if page_cap <? page + 1 then Done st2
    else brand_loop fuel up mk brand want (page + 1) st2.
Proof.
  intros Hlt Hpage. cbn [brand_loop].
  rewrite (proj2 (Z.ltb_lt _ _) Hlt), Hpage. reflexivity.
Qed.

(** More fuel than the pages left before the cap changes nothing. *)
Lemma brand_loop_fuel fuel fuel' up mk brand want page st :
  page ≤ page_cap → page_cap + 1 - page ≤ Z.of_nat fuel → (fuel ≤ fuel')%nat →
  brand_loop fuel' up mk brand want page st = brand_loop fuel up mk brand want page st.
Proof.
  unfold page_cap. revert fuel' page st.
  induction fuel as [|fuel IH]; intros fuel' page st Hpage Hfuel Hle; [simpl in *; lia|].
  destruct fuel' as [|fuel']; [lia|]. cbn [brand_loop].
  destruct (_ <? want); [|done].
  destruct (fetchPage up (mk page)) as [[arr w]|f]; simpl; [|done].
  destruct arr as [|p arr]; cbv beta iota; [done|].
  destruct (take_page_throws _ _ _ _) eqn:Hthrows; [done|].
  destruct (page_cap <? page + 1) eqn:Hcap; [done|].
  apply Z.ltb_ge in Hcap. unfold page_cap in Hcap. apply IH; lia.
Qed.

(** The requests of one loop: consecutive pages from the first one, never
    beyond the cap; the loop is left with the quota met, or after a page
    without records, or after the page of the cap. *)
Lemma brand_loop_trace fuel up mk brand want page st st' :
  brand_loop fuel up mk brand want page st = Done st' →
  page ≤ page_cap →
  ∃ k, 0 ≤ k ∧ page + k ≤ page_cap + 1 ∧
       requested st' = requested st ++ (mk <$> seqZ page k) ∧
       (want ≤ Z.of_nat (length (got brand st')) ∨
        (0 < k ∧ ∃ w, fetchPage up (mk (page + k - 1)) = Done ([], w)) ∨
        page + k = page_cap + 1).
Proof.
  unfold page_cap. revert page st. induction fuel as [|fuel IH]; intros page st.
  - simpl. destruct (_ <? want) eqn:Hlt; [done|]. intros [= <-] Hpage.
    apply Z.ltb_ge in Hlt. exists 0. rewrite seqZ_nil, app_nil_r by done.
    split_and!; [lia | lia | done | by left].
  - cbn [brand_loop]. destruct (_ <? want) eqn:Hlt.
    2:{ intros [= <-] Hpage. apply Z.ltb_ge in Hlt. exists 0.
        rewrite seqZ_nil, app_nil_r by done. split_and!; [lia | lia | done | by left]. }
    destruct (fetchPage up (mk page)) as [[arr w]|f] eqn:Hfetch; simpl; [|done].
    destruct arr as [|p arr]; cbv beta iota.
    + intros [= <-] Hpage. exists 1. split_and!; [lia | lia | done |].
      right. left. split; [lia|]. exists w. by replace (page + 1 - 1) with page by lia.
    + pose proof (take_page_logs brand want (p :: arr) (logged (mk page) w st)) as [_ Hreq].
      destruct (take_page_throws _ _ _ _) eqn:Hthrows; [done|].
      destruct (page_cap <? page + 1) eqn:Hcap.
      * intros Hrun Hpage. apply Z.ltb_lt in Hcap. unfold page_cap in Hcap.
        assert (st' = take_page brand want (p :: arr) (logged (mk page) w st)) as ->
          by congruence.
        exists 1. split_and!; [lia | lia | by rewrite Hreq | right; right; lia].
      * intros Hrun Hpage. apply Z.ltb_ge in Hcap. unfold page_cap in Hcap.
        apply IH in Hrun as (k & Hk & Hcapk & Hrequested & Hstop); [|lia].
        exists (k + 1). split_and!; [lia | lia | |].
        -- rewrite Hrequested, Hreq. simpl. rewrite <- app_assoc. f_equal.
           rewrite (seqZ_cons page (k + 1)) by lia.
           replace (Z.succ page) with (page + 1) by lia.
           by replace (Z.pred (k + 1)) with k by lia.
        -- destruct Hstop as [?|[[? [w' Hw']]|?]]; [by left | | right; right; lia].
           right. left. split; [lia|]. exists w'.
           by replace (page + (k + 1) - 1) with (page + 1 + k - 1) by lia.
Qed.





(** Every request of the fetch loops asks for a page from 1 to the cap. *)
Lemma fetch_brands_pages up mk quota brands st st' :
  (∀ b p, rq_page (mk b p) = p) →
  Forall (fun rq => 1 ≤ rq_page rq ≤ page_cap) (requested st) →
  fetch_brands up mk quota brands st = Done st' →
  Forall (fun rq => 1 ≤ rq_page rq ≤ page_cap) (requested st').
Proof.
  intros Hmk. revert st. induction brands as [|brand r IH]; intros st Hst.
  - by intros [= <-].
  - rewrite fetch_brands_cons. destruct (want_of quota brand <=? 0); [by apply IH|].
    destruct (brand_loop _ up (mk brand) brand _ 1 st) as [st1|f] eqn:Hloop; [|done].
    apply IH. apply brand_loop_trace in Hloop as (k & Hk & Hcap & -> & _); [|done].
    apply Forall_app. split; [done|]. apply Forall_fmap, Forall_seqZ.
    intros p Hp. simpl. rewrite Hmk. lia.
Qed.

(** ** What is written *)


Lemma keep_previous_in_merged max merged prevIds acc :
  Forall (fun x => JsMap.has x merged = true) (outIds acc) →
  Forall (fun x => JsMap.has x merged = true) (outIds (keep_previous max merged prevIds acc)).
Proof.
  revert acc. induction prevIds as [|id r IH]; intros acc Hacc; simpl; [done|].
  destruct (JsMap.has id merged) eqn:Hhas; simpl; [|by apply IH].
  destruct (decide (id ∈ used acc)); [by apply IH|].
  assert (Forall (fun x => JsMap.has x merged = true) (outIds (push_id id acc))).
  { simpl. apply Forall_app. split; [done | by constructor]. }
  destruct (full max (push_id id acc)); [done | by apply IH].
Qed.

Lemma extends_Forall (S : string → Prop) acc acc' :
  extends S acc acc' → Forall S (outIds acc) → Forall S (outIds acc').
Proof.
  intros (rest & -> & Hrest & _) Hacc. apply Forall_app. split; [done|].
  eapply Forall_impl; [exact Hrest|]. by intros x [_ ?].
Qed.

(** Every identifier of the catalog is a key of the merged table. *)
Lemma build_catalog_in_merged needReseed max prevIds fresh merged :
  (∀ p, p ∈ fresh → idFor p ≠ "" → JsMap.has (idFor p) merged = true) →
  Forall (fun x => JsMap.has x merged = true)
    (outIds (build_catalog needReseed max prevIds fresh merged)).
Proof.
  intros Hfresh. unfold build_catalog. rewrite lt_ceiling.
  set (acc1 := if negb needReseed
               then keep_previous max merged prevIds {| outIds := []; used := ∅ |}
               else {| outIds := []; used := ∅ |}).
  assert (Forall (fun x => JsMap.has x merged = true) (outIds acc1)) as H1.
  { unfold acc1. destruct needReseed; simpl; [constructor|].
    apply keep_previous_in_merged. constructor. }
  assert (Forall (fun x => JsMap.has x merged = true)
            (outIds (fill_fresh max fresh acc1))) as H2.
  { eapply extends_Forall; [|exact H1].
    eapply (extends_trans _ (fun _ => False));
      [| |apply fill_fresh_extends|apply extends_refl]; [|done].
    intros x (? & p & ? & <-). by apply Hfresh. }
  destruct (_ <? Qceiling max); [|done].
  eapply extends_Forall; [|exact H2].
  eapply (extends_trans (fun _ => False)); [| |apply extends_refl|apply fill_keys_extends];
    [done|]. intros x ?. by apply has_true.
Qed.



(** The state of the run that the statements below rest on. *)
Lemma reconcile_merged o c d st :
  let r := reconcile o c d st in
  keyed (r_merged r) ∧ NoDup (JsMap.keys (r_merged r)) ∧
  Forall (fun x => JsMap.has x (r_merged r) = true) (r_outIds r).
Proof.
  cbn [reconcile r_merged r_outIds]. split_and!.
  - apply merge_fresh_keyed, prevMap_of_keyed.
  - apply merge_fresh_NoDup, build_prevMap_NoDup. constructor.
  - apply build_catalog_in_merged. intros p Hp Hid. by apply merge_fresh_has_fresh.
Qed.



(** ** Records without identifier *)

Lemma empty_fresh_values brandList b l : (b, l) ∈ empty_fresh brandList → l = [].
Proof.
  unfold empty_fresh.
  assert (∀ m : list (string * list json),
            (∀ b l, (b, l) ∈ m → l = []) →
            ∀ b l, (b, l) ∈ foldl (fun m b => JsMap.set b [] m) m brandList → l = []) as H.
  { induction brandList as [|b0 r IH]; intros m Hm b' l'; simpl; [apply Hm|].
    apply IH. intros b1 l1 [Heq|Hin]%elem_of_set; [congruence | by eapply Hm]. }
  apply H. by intros ? ? ?%elem_of_nil.
Qed.

(** The records accumulated by the fetch loops all have an identifier. *)
Lemma fetch_all_fresh e o up brandList st :
  fetch_all e o up brandList = Done st →
  Forall (fun p => idFor p ≠ "") (collect_fresh brandList st).
Proof.
  intros Hrun.
  assert (∀ b l, (b, l) ∈ freshByBrand st → Forall (fun p => idFor p ≠ "") l) as Hst.
  { revert Hrun. unfold fetch_all.
    apply (fetch_brands_inv up (fun st =>
      ∀ b l, (b, l) ∈ freshByBrand st → Forall (fun p => idFor p ≠ "") l)).
    - intros brand p st0 Hst0 Hid _ b l. unfold accept. simpl.
      destruct (JsMap.get brand (freshByBrand st0)) as [l0|] eqn:Hget; [|apply Hst0].
      intros [Heq|Hin]%elem_of_set; [|by eapply Hst0].
      injection Heq as -> ->. apply Forall_app. split; [|by constructor].
      eapply Hst0. by apply get_Some_elem.
    - intros rq w st0 Hst0 _. exact Hst0.
    - simpl. intros b l ->%empty_fresh_values. constructor. }
  unfold collect_fresh. apply Forall_concat, Forall_fmap, Forall_forall.
  intros b _. simpl. unfold got.
  destruct (JsMap.get b (freshByBrand st)) as [l|] eqn:Hget; [|constructor].
  eapply Hst. by apply get_Some_elem.
Qed.



(** ** Brand names are normalised once and for all *)

Lemma lower_char_idem c : Js.lower_char (Js.lower_char c) = Js.lower_char c.
Proof. destruct c as [[] [] [] [] [] [] [] []]; reflexivity. Qed.

Lemma is_white_lower_char c : Js.is_white (Js.lower_char c) = Js.is_white c.
Proof. destruct c as [[] [] [] [] [] [] [] []]; reflexivity. Qed.

Lemma toLowerCase_idem s : Js.toLowerCase (Js.toLowerCase s) = Js.toLowerCase s.
Proof. induction s as [|c r IH]; simpl; [done|]. by rewrite lower_char_idem, IH. Qed.

Lemma toLowerCase_trimStart s :
  Js.toLowerCase (Js.trimStart s) = Js.trimStart (Js.toLowerCase s).
Proof.
  induction s as [|c r IH]; simpl; [done|]. rewrite is_white_lower_char.
  by destruct (Js.is_white c).
Qed.

Lemma toLowerCase_trimEnd s :
  Js.toLowerCase (Js.trimEnd s) = Js.trimEnd (Js.toLowerCase s).
Proof.
  induction s as [|c r IH]; simpl; [done|]. rewrite <- IH, is_white_lower_char.
  destruct (Js.trimEnd r); simpl; [by destruct (Js.is_white c) | done].
Qed.

Lemma trimEnd_idem s : Js.trimEnd (Js.trimEnd s) = Js.trimEnd s.
Proof.
  induction s as [|c r IH]; simpl; [done|].
  destruct (Js.trimEnd r) as [|c' r'] eqn:Hr.
  - destruct (Js.is_white c) eqn:Hc; simpl; [done | by rewrite Hc].
  - change (Js.trimEnd (String c (String c' r'))) with
      (match Js.trimEnd (String c' r') with
       | "" => if Js.is_white c then "" else String c ""
       | r0 => String c r0
       end).
    by rewrite IH.
Qed.

Lemma trimStart_trimEnd s :
  Js.trimStart s = s → Js.trimStart (Js.trimEnd s) = Js.trimEnd s.
Proof.
  destruct s as [|c r]; simpl; [done|].
  destruct (Js.is_white c) eqn:Hc.
  - intros Heq. exfalso.
    assert (∀ s, String.length (Js.trimStart s) ≤ String.length s)%nat as Hlen.
    { clear. induction s as [|c r IH]; simpl; [done|]. destruct (Js.is_white c); simpl; lia. }
    pose proof (Hlen r) as Hr. rewrite Heq in Hr. simpl in Hr. lia.
  - intros _. destruct (Js.trimEnd r); simpl; by rewrite Hc.
Qed.

Lemma trimStart_idem s : Js.trimStart (Js.trimStart s) = Js.trimStart s.
Proof.
  induction s as [|c r IH]; simpl; [done|].
  destruct (Js.is_white c) eqn:Hc; [done|]. simpl. by rewrite Hc.
Qed.

Lemma trim_idem s : Js.trim (Js.trim s) = Js.trim s.
Proof.
  unfold Js.trim. rewrite (trimStart_trimEnd (Js.trimStart s)) by apply trimStart_idem.
  apply trimEnd_idem.
Qed.

Lemma trim_toLowerCase_fixed s :
  Js.trim (Js.toLowerCase (Js.trim (Js.toLowerCase s))) = Js.trim (Js.toLowerCase s).
Proof.
  unfold Js.trim at 2. rewrite toLowerCase_trimEnd, toLowerCase_trimStart, toLowerCase_idem.
  apply trim_idem.
Qed.

Lemma truthy_JStr s : s ≠ "" → Js.truthy (Some (JStr s)) = true.
Proof. by destruct s. Qed.

(** A non-empty result of [normalizeBrand] is left unchanged by it. *)
Lemma normalizeBrand_fixed v :
  normalizeBrand v ≠ "" →
  normalizeBrand (Some (JStr (normalizeBrand v))) = normalizeBrand v.
Proof.
  unfold normalizeBrand at 1 3 4.
  set (b := Js.trim (Js.toLowerCase (Js.String_opt (Js.or v (Some (JStr "")))))).
  assert (Js.trim (Js.toLowerCase b) = b) as Hb by apply trim_toLowerCase_fixed.
  destruct (Js.nonempty b) eqn:Hne; simpl; [|done].
  destruct (Js.includes "bonga" b) eqn:Hbonga; [intros _; by vm_compute|].
  destruct (Js.includes "royal" b) eqn:Hroyal; [intros _; by vm_compute|].
  intros Hnz. unfold normalizeBrand, Js.or. rewrite truthy_JStr by done. simpl.
  by rewrite Hb, Hne, Hbonga, Hroyal.
Qed.

Lemma normalised_filter (l : list (option json)) :
  normalised (filter (fun b => Js.nonempty b = true) (normalizeBrand <$> l)).
Proof.
  apply Forall_forall. intros b [Hb Hin]%list_elem_of_filter.
  apply nonempty_true in Hb. apply list_elem_of_fmap in Hin as (v & -> & _).
  split; [by apply normalizeBrand_fixed | done].
Qed.

Lemma brandList_of_normalised o d : normalised (brandList_of o d).
Proof.
  unfold brandList_of.
  assert (normalised (splitBrands (opt_brands o))) as Hsplit.
  { unfold splitBrands. rewrite (list_fmap_compose (fun x => Some (JStr x)) normalizeBrand).
    apply normalised_filter. }
  destruct (splitBrands (opt_brands o)) eqn:Heq; [|done].
  unfold getDefaultBrandsFromConfig.
  set (fromCfg := Js.array_or [] _).
  pose proof (normalised_filter (Some <$> fromCfg)) as Hcfg.
  rewrite <- list_fmap_compose in Hcfg.
  change (normalizeBrand ∘ Some) with (fun x : json => normalizeBrand (Some x)) in Hcfg.
  destruct (filter _ _); [|done].
  unfold default_brands. repeat constructor; by vm_compute.
Qed.

Lemma brandList_of_nonempty o d : brandList_of o d ≠ [].
Proof.
  unfold brandList_of. destruct (splitBrands (opt_brands o)); [|done].
  unfold getDefaultBrandsFromConfig. by destruct (filter _ _).
Qed.


Lemma prevIds_of_written c brandList max ids :
  Forall (fun x => x ≠ "") ids →
  prevIds_of (Some (catalog_object c brandList max ids)) = ids.
Proof.
  intros Hids. unfold prevIds_of, catalog_object. simpl.
  rewrite <- list_fmap_compose.
  induction Hids as [|x r Hx _ IH]; [done|].
  rewrite fmap_cons. simpl.
  rewrite filter_cons_True by (by apply nonempty_true). by rewrite IH.
Qed.

(** ** Running twice *)

Lemma arraysEqual_strings a b : arraysEqual (JStr <$> a) (JStr <$> b) = true ↔ a = b.
Proof.
  unfold arraysEqual. rewrite !length_fmap.
  destruct (length a =? length b)%nat eqn:Hlen; simpl.
  - apply Nat.eqb_eq in Hlen. revert b Hlen.
    induction a as [|x a IH]; intros [|y b] Hlen; simpl in *; try done.
    destruct (String.eqb x y) eqn:Hxy; simpl.
    + apply String.eqb_eq in Hxy as ->. rewrite IH by lia.
      split; [by intros -> | by intros [= ->]].
    + apply String.eqb_neq in Hxy. split; [done | by intros [= ? ?]].
  - apply Nat.eqb_neq in Hlen. split; [done | by intros ->].
Qed.





(** A catalog that came out short of [max] holds every fresh identifier and
    every key of the merged table. *)
Lemma build_catalog_short needReseed max prevIds fresh merged :
  let acc := build_catalog needReseed max prevIds fresh merged in
  Z.of_nat (length (outIds acc)) < Qceiling max →
  (∀ p, p ∈ fresh → idFor p ≠ "" → idFor p ∈ outIds acc) ∧
  (∀ k, JsMap.has k merged = true → k ∈ outIds acc).
Proof.
  intros acc Hshort.
  destruct (build_catalog_ok needReseed max prevIds fresh merged) as [_ Hused].
  fold acc in Hused. unfold acc, build_catalog in *. rewrite lt_ceiling in *.
  set (acc1 := if negb needReseed
               then keep_previous max merged prevIds {| outIds := []; used := ∅ |}
               else {| outIds := []; used := ∅ |}) in *.
  set (acc2 := fill_fresh max fresh acc1) in *.
  destruct (Z.of_nat (length (outIds acc2)) <? Qceiling max) eqn:Hlt;
    [apply Z.ltb_lt in Hlt | apply Z.ltb_ge in Hlt; lia].
  destruct (fill_keys_extends max (JsMap.keys merged) acc2) as (_ & _ & _ & Hsub).
  split.
  - intros p Hp Hid. apply Hused, Hsub.
    apply fill_fresh_covers; [by apply full_false | done..].
  - intros k Hk. apply Hused. apply fill_keys_covers; [by apply full_false|].
    by apply has_true.
Qed.






Lemma brandList_of_disk o d d' :
  site_config d' = site_config d → brandList_of o d' = brandList_of o d.
Proof.
  intros Hcfg. unfold brandList_of, getDefaultBrandsFromConfig. by rewrite Hcfg.
Qed.

(** * Further properties of the script *)

(** ** The assembly as one pass *)

Lemma fill_keys_app max a b acc :
  fill_keys max (a ++ b) acc = fill_keys max b (fill_keys max a acc).
Proof.
  revert acc. induction a as [|x a IH]; intros acc; [done|].
  simpl. destruct (full max acc) eqn:Hfull; [by rewrite fill_keys_full|].
  destruct (decide (x ∈ used acc)); apply IH.
Qed.

Lemma fill_fresh_as_keys max fresh acc :
  fill_fresh max fresh acc =
  fill_keys max (filter (fun x => x ≠ "") (idFor <$> fresh)) acc.
Proof.
  revert acc. induction fresh as [|p r IH]; intros acc; [done|].
  rewrite fmap_cons. simpl fill_fresh.
  destruct (full max acc) eqn:Hfull; [by rewrite fill_keys_full|].
  destruct (Js.nonempty (idFor p)) eqn:Hid; simpl.
  - apply nonempty_true in Hid. rewrite filter_cons_True by done. simpl. rewrite Hfull.
    case_bool_decide; [rewrite decide_True by done | rewrite decide_False by done]; apply IH.
  - apply nonempty_false in Hid. rewrite filter_cons_False by (intros ?; done). apply IH.
Qed.

Lemma keep_previous_as_keys max merged prevIds acc :
  full max acc = false →
  keep_previous max merged prevIds acc =
  fill_keys max (filter (fun id => JsMap.has id merged = true) prevIds) acc.
Proof.
  revert acc. induction prevIds as [|id r IH]; intros acc Hfull; [done|].
  simpl keep_previous. destruct (JsMap.has id merged) eqn:Hhas; simpl negb; cbv iota.
  - rewrite filter_cons_True by done. simpl. rewrite Hfull.
    destruct (decide (id ∈ used acc)); [by apply IH|].
    destruct (full max (push_id id acc)) eqn:Hfull'; [by rewrite fill_keys_full | by apply IH].
  - rewrite filter_cons_False by (rewrite Hhas; done). by apply IH.
Qed.

Lemma fill_keys_spec max keys acc :
  outIds (fill_keys max keys acc) =
  outIds acc ++
  take (Z.to_nat (Qceiling max) - length (outIds acc))
    (distinct (filter (fun x => x ∉ used acc) keys)).
Proof.
  revert acc. induction keys as [|id r IH]; intros acc.
  { simpl. by rewrite take_nil, app_nil_r. }
  simpl fill_keys. destruct (full max acc) eqn:Hfull.
  { apply full_true in Hfull.
    replace (Z.to_nat (Qceiling max) - length (outIds acc))%nat with 0%nat by lia.
    by rewrite take_0, app_nil_r. }
  apply full_false in Hfull.
  destruct (decide (id ∈ used acc)) as [Hin|Hin].
  { rewrite filter_cons_False by tauto. apply IH. }
  rewrite filter_cons_True by done. simpl distinct.
  destruct (Z.to_nat (Qceiling max) - length (outIds acc))%nat as [|k] eqn:Hk; [lia|].
  simpl take. rewrite IH. simpl outIds. rewrite <- app_assoc. simpl. do 2 f_equal.
  replace (Z.to_nat (Qceiling max) - length (outIds acc ++ [id]))%nat with k
    by (rewrite length_app; simpl; lia).
  f_equal. rewrite <- distinct_filter, list_filter_filter. f_equal.
  apply list_filter_iff. intros x. simpl. rewrite elem_of_union, elem_of_singleton. tauto.
Qed.

(** The three steps are one walk, with one stop at [max], over the previous
    identifiers still in the table, then the fresh identifiers, then the keys
    of the table. *)
Lemma build_catalog_as_keys needReseed max prevIds fresh merged :
  1 ≤ Qceiling max →
  build_catalog needReseed max prevIds fresh merged =
  fill_keys max
    ((if needReseed then [] else filter (fun id => JsMap.has id merged = true) prevIds) ++
     filter (fun x => x ≠ "") (idFor <$> fresh) ++ JsMap.keys merged)
    {| outIds := []; used := ∅ |}.
Proof.
  intros Hmax. unfold build_catalog. rewrite lt_ceiling. rewrite !fill_keys_app, <- fill_fresh_as_keys.
  assert ((if negb needReseed
           then keep_previous max merged prevIds {| outIds := []; used := ∅ |}
           else {| outIds := []; used := ∅ |}) =
          fill_keys max
            (if needReseed then [] else filter (fun id => JsMap.has id merged = true) prevIds)
            {| outIds := []; used := ∅ |}) as ->.
  { destruct needReseed; simpl; [done|]. apply keep_previous_as_keys.
    apply full_false. simpl. lia. }
  destruct (_ <? Qceiling max) eqn:Hlt; [done|]. apply Z.ltb_ge in Hlt.
  symmetry. apply fill_keys_full. by apply full_true.
Qed.

(** ** The tables, key by key *)


Lemma distinct_app l1 l2 :
  distinct (l1 ++ l2) = distinct l1 ++ filter (fun x => x ∉ l1) (distinct l2).
Proof.
  induction l1 as [|x l1 IH]; simpl.
  - symmetry. apply filter_Forall_id, Forall_forall. intros y _. apply not_elem_of_nil.
  - f_equal. rewrite IH, filter_app, list_filter_filter. f_equal.
    apply list_filter_iff. intros y. rewrite not_elem_of_cons. tauto.
Qed.

Lemma distinct_idem l : distinct (distinct l) = distinct l.
Proof. apply distinct_id, distinct_NoDup. Qed.

(** Both tables grow in the same way: a new non-empty identifier goes to
    the end, a known one keeps its place. *)
Lemma merge_fresh_keys fresh (merged : list (string * json)) :
  JsMap.keys (merge_fresh fresh merged) =
  JsMap.keys merged ++
  distinct (filter (fun x => x ≠ "" ∧ x ∉ JsMap.keys merged) (idFor <$> fresh)).
Proof.
  revert merged. induction fresh as [|p r IH]; intros merged.
  { simpl. by rewrite app_nil_r. }
  rewrite fmap_cons. simpl merge_fresh. rewrite IH. clear IH.
  destruct (Js.nonempty (idFor p)) eqn:Hid; simpl negb; cbv iota.
  2:{ apply nonempty_false in Hid. rewrite filter_cons_False by (rewrite Hid; tauto). done. }
  apply nonempty_true in Hid. rewrite keys_set.
  destruct (JsMap.has (idFor p) merged) eqn:Hhas.
  - apply has_true in Hhas. by rewrite filter_cons_False by tauto.
  - apply has_false in Hhas. rewrite filter_cons_True by done. simpl distinct.
    rewrite <- app_assoc. simpl. do 2 f_equal.
    rewrite <- distinct_filter, list_filter_filter. f_equal.
    apply list_filter_iff. intros x. rewrite elem_of_app, list_elem_of_singleton. tauto.
Qed.

Lemma build_prevMap_keys prevArr (prevMap : list (string * json)) :
  JsMap.keys (build_prevMap prevArr prevMap) =
  JsMap.keys prevMap ++
  distinct (filter (fun x => x ≠ "" ∧ x ∉ JsMap.keys prevMap) (idFor <$> prevArr)).
Proof.
  revert prevMap. induction prevArr as [|p r IH]; intros prevMap.
  { simpl. by rewrite app_nil_r. }
  rewrite fmap_cons. simpl build_prevMap. rewrite IH. clear IH.
  destruct (Js.nonempty (idFor p)) eqn:Hid; simpl andb.
  2:{ apply nonempty_false in Hid. rewrite filter_cons_False by (rewrite Hid; tauto). done. }
  apply nonempty_true in Hid.
  destruct (JsMap.has (idFor p) prevMap) eqn:Hhas; simpl negb; cbv iota.
  - apply has_true in Hhas. by rewrite filter_cons_False by tauto.
  - rewrite keys_set, Hhas. apply has_false in Hhas.
    rewrite filter_cons_True by done. simpl distinct.
    rewrite <- app_assoc. simpl. do 2 f_equal.
    rewrite <- distinct_filter, list_filter_filter. f_equal.
    apply list_filter_iff. intros x. rewrite elem_of_app, list_elem_of_singleton. tauto.
Qed.

(** In the previous table the first record of an identifier is kept. *)
Lemma build_prevMap_get prevArr prevMap k :
  k ≠ "" →
  JsMap.get k (build_prevMap prevArr prevMap) =
  match JsMap.get k prevMap with
  | Some v => Some v
  | None => head (filter (fun p => idFor p = k) prevArr)
  end.
Proof.
  intros Hk. revert prevMap. induction prevArr as [|p r IH]; intros prevMap.
  { simpl. by destruct (JsMap.get k prevMap). }
  simpl build_prevMap. rewrite IH. clear IH.
  destruct (decide (idFor p = k)) as [Hp|Hp].
  - rewrite filter_cons_True by done. subst k.
    rewrite (proj2 (nonempty_true _) Hk). simpl.
    unfold JsMap.has. destruct (JsMap.get (idFor p) prevMap) eqn:Hget; simpl;
      [by rewrite Hget|]. by rewrite get_set_eq.
  - rewrite filter_cons_False by done.
    destruct (Js.nonempty (idFor p) && negb (JsMap.has (idFor p) prevMap)); [|done].
    by rewrite get_set_ne.
Qed.

(** In the merged table the last fresh record of an identifier is kept,
    and without a fresh one the record that was there. *)
Lemma merge_fresh_get fresh merged k :
  k ≠ "" →
  JsMap.get k (merge_fresh fresh merged) =
  match last (filter (fun p => idFor p = k) fresh) with
  | Some p => Some p
  | None => JsMap.get k merged
  end.
Proof.
  intros Hk. revert merged. induction fresh as [|p r IH]; intros merged; [done|].
  simpl merge_fresh. rewrite IH. clear IH.
  destruct (decide (idFor p = k)) as [Hp|Hp].
  - rewrite filter_cons_True by done. subst k.
    rewrite (proj2 (nonempty_true _) Hk). simpl negb. cbv iota.
    rewrite get_set_eq.
    destruct (filter (fun p0 => idFor p0 = idFor p) r) as [|q l] eqn:Hf; [done|].
    rewrite last_cons_cons. destruct (last (q :: l)) eqn:Hl; [done|].
    by apply last_None in Hl.
  - rewrite filter_cons_False by done.
    destruct (negb (Js.nonempty (idFor p))); [done|]. by rewrite get_set_ne.
Qed.

Lemma keyed_get_empty merged : keyed merged → JsMap.get "" merged = None.
Proof.
  intros Hm. destruct (JsMap.get "" merged) as [v|] eqn:Hget; [|done].
  apply get_Some_elem in Hget. eapply Forall_forall in Hm; [|exact Hget].
  by destruct Hm.
Qed.

Lemma catalog_bounds e o c up d r :
  main e o c up d = Done r →
  1 ≤ Qceiling (r_max r) ∧ Z.of_nat (length (r_outIds r)) ≤ Qceiling (r_max r) ∧
  NoDup (r_outIds r).
Proof.
  intros (st & _ & ->)%main_Done. simpl. split_and!.
  - apply effective_max_pos.
  - apply build_catalog_length, effective_max_pos.
  - apply build_catalog_ok.
Qed.

(** X1. The catalog of a run is the first [max] distinct identifiers of
    this sequence: unless the run reseeds, the previous identifiers that are
    still in the merged table; then the identifiers of the fresh records, in
    the order of the fetch; then the keys of the merged table. (For a [max]
    that is not whole, the first [max] rounded up.) *)
Theorem X1_catalog_formula e o c up d r :
  main e o c up d = Done r →
  r_outIds r =
  take (Z.to_nat (Qceiling (r_max r)))
    (distinct
       ((if r_needReseed r then []
         else filter (fun id => JsMap.has id (r_merged r) = true) (r_prevIds r)) ++
        (idFor <$> r_fresh r) ++ JsMap.keys (r_merged r))).
Proof.
  intros (st & Hst & ->)%main_Done. apply fetch_all_fresh in Hst.
  cbn [reconcile r_outIds r_max r_needReseed r_merged r_prevIds r_fresh].
  rewrite build_catalog_as_keys by apply effective_max_pos.
  rewrite fill_keys_spec. simpl. rewrite Nat.sub_0_r. f_equal.
  rewrite (filter_Forall_id (fun x => x ∉ ∅)) by (apply Forall_forall; set_solver).
  do 3 f_equal. apply filter_Forall_id. by apply Forall_fmap.
Qed.

Lemma X1_witness :
  ∃ r, main Sample.env (Sample.opts 3 "x") Sample.clock1
         (Sample.serve [Sample.performer "4"; Sample.performer "1"]) Sample.disk_123 = Done r ∧
       r_outIds r = take 3 (distinct (["1"; "3"] ++ ["4"; "1"] ++ ["1"; "3"; "4"])) ∧
       r_outIds r = ["1"; "3"; "4"].
Proof.
  eexists. split; [vm_compute; reflexivity|]. split; [|reflexivity].
  apply (X1_catalog_formula Sample.env (Sample.opts 3 "x") Sample.clock1
           (Sample.serve [Sample.performer "4"; Sample.performer "1"]) Sample.disk_123).
  vm_compute. reflexivity.
Defined.

(** X2. The catalog is as long as it can be: it has [max] entries, [max]
    rounded up when it is not whole, or as many as the merged table has
    records when these are fewer. *)
Theorem X2_catalog_size e o c up d r :
  main e o c up d = Done r →
  Z.of_nat (length (r_outIds r)) =
  Z.min (Qceiling (r_max r)) (Z.of_nat (length (r_merged r))).
Proof.
  intros Hrun. destruct (catalog_bounds e o c up d r Hrun) as (Hmax & Hlen & Hnd).
  apply main_Done in Hrun as (st & _ & ->).
  destruct (reconcile_merged o c d st) as (_ & Hkeys & Hin).
  set (r := reconcile o c d st) in *.
  assert (length (r_merged r) = length (JsMap.keys (r_merged r))) as ->
    by (unfold JsMap.keys; by rewrite length_fmap).
  assert (length (r_outIds r) ≤ length (JsMap.keys (r_merged r)))%nat as Hle.
  { apply submseteq_length, NoDup_submseteq; [done|].
    intros x Hx. eapply Forall_forall in Hin; [|exact Hx]. by apply has_true. }
  destruct (decide (Z.of_nat (length (r_outIds r)) < Qceiling (r_max r))) as [Hshort|]; [|lia].
  assert (length (r_outIds r) = length (JsMap.keys (r_merged r))) as Heq; [|lia].
  apply Permutation_length, NoDup_Permutation; [done..|].
  intros x. split.
  - intros Hx. eapply Forall_forall in Hin; [|exact Hx]. by apply has_true.
  - intros Hx%has_true. by apply (build_catalog_short _ _ _ _ _ Hshort).
Qed.

Lemma X2_witness :
  ∃ r, main Sample.env (Sample.opts 2 "x") Sample.clock1
         (Sample.serve [Sample.performer "4"]) Sample.disk_123 = Done r ∧
       length (r_merged r) = 3%nat ∧
       Z.of_nat (length (r_outIds r)) = Z.min 2 3.
Proof.
  eexists. split; [vm_compute; reflexivity|]. split; [reflexivity|].
  apply (X2_catalog_size Sample.env (Sample.opts 2 "x") Sample.clock1
           (Sample.serve [Sample.performer "4"]) Sample.disk_123).
  vm_compute. reflexivity.
Defined.

(** X3. The merged table, read at a key: the record of a non-empty
    identifier is the last fresh record with that identifier and, without a
    fresh one, the first record of the previous table with it; the empty
    string is never a key. *)
Theorem X3_merged_lookup e o c up d r k :
  main e o c up d = Done r →
  JsMap.get k (r_merged r) =
  if decide (k = "") then None
  else match last (filter (fun p => idFor p = k) (r_fresh r)) with
       | Some p => Some p
       | None => head (filter (fun p => idFor p = k) (prevArr_of d))
       end.
Proof.
  intros (st & _ & ->)%main_Done.
  destruct (reconcile_merged o c d st) as (Hkeyed & _ & _).
  destruct (decide (k = "")) as [->|Hk]; [by apply keyed_get_empty|].
  cbn [reconcile r_merged r_fresh]. rewrite merge_fresh_get by done.
  unfold prevMap_of. by rewrite build_prevMap_get.
Qed.

Lemma X3_witness :
  ∃ r, main Sample.env (Sample.opts 3 "x") Sample.clock1
         (Sample.serve [JObj [("itemId", JStr "3"); ("name", JStr "new")]])
         Sample.disk_123 = Done r ∧
       JsMap.get "3" (r_merged r) = Some (JObj [("itemId", JStr "3"); ("name", JStr "new")]) ∧
       JsMap.get "1" (r_merged r) = Some (Sample.performer "1") ∧
       JsMap.get "2" (r_merged r) = None.
Proof.
  eexists. split; [vm_compute; reflexivity|].
  pose proof (fun k => X3_merged_lookup Sample.env (Sample.opts 3 "x") Sample.clock1
    (Sample.serve [JObj [("itemId", JStr "3"); ("name", JStr "new")]])
    Sample.disk_123 _ k eq_refl) as Hget.
  split_and!; [exact (Hget "3") | exact (Hget "1") | exact (Hget "2")].
Defined.

(** X4. The keys of the merged table are the distinct non-empty
    identifiers of the previous table followed by the fresh records, in the
    order of their first occurrence: a refreshed record keeps its place and
    a new one goes to the end. *)
Theorem X4_merged_keys_order e o c up d r :
  main e o c up d = Done r →
  JsMap.keys (r_merged r) =
  distinct (filter (fun x => x ≠ "") (idFor <$> (prevArr_of d ++ r_fresh r))).
Proof.
  intros (st & _ & ->)%main_Done. cbn [reconcile r_merged r_fresh].
  rewrite merge_fresh_keys. unfold prevMap_of. rewrite build_prevMap_keys. simpl.
  rewrite fmap_app, filter_app, distinct_app. f_equal.
  - f_equal. apply list_filter_iff. intros x. split; [tauto|].
    intros ?. split; [done | apply not_elem_of_nil].
  - rewrite <- distinct_filter, list_filter_filter. f_equal.
    apply list_filter_iff. intros x. rewrite elem_of_distinct.
    split; [intros [? Hx]; split; [|done] | intros [Hx ?]; split; [done|]];
      intros Hin; apply Hx; revert Hin; rewrite !list_elem_of_filter;
      intros [? ?]; split; try done; split; [done | apply not_elem_of_nil].
Qed.

Lemma X4_witness :
  ∃ r, main Sample.env (Sample.opts 3 "x") Sample.clock1
         (Sample.serve [Sample.performer "4"; Sample.performer "3"]) Sample.disk_123 = Done r ∧
       JsMap.keys (r_merged r) = ["1"; "3"; "4"].
Proof.
  eexists. split; [vm_compute; reflexivity|].
  rewrite (X4_merged_keys_order Sample.env (Sample.opts 3 "x") Sample.clock1
             (Sample.serve [Sample.performer "4"; Sample.performer "3"]) Sample.disk_123)
    by (vm_compute; reflexivity).
  vm_compute. reflexivity.
Defined.

(** ** What the fetch loops accumulate *)

Lemma got_accept_other brand id p st b :
  b ≠ brand → got b (accept brand id p st) = got b st.
Proof.
  intros Hb. unfold got, accept. simpl.
  destruct (JsMap.get brand (freshByBrand st)); [|done]. by rewrite get_set_ne.
Qed.

Lemma got_accept_length brand id p st :
  (length (got brand (accept brand id p st)) ≤ S (length (got brand st)))%nat.
Proof.
  unfold got, accept. simpl.
  destruct (JsMap.get brand (freshByBrand st)) as [l|] eqn:Hget.
  - rewrite get_set_eq, length_app. simpl. lia.
  - rewrite Hget. simpl. lia.
Qed.

(** One page never takes a brand beyond its quota, and leaves the other
    brands alone. *)
Lemma take_page_bound brand want arr st :
  Z.of_nat (length (got brand st)) < want →
  Z.of_nat (length (got brand (take_page brand want arr st))) ≤ want ∧
  ∀ b, b ≠ brand → got b (take_page brand want arr st) = got b st.
Proof.
  revert st. induction arr as [|p r IH]; intros st Hlt; simpl; [split; [lia | done]|].
  destruct (negb (Js.nonempty (idFor p))); [by apply IH|].
  destruct (decide (idFor p ∈ seen st)); [by apply IH|].
  pose proof (got_accept_length brand (idFor p) p st) as Hlen.
  destruct (want <=? _) eqn:Hfull.
  - split; [lia|]. intros b Hb. by apply got_accept_other.
  - apply Z.leb_gt in Hfull. destruct (IH (accept brand (idFor p) p st) Hfull) as [H1 H2].
    split; [done|]. intros b Hb. rewrite H2 by done. by apply got_accept_other.
Qed.

Lemma got_logged b rq w st : got b (logged rq w st) = got b st.
Proof. reflexivity. Qed.

Lemma brand_loop_bound fuel up mk brand want page st :
  after (fun st' =>
           Z.of_nat (length (got brand st')) ≤ Z.max want (Z.of_nat (length (got brand st))) ∧
           ∀ b, b ≠ brand → got b st' = got b st)
        (brand_loop fuel up mk brand want page st).
Proof.
  revert page st. induction fuel as [|fuel IH]; intros page st; simpl.
  - destruct (_ <? want); simpl; [done | split; [lia | done]].
  - destruct (_ <? want) eqn:Hlt; simpl; [|split; [lia | done]].
    apply Z.ltb_lt in Hlt.
    destruct (fetchPage up (mk page)) as [[arr w]|f]; simpl; [|done].
    destruct arr as [|p arr]; cbv beta iota.
    { simpl. rewrite got_logged. split; [lia | done]. }
    assert (Z.of_nat (length (got brand (logged (mk page) w st))) < want) as Hlt'
      by by rewrite got_logged.
    destruct (take_page_bound brand want (p :: arr) (logged (mk page) w st) Hlt') as [H1 H2].
    destruct (take_page_throws _ _ _ _) eqn:Hthrows; [done|].
    destruct (page_cap <? page + 1).
    + cbn [after]. split; [lia | exact H2].
    + specialize (IH (page + 1) (take_page brand want (p :: arr) (logged (mk page) w st))).
      destruct (brand_loop fuel up mk brand want (page + 1) _) as [st'|]; [|done].
      cbn [after] in *. destruct IH as [H3 H4]. split; [lia|].
      intros b Hb. rewrite H4 by done. by apply H2.
Qed.

(** After the loops every brand holds at most its quota. *)
Lemma fetch_brands_bound up mk quota brands st :
  (∀ b, Z.of_nat (length (got b st)) ≤ Z.max 0 (want_of quota b)) →
  after (fun st' => ∀ b, Z.of_nat (length (got b st')) ≤ Z.max 0 (want_of quota b))
        (fetch_brands up mk quota brands st).
Proof.
  revert st. induction brands as [|brand r IH]; intros st Hst; [done|].
  rewrite fetch_brands_cons. destruct (want_of quota brand <=? 0); [by apply IH|].
  pose proof (brand_loop_bound (Z.to_nat page_cap) up (mk brand) brand
                (want_of quota brand) 1 st) as Hloop.
  destruct (brand_loop _ up (mk brand) brand _ 1 st) as [st1|f]; [|done].
  simpl in Hloop. destruct Hloop as [H1 H2]. apply IH. intros b.
  destruct (decide (b = brand)) as [->|Hb]; [|by rewrite H2].
  specialize (Hst brand). lia.
Qed.

Lemma got_empty_fresh brandList b :
  got b {| seen := ∅; freshByBrand := empty_fresh brandList; warned := []; requested := [] |} = [].
Proof.
  unfold got. simpl. destruct (JsMap.get b (empty_fresh brandList)) as [l|] eqn:Hget; [|done].
  apply get_Some_elem in Hget. by eapply empty_fresh_values.
Qed.

(** A quota is at most the share of the place of its brand in the list,
    also when the brand is listed again further on. *)
Lemma set_quotas_le base extra brands i quota j b :
  brands !! j = Some b →
  want_of (set_quotas base extra i brands quota) b ≤
  base + (if i + Z.of_nat j <? Qceiling extra then 1 else 0).
Proof.
  revert i quota j. induction brands as [|b0 r IH]; intros i quota j Hj; [done|].
  rewrite set_quotas_cons. destruct j as [|j]; simpl in Hj.
  - injection Hj as ->. destruct (decide (b ∈ r)) as [[j' Hj']%list_elem_of_lookup|Hb].
    + etrans; [apply (IH _ _ j' Hj')|].
      destruct (i + 1 + Z.of_nat j' <? Qceiling extra) eqn:H1; destruct (i + Z.of_nat 0 <? Qceiling extra) eqn:H2;
        try lia. apply Z.ltb_lt in H1. apply Z.ltb_ge in H2. lia.
    + unfold want_of. rewrite set_quotas_get_other by done. rewrite get_set_eq.
      replace (i + Z.of_nat 0) with i by lia. lia.
  - etrans; [apply (IH _ _ j Hj)|].
    replace (i + 1 + Z.of_nat j) with (i + Z.of_nat (S j)) by lia. lia.
Qed.

Lemma set_quotas_sum_le base extra brands i quota :
  zsum (want_of (set_quotas base extra i brands quota) <$> brands) ≤
  Z.of_nat (length brands) * base + Z.max 0 (Z.min (Z.of_nat (length brands)) (Qceiling extra - i)).
Proof.
  revert i quota. induction brands as [|b r IH]; intros i quota; [simpl; lia|].
  pose proof (set_quotas_le base extra (b :: r) i quota 0 b eq_refl) as Hhead.
  rewrite set_quotas_cons in *.
  specialize (IH (i + 1)
    (JsMap.set b (base + (if i <? Qceiling extra then 1 else 0)) quota)).
  rewrite fmap_cons. unfold zsum in *. cbn [foldr].
  replace (i + Z.of_nat 0) with i in Hhead by lia. cbn [length].
  destruct (i <? Qceiling extra) eqn:Hi; [apply Z.ltb_lt in Hi | apply Z.ltb_ge in Hi]; lia.
Qed.

Lemma set_quotas_nonneg base extra brands i quota b :
  0 ≤ base → 0 ≤ want_of quota b → 0 ≤ want_of (set_quotas base extra i brands quota) b.
Proof.
  intros Hbase. revert i quota. induction brands as [|b0 r IH]; intros i quota Hq; [done|].
  simpl. apply IH. unfold want_of in *.
  destruct (decide (b0 = b)) as [->|Hne].
  - rewrite get_set_eq. destruct (Js.lt _ _); lia.
  - by rewrite get_set_ne.
Qed.

Lemma quotas_sum_le max brandList :
  (1 <= max)%Q → brandList ≠ [] →
  (∀ b, 0 ≤ want_of (quotas max brandList) b) ∧
  zsum (want_of (quotas max brandList) <$> brandList) ≤ Qceiling max.
Proof.
  intros Hmax Hne. set (n := Z.of_nat (length brandList)).
  assert (0 < n) as Hn by (subst n; destruct brandList; simpl; [done | lia]).
  destruct (quota_parts max n) as (Hbase & Hextra & Hsum); [lra | done |].
  split.
  - intros b. unfold quotas. by apply set_quotas_nonneg.
  - unfold quotas. etrans; [apply set_quotas_sum_le|]. fold n. lia.
Qed.

Lemma collect_fresh_length brandList st :
  Z.of_nat (length (collect_fresh brandList st)) =
  zsum ((fun b => Z.of_nat (length (got b st))) <$> brandList).
Proof.
  unfold collect_fresh. induction brandList as [|b r IH]; [done|].
  rewrite !fmap_cons. simpl concat. rewrite length_app, Nat2Z.inj_add, IH. reflexivity.
Qed.

Lemma zsum_le {A} (f g : A → Z) l :
  (∀ x, f x ≤ g x) → zsum (f <$> l) ≤ zsum (g <$> l).
Proof.
  intros Hfg. induction l as [|x l IH]; [done|]. rewrite !fmap_cons. simpl.
  specialize (Hfg x). lia.
Qed.

(** X5. The fetch loops never accumulate more than [max] records when
    [max] is a whole number, in general never more than [max] rounded up, and
    no brand more than its quota, also when a brand is listed more than
    once. *)
Theorem X5_fresh_within_quota e o c up d r :
  main e o c up d = Done r →
  (∀ m : Z, (r_max r == inject_Z m)%Q → Z.of_nat (length (r_fresh r)) ≤ m) ∧
  Z.of_nat (length (r_fresh r)) ≤ Qceiling (r_max r) ∧
  ∃ st, fetch_all e o up (r_brandList r) = Done st ∧
        r_fresh r = collect_fresh (r_brandList r) st ∧
        ∀ b, Z.of_nat (length (got b st)) ≤ want_of (r_quota r) b.
Proof.
  intros (st & Hst & ->)%main_Done. cbn [reconcile r_fresh r_max r_brandList r_quota].
  destruct (quotas_sum_le (effective_max o) (brandList_of o d)) as [Hpos Hsum];
    [apply effective_max_ge | apply brandList_of_nonempty |].
  assert (∀ b, Z.of_nat (length (got b st)) ≤
               want_of (quotas (effective_max o) (brandList_of o d)) b) as Hshare.
  { intros b. specialize (Hpos b).
    pose proof (fetch_brands_bound up (request_of e o)
      (quotas (effective_max o) (brandList_of o d)) (brandList_of o d)
      {| seen := ∅; freshByBrand := empty_fresh (brandList_of o d);
         warned := []; requested := [] |}) as Hbound.
    unfold fetch_all in Hst. rewrite Hst in Hbound. simpl in Hbound.
    etrans; [apply Hbound|]; [|lia]. intros b'. rewrite got_empty_fresh. simpl. lia. }
  assert (Z.of_nat (length (collect_fresh (brandList_of o d) st))
          ≤ Qceiling (effective_max o)) as Hlen.
  { rewrite collect_fresh_length. etrans; [|exact Hsum]. by apply zsum_le. }
  split_and!; [|done | by exists st].
  intros m Hm. by rewrite (whole_ceiling _ _ Hm) in Hlen.
Qed.

Lemma X5_witness :
  ∃ r, main Sample.env (Sample.opts 2 "x,x") Sample.clock1
         (Sample.serve [Sample.performer "4"; Sample.performer "5"; Sample.performer "6"])
         Sample.disk_empty = Done r ∧
       r_quota r = [("x", 1)] ∧ length (r_fresh r) = 2%nat ∧
       Z.of_nat (length (r_fresh r)) ≤ 2.
Proof.
  eexists. split; [vm_compute; reflexivity|]. split; [reflexivity|]. split; [reflexivity|].
  edestruct (X5_fresh_within_quota Sample.env (Sample.opts 2 "x,x") Sample.clock1
           (Sample.serve [Sample.performer "4"; Sample.performer "5"; Sample.performer "6"])
           Sample.disk_empty) as (Hwhole & _); [vm_compute; reflexivity|].
  apply Hwhole. reflexivity.
Defined.

Lemma concat_set_snoc k (l : list json) p (m : list (string * list json)) :
  JsMap.get k m = Some l →
  concat (JsMap.set k (l ++ [p]) m).*2 ≡ₚ p :: concat m.*2.
Proof.
  induction m as [|[k' v'] m IH]; simpl; [done|].
  destruct (decide (k' = k)) as [->|Hne].
  - intros [= ->]. rewrite !fmap_cons. simpl.
    rewrite <- app_assoc. simpl. by rewrite <- Permutation_middle.
  - intros Hget. rewrite !fmap_cons. simpl. rewrite (IH Hget).
    by rewrite <- Permutation_middle.
Qed.

Lemma empty_fresh_keys_from (m0 : list (string * list json)) brandList :
  JsMap.keys (foldl (fun m b => JsMap.set b [] m) m0 brandList) =
  JsMap.keys m0 ++ distinct (filter (fun b => b ∉ JsMap.keys m0) brandList).
Proof.
  revert m0. induction brandList as [|b r IH]; intros m0; simpl.
  { by rewrite app_nil_r. }
  rewrite IH, keys_set. destruct (JsMap.has b m0) eqn:Hhas.
  - apply has_true in Hhas. by rewrite filter_cons_False by tauto.
  - apply has_false in Hhas. rewrite filter_cons_True by done. simpl.
    rewrite <- app_assoc. simpl. do 2 f_equal.
    rewrite <- distinct_filter, list_filter_filter. f_equal.
    apply list_filter_iff. intros x. rewrite elem_of_app, list_elem_of_singleton. tauto.
Qed.

(** The map of the accumulation has one entry per brand, in list order. *)
Lemma empty_fresh_keys brandList : JsMap.keys (empty_fresh brandList) = distinct brandList.
Proof.
  unfold empty_fresh. rewrite empty_fresh_keys_from. simpl. f_equal.
  apply filter_Forall_id, Forall_forall. intros x _. apply not_elem_of_nil.
Qed.

Lemma values_by_keys {V} (dflt : V) (m : list (string * V)) :
  NoDup (JsMap.keys m) →
  (fun k => match JsMap.get k m with Some v => v | None => dflt end) <$> JsMap.keys m = m.*2.
Proof.
  unfold JsMap.keys. induction m as [|[k v] m IH]; [done|].
  rewrite !fmap_cons. intros [Hk Hnd]%NoDup_cons. simpl. rewrite decide_True by done.
  f_equal. rewrite <- IH by done. apply list_fmap_ext. intros i k' Hk'.
  rewrite decide_False; [done|]. intros ->. apply Hk. by eapply list_elem_of_lookup_2.
Qed.

(** Across the brands of a run no identifier is accumulated twice. *)
Lemma fetch_all_distinct e o up brandList st :
  NoDup brandList →
  fetch_all e o up brandList = Done st →
  JsMap.keys (freshByBrand st) = brandList ∧
  NoDup (idFor <$> concat (freshByBrand st).*2).
Proof.
  intros Hnd Hrun.
  assert (JsMap.keys (freshByBrand st) = brandList ∧
          NoDup (idFor <$> concat (freshByBrand st).*2) ∧
          ∀ p, p ∈ concat (freshByBrand st).*2 → idFor p ∈ seen st) as (? & ? & _); [|done].
  revert Hrun. unfold fetch_all.
  apply (fetch_brands_inv up (fun st =>
    JsMap.keys (freshByBrand st) = brandList ∧
    NoDup (idFor <$> concat (freshByBrand st).*2) ∧
    ∀ p, p ∈ concat (freshByBrand st).*2 → idFor p ∈ seen st)).
  - intros brand p st0 (Hkeys & Hids & Hseen) _ Hnew. unfold accept. simpl.
    destruct (JsMap.get brand (freshByBrand st0)) as [l|] eqn:Hget.
    + pose proof (concat_set_snoc brand l p _ Hget) as Hperm. split_and!.
      * rewrite keys_set. unfold JsMap.has. by rewrite Hget.
      * rewrite Hperm. rewrite fmap_cons. apply NoDup_cons. split; [|done].
        intros (q & Hq & Hin)%list_elem_of_fmap. apply Hnew. rewrite Hq. by apply Hseen.
      * intros q. rewrite Hperm. intros [->|Hq]%elem_of_cons; [set_solver|].
        apply Hseen in Hq. set_solver.
    + split_and!; [done | done |]. intros q Hq. apply Hseen in Hq. set_solver.
  - intros rq w st0 H _. exact H.
  - simpl. split_and!.
    + rewrite empty_fresh_keys. by apply distinct_id.
    + assert (concat (empty_fresh brandList).*2 = []) as ->; [|constructor].
      apply concat_nil_Forall, Forall_forall. intros l ([b l'] & -> & Hin)%list_elem_of_fmap.
      by eapply empty_fresh_values.
    + assert (concat (empty_fresh brandList).*2 = []) as ->; [|by intros ? ?%elem_of_nil].
      apply concat_nil_Forall, Forall_forall. intros l ([b l'] & -> & Hin)%list_elem_of_fmap.
      by eapply empty_fresh_values.
Qed.

(** X6. With pairwise distinct brands the fresh records of a run have
    pairwise distinct identifiers: a record already accumulated, for the same
    brand or another, is not accumulated again. *)
Theorem X6_fresh_distinct e o c up d r :
  main e o c up d = Done r →
  NoDup (r_brandList r) →
  NoDup (idFor <$> r_fresh r).
Proof.
  intros (st & Hst & ->)%main_Done. cbn [reconcile r_brandList r_fresh]. intros Hnd.
  destruct (fetch_all_distinct _ _ _ _ _ Hnd Hst) as [Hkeys Hids].
  unfold collect_fresh, got. rewrite <- Hkeys at 1.
  rewrite values_by_keys; [done|]. by rewrite Hkeys.
Qed.

Lemma X6_witness :
  ∃ r, main Sample.env (Sample.opts 4 "a,b") Sample.clock1
         (Sample.serve [Sample.performer "4"; Sample.performer "5"; Sample.performer "4"])
         Sample.disk_empty = Done r ∧
       idFor <$> r_fresh r = ["4"; "5"] ∧ NoDup (idFor <$> r_fresh r).
Proof.
  eexists. split; [vm_compute; reflexivity|]. split; [reflexivity|].
  apply (X6_fresh_distinct Sample.env (Sample.opts 4 "a,b") Sample.clock1
           (Sample.serve [Sample.performer "4"; Sample.performer "5"; Sample.performer "4"])
           Sample.disk_empty).
  - vm_compute. reflexivity.
  - apply (bool_decide_unpack (NoDup ["a"; "b"])). vm_compute. exact I.
Defined.

(** ** What a run writes is what the next run reads *)




(** ** The requests and the warnings of a run *)

Lemma effective_size_bounds o : 1 ≤ effective_size o ≤ 100.
Proof.
  unfold effective_size. destruct (opt_size o =? 0) eqn:H0.
  - simpl. lia.
  - destruct (opt_size o <? 1) eqn:H1.
    + simpl. lia.
    + destruct (100 <? opt_size o) eqn:H2; lia.
Qed.

Lemma fetch_brands_requests up mk quota brands st st' :
  fetch_brands up mk quota brands st = Done st' →
  ∃ ks, Forall2 (fun b k => 0 ≤ k ≤ page_cap ∧ (want_of quota b ≤ 0 → k = 0)) brands ks ∧
        requested st' =
        requested st ++ concat (zip_with (fun b k => mk b <$> seqZ 1 k) brands ks).
Proof.
  revert st. induction brands as [|brand r IH]; intros st.
  - intros [= <-]. exists []. split; [constructor|]. simpl. by rewrite app_nil_r.
  - rewrite fetch_brands_cons. destruct (want_of quota brand <=? 0) eqn:Hwant.
    + intros (ks & Hks & ->)%IH. exists (0 :: ks). split.
      * constructor; [|done]. unfold page_cap. lia.
      * cbn [zip_with concat]. by rewrite seqZ_nil by done.
    + apply Z.leb_gt in Hwant.
      destruct (brand_loop _ up (mk brand) brand _ 1 st) as [st1|f] eqn:Hloop; [|done].
      apply brand_loop_trace in Hloop as (k & Hk & Hcap & Hreq & _); [|done].
      intros (ks & Hks & ->)%IH. exists (k :: ks). split.
      * constructor; [|done]. split; lia.
      * rewrite Hreq. cbn [zip_with concat]. by rewrite <- app_assoc.
Qed.

Lemma length_blocks {A} (f : string → Z → list A) brands ks :
  Forall2 (fun b k => Z.of_nat (length (f b k)) ≤ page_cap) brands ks →
  Z.of_nat (length (concat (zip_with f brands ks))) ≤ page_cap * Z.of_nat (length brands).
Proof.
  induction 1 as [|b k brands ks Hk _ IH]; simpl; [lia|].
  rewrite length_app. lia.
Qed.

(** X8. The requests of a completed run, in the order they are made: brand
    after brand in the order of the brand list, and for each brand the
    pages 1, 2, ..., k for some k of at most 250, with no request at all
    for a brand whose quota is 0. Each carries the credentials and user
    agent of the environment and a page size between 1 and 100, so a run
    makes at most 250 requests per listed brand. *)
Theorem X8_request_trace e o c up d r :
  main e o c up d = Done r →
  1 ≤ effective_size o ≤ 100 ∧
  (∃ ks,
     Forall2 (fun b k => 0 ≤ k ≤ page_cap ∧ (want_of (r_quota r) b ≤ 0 → k = 0))
       (r_brandList r) ks ∧
     r_requests r =
     concat (zip_with (fun b k => request_of e o b <$> seqZ 1 k) (r_brandList r) ks)) ∧
  Z.of_nat (length (r_requests r)) ≤ page_cap * Z.of_nat (length (r_brandList r)).
Proof.
  intros (st & Hfetch & ->)%main_Done.
  cbn [reconcile r_requests r_quota r_brandList].
  apply fetch_brands_requests in Hfetch as (ks & Hks & Hreq). simpl in Hreq.
  split; [apply effective_size_bounds|]. split; [by exists ks|].
  rewrite Hreq. apply length_blocks.
  eapply Forall2_impl; [exact Hks|]. intros b k [Hk _]. simpl.
  rewrite length_fmap, length_seqZ. lia.
Qed.

Lemma X8_witness :
  ∃ r, main Sample.env (Sample.opts 3 "a,b") Sample.clock1 Sample.serve_by_brand
         Sample.disk_empty = Done r ∧
       r_requests r =
       [request_of Sample.env (Sample.opts 3 "a,b") "a" 1;
        request_of Sample.env (Sample.opts 3 "a,b") "a" 2;
        request_of Sample.env (Sample.opts 3 "a,b") "b" 1] ∧
       Z.of_nat (length (r_requests r)) ≤ page_cap * Z.of_nat (length (r_brandList r)).
Proof.
  eexists. split; [vm_compute; reflexivity|]. split; [vm_compute; reflexivity|].
  apply (X8_request_trace Sample.env (Sample.opts 3 "a,b") Sample.clock1
           Sample.serve_by_brand Sample.disk_empty).
  vm_compute; reflexivity.
Defined.

Lemma page_log_warnings up rq w : page_log up rq w → w = page_warnings up rq.
Proof.
  intros [arr Hfetch]. unfold fetchPage in Hfetch. unfold page_warnings.
  destruct (up rq) as [res|]; [|done].
  destruct (negb (res_ok res)); [congruence|].
  destruct (res_json res); congruence.
Qed.

Lemma fetch_brands_warned up mk quota brands st st' :
  warned st = concat (page_warnings up <$> requested st) →
  fetch_brands up mk quota brands st = Done st' →
  warned st' = concat (page_warnings up <$> requested st').
Proof.
  apply (fetch_brands_inv up
           (fun st => warned st = concat (page_warnings up <$> requested st))).
  - done.
  - intros rq w st0 Hst ->%page_log_warnings. simpl.
    rewrite fmap_app, concat_app, Hst. simpl. by rewrite app_nil_r.
Qed.

Lemma brand_loop_warned_length fuel up mk brand want page st :
  after (fun st' => (length (warned st') ≤ length (warned st) + 1)%nat)
    (brand_loop fuel up mk brand want page st).
Proof.
  assert (∀ st0 st1 : fetch_state, warned st1 = warned st0 →
            after (fun st' => (length (warned st') ≤ length (warned st0) + 1)%nat)
              (brand_loop fuel up mk brand want page st1)) as Hgen; [|by apply Hgen].
  revert page. induction fuel as [|fuel IH]; intros page st0 st1 Hst; cbn [brand_loop].
  - destruct (_ <? want); cbn [after]; [done|]. rewrite Hst. lia.
  - destruct (_ <? want); cbn [after]; [|rewrite Hst; lia].
    destruct (fetchPage up (mk page)) as [[arr w]|f] eqn:Hpage; simpl; [|done].
    apply fetchPage_Done in Hpage
      as (res & _ & [(_ & -> & ->)|[(_ & _ & -> & ->)|(_ & data & _ & -> & ->)]]);
      cbv beta iota.
    + cbn [after logged warned]. rewrite length_app, Hst. simpl. lia.
    + cbn [after logged warned]. rewrite length_app, Hst. simpl. lia.
    + set (arr := Js.array_or _ _). destruct arr as [|p arr].
      * cbn [after logged warned]. rewrite app_nil_r, Hst. lia.
      * pose proof (take_page_logs brand want (p :: arr) (logged (mk page) [] st1))
          as [Hw _].
        assert (warned (take_page brand want (p :: arr) (logged (mk page) [] st1))
                = warned st0) as Hkeep.
        { rewrite Hw. cbn [logged warned]. by rewrite app_nil_r. }
        destruct (take_page_throws _ _ _ _) eqn:Hthrows; [done|].
        destruct (page_cap <? page + 1).
        -- cbn [after]. rewrite Hkeep. lia.
        -- by apply IH.
Qed.

Lemma fetch_brands_warned_length up mk quota brands st :
  after (fun st' => (length (warned st') ≤ length (warned st) + length brands)%nat)
    (fetch_brands up mk quota brands st).
Proof.
  revert st. induction brands as [|brand r IH]; intros st.
  - simpl. lia.
  - rewrite fetch_brands_cons. destruct (want_of quota brand <=? 0).
    + specialize (IH st). destruct (fetch_brands up mk quota r st); [|done].
      simpl in *. lia.
    + pose proof (brand_loop_warned_length (Z.to_nat page_cap) up (mk brand) brand
                    (want_of quota brand) 1 st) as Hloop.
      destruct (brand_loop _ up (mk brand) brand _ 1 st) as [st1|f]; [|done].
      specialize (IH st1). destruct (fetch_brands up mk quota r st1); [|done].
      simpl in *. lia.
Qed.

(** X9. The warnings of a completed run are, in this order: the warning of
    a changed brand list, if the brands changed and no reseed was asked for;
    then, request by request, one warning for each request that was answered
    with a bad status or, the status being good, with a body that is not
    JSON. A successful page logs nothing. Since a failed page ends the loop
    of its brand, there is at most one such warning for each listed brand. *)
Theorem X9_warning_trace e o c up d r :
  main e o c up d = Done r →
  r_warnings r =
    (if r_brandsChanged r && negb (opt_reseed o) then [brands_warning] else []) ++
    concat (page_warnings up <$> r_requests r) ∧
  (length (concat (page_warnings up <$> r_requests r)) ≤ length (r_brandList r))%nat.
Proof.
  intros (st & Hfetch & ->)%main_Done.
  cbn [reconcile r_requests r_warnings r_brandsChanged r_brandList].
  unfold fetch_all in Hfetch.
  assert (warned st = concat (page_warnings up <$> requested st)) as Hwarned.
  { eapply fetch_brands_warned; [|exact Hfetch]. reflexivity. }
  pose proof (fetch_brands_warned_length up (request_of e o)
                (quotas (effective_max o) (brandList_of o d)) (brandList_of o d)
                {| seen := ∅; freshByBrand := empty_fresh (brandList_of o d);
                   warned := []; requested := [] |}) as Hlen.
  rewrite Hfetch in Hlen. cbn [after warned length] in Hlen.
  rewrite <- Hwarned. split; [done | lia].
Qed.

Lemma X9_witness :
  ∃ r, main Sample.env (Sample.opts 3 "a,b") Sample.clock1 Sample.refuse
         Sample.disk_no_ids = Done r ∧
       r_warnings r =
       [brands_warning;
        page_warning (request_of Sample.env (Sample.opts 3 "a,b") "a" 1) Sample.refusal;
        page_warning (request_of Sample.env (Sample.opts 3 "a,b") "b" 1) Sample.refusal] ∧
       r_warnings r =
         (if r_brandsChanged r && negb (opt_reseed (Sample.opts 3 "a,b"))
          then [brands_warning] else []) ++
         concat (page_warnings Sample.refuse <$> r_requests r).
Proof.
  eexists. split; [vm_compute; reflexivity|]. split; [vm_compute; reflexivity|].
  apply (X9_warning_trace Sample.env (Sample.opts 3 "a,b") Sample.clock1 Sample.refuse
           Sample.disk_no_ids).
  vm_compute; reflexivity.
Defined.

(** ** How a run fails *)

Lemma brand_loop_failed fuel up mk brand want page st rq :
  brand_loop fuel up mk brand want page st = Failed (FetchRejected rq) →
  page ≤ page_cap →
  ∃ p, page ≤ p ≤ page_cap ∧ rq = mk p ∧ up rq = None.
Proof.
  revert page st. induction fuel as [|fuel IH]; intros page st; cbn [brand_loop].
  - by destruct (_ <? want).
  - destruct (_ <? want); [|done].
    destruct (fetchPage up (mk page)) as [[arr w]|f] eqn:Hfetch; simpl.
    + destruct arr as [|p arr]; cbv beta iota; [done|].
      destruct (take_page_throws _ _ _ _) eqn:Hthrows; [done|].
      destruct (page_cap <? page + 1) eqn:Hcap; [done|].
      apply Z.ltb_ge in Hcap. intros Hrun Hpage.
      apply IH in Hrun as (q & Hq & -> & Hup); [|lia].
      exists q. split_and!; [lia | lia | done | done].
    + apply fetchPage_Failed in Hfetch as [-> Hup]. intros [= <-] Hpage.
      exists page. split_and!; [lia | lia | done | done].
Qed.

Lemma fetch_brands_failed up mk quota brands st rq :
  fetch_brands up mk quota brands st = Failed (FetchRejected rq) →
  ∃ b p, b ∈ brands ∧ 0 < want_of quota b ∧ 1 ≤ p ≤ page_cap ∧ rq = mk b p ∧ up rq = None.
Proof.
  revert st. induction brands as [|brand r IH]; intros st; [done|].
  rewrite fetch_brands_cons. destruct (want_of quota brand <=? 0) eqn:Hwant.
  - intros (b & p & Hb & H)%IH. exists b, p. split; [by right | done].
  - apply Z.leb_gt in Hwant.
    destruct (brand_loop _ up (mk brand) brand _ 1 st) as [st1|f] eqn:Hloop.
    + intros (b & p & Hb & H)%IH. exists b, p. split; [by right | done].
    + intros [= ->]. apply brand_loop_failed in Hloop as (p & Hp & -> & Hup); [|done].
      exists brand, p. split_and!; [left | lia | lia | lia | done | done].
Qed.

Lemma apiKey_of_empty e : apiKey_of e = "" ↔ CRAK_API_KEY e = "" ∧ CRAK_KEY e = "".
Proof.
  unfold apiKey_of.
  destruct (Js.nonempty (CRAK_API_KEY e)) eqn:H1.
  - apply nonempty_true in H1. split; [done | by intros []].
  - apply nonempty_false in H1. destruct (Js.nonempty (CRAK_KEY e)) eqn:H2.
    + apply nonempty_true in H2. split; [done | by intros []].
    + apply nonempty_false in H2. done.
Qed.

(** ** Brand names *)

Lemma toLowerCase_trim s : Js.toLowerCase (Js.trim s) = Js.trim (Js.toLowerCase s).
Proof. unfold Js.trim. by rewrite toLowerCase_trimEnd, toLowerCase_trimStart. Qed.

Lemma normalizeBrand_JStr s :
  normalizeBrand (Some (JStr s)) =
  if negb (Js.nonempty (Js.trim (Js.toLowerCase s))) then ""
  else if Js.includes "bonga" (Js.trim (Js.toLowerCase s)) then "bongacams"
  else if Js.includes "royal" (Js.trim (Js.toLowerCase s)) then "royalcams"
  else Js.trim (Js.toLowerCase s).
Proof. by destruct s. Qed.

(** X11. [normalizeBrand] computes a normal form: its result is left
    unchanged by a second application, by [trim] and by [toLowerCase]; it
    contains "bonga" only if it is "bongacams" and "royal" only if it is
    "royalcams"; and on strings it does not depend on the case of the
    letters or on white space around the name. *)
Theorem X11_normalizeBrand_normal_form (v : option json) (s : string) :
  normalizeBrand (Some (JStr (normalizeBrand v))) = normalizeBrand v ∧
  Js.trim (normalizeBrand v) = normalizeBrand v ∧
  Js.toLowerCase (normalizeBrand v) = normalizeBrand v ∧
  (Js.includes "bonga" (normalizeBrand v) = true ↔ normalizeBrand v = "bongacams") ∧
  (Js.includes "royal" (normalizeBrand v) = true ↔ normalizeBrand v = "royalcams") ∧
  normalizeBrand (Some (JStr (Js.toLowerCase s))) = normalizeBrand (Some (JStr s)) ∧
  normalizeBrand (Some (JStr (Js.trim s))) = normalizeBrand (Some (JStr s)).
Proof.
  split.
  { destruct (decide (normalizeBrand v = "")) as [->|Hne]; [done|].
    by apply normalizeBrand_fixed. }
  assert (∀ t, t = Js.trim (Js.toLowerCase t) →
            Js.trim t = t ∧ Js.toLowerCase t = t) as Hfix.
  { intros t Ht. split.
    - rewrite Ht. apply trim_idem.
    - rewrite Ht at 1. rewrite toLowerCase_trim, toLowerCase_idem. by rewrite <- Ht. }
  unfold normalizeBrand at 1 2 3 4 5 6 7 8.
  set (b := Js.trim (Js.toLowerCase (Js.String_opt (Js.or v (Some (JStr "")))))).
  assert (b = Js.trim (Js.toLowerCase b)) as Hb by (symmetry; apply trim_toLowerCase_fixed).
  apply Hfix in Hb as [Htrim Hlower].
  split_and!.
  - destruct (Js.nonempty b); simpl; [|done].
    destruct (Js.includes "bonga" b); [done|]. by destruct (Js.includes "royal" b).
  - destruct (Js.nonempty b); simpl; [|done].
    destruct (Js.includes "bonga" b); [done|]. by destruct (Js.includes "royal" b).
  - destruct (Js.nonempty b) eqn:Hne; simpl; [|done].
    destruct (Js.includes "bonga" b) eqn:Hbonga; [done|].
    destruct (Js.includes "royal" b) eqn:Hroyal; [done|].
    rewrite Hbonga. split; [done|]. intros Heq. by rewrite Heq in Hbonga.
  - destruct (Js.nonempty b) eqn:Hne; simpl; [|done].
    destruct (Js.includes "bonga" b) eqn:Hbonga; [done|].
    destruct (Js.includes "royal" b) eqn:Hroyal; [done|].
    rewrite Hroyal. split; [done|]. intros Heq. by rewrite Heq in Hroyal.
  - by rewrite !normalizeBrand_JStr, toLowerCase_idem.
  - by rewrite !normalizeBrand_JStr, toLowerCase_trim, trim_idem.
Qed.

Section Split.
Variable sep : ascii.

Lemma split_pieces s :
  Forall (fun w => sep ∉ list_ascii_of_string w) (Js.split sep s).
Proof.
  induction s as [|c r IH]; simpl.
  - repeat constructor. apply not_elem_of_nil.
  - destruct (decide (c = sep)) as [->|Hc].
    + constructor; [apply not_elem_of_nil | done].
    + destruct (Js.split sep r) as [|w ws].
      * repeat constructor. simpl. by intros [?|?%elem_of_nil]%elem_of_cons.
      * apply Forall_cons in IH as [Hw Hws]. constructor; [|done].
        simpl. by intros [?|?]%elem_of_cons.
Qed.

Lemma split_free w : sep ∉ list_ascii_of_string w → Js.split sep w = [w].
Proof.
  induction w as [|c r IH]; simpl; [done|].
  intros [Hc Hr]%not_elem_of_cons. rewrite decide_False by done. by rewrite IH.
Qed.

Lemma split_app w rest :
  sep ∉ list_ascii_of_string w →
  Js.split sep (w +:+ String sep rest) = w :: Js.split sep rest.
Proof.
  induction w as [|c r IH]; simpl.
  - intros _. by rewrite decide_True.
  - intros [Hc Hr]%not_elem_of_cons. rewrite decide_False by done. by rewrite IH.
Qed.

Lemma split_join l :
  l ≠ [] → Forall (fun w => sep ∉ list_ascii_of_string w) l →
  Js.split sep (Js.join (String sep "") l) = l.
Proof.
  intros Hne Hl. induction Hl as [|w r Hw Hr IH]; [done|].
  destruct r as [|w' r'].
  - simpl. by apply split_free.
  - change (Js.join (String sep "") (w :: w' :: r'))
      with (w +:+ String sep (Js.join (String sep "") (w' :: r'))).
    rewrite split_app by done. by rewrite IH.
Qed.
End Split.

Lemma chars_trimStart c s :
  c ∈ list_ascii_of_string (Js.trimStart s) → c ∈ list_ascii_of_string s.
Proof.
  induction s as [|c0 r IH]; simpl; [done|].
  destruct (Js.is_white c0); [|done]. intros ?%IH. by right.
Qed.

Lemma chars_trimEnd c s :
  c ∈ list_ascii_of_string (Js.trimEnd s) → c ∈ list_ascii_of_string s.
Proof.
  induction s as [|c0 r IH]; simpl; [done|].
  destruct (Js.trimEnd r) as [|c1 r1].
  - destruct (Js.is_white c0); simpl; [by intros ?%elem_of_nil|].
    intros [->|?%elem_of_nil]%elem_of_cons; [left | done].
  - simpl in *. intros [->|?]%elem_of_cons; [left | right; by apply IH].
Qed.

Lemma lower_char_comma c : Js.lower_char c = ","%char → c = ","%char.
Proof. destruct c as [[] [] [] [] [] [] [] []]; by vm_compute. Qed.

Lemma comma_free_toLowerCase s : comma_free s → comma_free (Js.toLowerCase s).
Proof.
  unfold comma_free. induction s as [|c r IH]; simpl; [done|].
  intros [Hc Hr]%not_elem_of_cons. apply not_elem_of_cons. split; [|by apply IH].
  intros Heq. apply Hc. symmetry. by apply lower_char_comma.
Qed.

Lemma comma_free_normalizeBrand s : comma_free s → comma_free (normalizeBrand (Some (JStr s))).
Proof.
  intros Hs. rewrite normalizeBrand_JStr.
  destruct (negb _); [apply not_elem_of_nil|].
  destruct (Js.includes "bonga" _); [unfold comma_free; compute_done|].
  destruct (Js.includes "royal" _); [unfold comma_free; compute_done|].
  intros Hin. apply (comma_free_toLowerCase s Hs).
  by apply chars_trimStart, chars_trimEnd.
Qed.

Lemma splitBrands_normalised s : normalised (splitBrands s).
Proof.
  unfold splitBrands. rewrite (list_fmap_compose (fun x => Some (JStr x)) normalizeBrand).
  apply normalised_filter.
Qed.

Lemma splitBrands_comma_free s : Forall comma_free (splitBrands s).
Proof.
  unfold splitBrands. apply Forall_forall. intros b [_ Hin]%list_elem_of_filter.
  apply list_elem_of_fmap in Hin as (w & -> & Hw).
  apply comma_free_normalizeBrand.
  pose proof (split_pieces "," (Js.String_opt (Js.or (Some (JStr s)) (Some (JStr ""))))) as Hp.
  rewrite Forall_forall in Hp. by apply Hp.
Qed.

Lemma splitBrands_join l :
  normalised l → Forall comma_free l → splitBrands (Js.join "," l) = l.
Proof.
  intros Hn Hc. destruct l as [|b r]; [done|].
  unfold splitBrands.
  assert (Js.String_opt (Js.or (Some (JStr (Js.join "," (b :: r)))) (Some (JStr "")))
          = Js.join "," (b :: r)) as ->.
  { by destruct (Js.join "," (b :: r)). }
  rewrite split_join by done. clear Hc.
  induction Hn as [|x l [Hx Hne] _ IH]; [done|].
  rewrite fmap_cons, Hx, filter_cons_True by (by apply nonempty_true). by rewrite IH.
Qed.

(** X12. Whatever string is given for the brands, the list [splitBrands]
    makes of it holds only non-empty normal forms of [normalizeBrand], none
    of which contains a comma; and splitting its comma-joined form again
    gives the same list. *)
Theorem X12_splitBrands_entries s :
  normalised (splitBrands s) ∧
  Forall comma_free (splitBrands s) ∧
  splitBrands (Js.join "," (splitBrands s)) = splitBrands s.
Proof.
  split_and!.
  - apply splitBrands_normalised.
  - apply splitBrands_comma_free.
  - apply splitBrands_join; [apply splitBrands_normalised | apply splitBrands_comma_free].
Qed.

(** X13. A list of brands in normal form and without commas is read back
    from its comma-joined form: the list a run records as [brands] in its
    files, joined by commas, is a [--brands] argument for the same list. *)
Theorem X13_splitBrands_round_trip l :
  normalised l → Forall comma_free l → splitBrands (Js.join "," l) = l.
Proof. apply splitBrands_join. Qed.

Lemma X13_witness : splitBrands (Js.join "," ["stripchat"; "bongacams"]) = ["stripchat"; "bongacams"].
Proof.
  apply (X13_splitBrands_round_trip ["stripchat"; "bongacams"]).
  - repeat constructor; by vm_compute.
  - repeat constructor; unfold comma_free; compute_done.
Defined.

(** ** Quotas of a list with repeated brands *)







(** ** Comparing identifier lists, and the write decision *)


Lemma prevIds_of_falsy prevCat : Js.truthy prevCat = false → prevIds_of prevCat = [].
Proof. unfold prevIds_of. by intros ->. Qed.

Lemma prevBrands_of_falsy prevCat : Js.truthy prevCat = false → prevBrands_of prevCat = [].
Proof. unfold prevBrands_of. by intros ->. Qed.

(** X16. The catalog file is written exactly when the run reseeds or the
    identifiers changed: the third condition of the test, a missing
    previous catalog, adds nothing, because a catalog file that is missing,
    unreadable or holds a falsy value gives no previous identifier and no
    previous brand, which makes the run reseed, without the warning of a
    changed brand list. *)
Theorem X16_write_decision e o c up d r :
  main e o c up d = Done r →
  r_catalog_written r = r_needReseed r || r_idsChanged r ∧
  (Js.truthy (readJSONIfExists (catalog_json d)) = false →
     r_prevIds r = [] ∧ r_prevBrands r = [] ∧ r_brandsChanged r = false ∧
     r_needReseed r = true ∧ r_catalog_written r = true ∧
     (brands_warning ∉ r_warnings r)).
Proof.
  intros Hrun. apply main_Done in Hrun as (st & Hst & ->).
  cbn [reconcile r_catalog_written r_needReseed r_idsChanged r_prevIds r_prevBrands
         r_brandsChanged r_warnings].
  destruct (Js.truthy (readJSONIfExists (catalog_json d))) eqn:Hcat.
  - split; [by rewrite orb_false_r | done].
  - rewrite (prevIds_of_falsy _ Hcat), (prevBrands_of_falsy _ Hcat).
    assert (∀ bc, needReseed_of (opt_reseed o) [] bc = true) as Hseed.
    { intros bc. unfold needReseed_of. simpl. by rewrite orb_true_r. }
    rewrite !Hseed. split; [done|].
    intros _. split_and!; try done.
    unfold brandsChanged_of. simpl. exact (fetch_all_warned _ _ _ _ _ Hst).
Qed.

Lemma X16_witness :
  ∃ r, main Sample.env (Sample.opts 3 "x") Sample.clock1
         (Sample.serve [Sample.performer "4"]) Sample.disk_empty = Done r ∧
       r_catalog_written r = r_needReseed r || r_idsChanged r ∧
       r_needReseed r = true.
Proof.
  eexists. split; [vm_compute; reflexivity|].
  edestruct (X16_write_decision Sample.env (Sample.opts 3 "x") Sample.clock1
               (Sample.serve [Sample.performer "4"]) Sample.disk_empty)
    as (Hwritten & Hmissing); [vm_compute; reflexivity|].
  split; [exact Hwritten|]. apply Hmissing. reflexivity.
Defined.

(** X17. After every completed run the catalog file is in step with the
    run, whether it was written or left alone. When the file was written it
    holds the identifiers of the run. When it was left alone it holds the
    previous identifiers, and these, cut as [slice(0, max)] cuts, are the
    identifiers of the run. So for a whole number [max] the identifiers read
    from the file, cut to [max], are the identifiers of the run. *)
Theorem X17_catalog_file_in_step e o c up d r :
  main e o c up d = Done r →
  (r_catalog_written r = true →
     prevIds_of (readJSONIfExists (catalog_json (r_disk r))) = r_outIds r) ∧
  (r_catalog_written r = false →
     prevIds_of (readJSONIfExists (catalog_json (r_disk r))) = r_prevIds r ∧
     take (Z.to_nat (Js.trunc (r_max r))) (r_prevIds r) = r_outIds r) ∧
  (∀ m : Z, (r_max r == inject_Z m)%Q →
     take (Z.to_nat m) (prevIds_of (readJSONIfExists (catalog_json (r_disk r))))
       = r_outIds r).
Proof.
  intros Hrun. destruct (catalog_bounds _ _ _ _ _ _ Hrun) as (_ & Hlen & _).
  apply main_Done in Hrun as (st & _ & ->).
  destruct (reconcile_merged o c d st) as (Hkeyed & _ & Hin).
  assert (Forall (fun x => x ≠ "") (r_outIds (reconcile o c d st))) as Hne.
  { eapply Forall_impl; [exact Hin|]. intros x. by apply keyed_has_nonempty. }
  revert Hlen Hne.
  cbn [reconcile r_disk catalog_json r_catalog_written r_outIds r_max r_prevIds].
  set (outIds := outIds (build_catalog _ _ _ _ _)).
  set (prevIds := prevIds_of (readJSONIfExists (catalog_json d))).
  intros Hlen Hne.
  destruct (needReseed_of _ _ _ || negb (arraysEqual _ _) || negb _) eqn:Hw.
  - cbn [readJSONIfExists]. rewrite prevIds_of_written by done.
    split_and!; [done | done |].
    intros m Hm. rewrite (whole_ceiling _ _ Hm) in Hlen. apply firstn_all2. lia.
  - apply orb_false_iff in Hw as [[_ Hsame]%orb_false_iff _].
    apply negb_false_iff, arraysEqual_strings in Hsame.
    split_and!; [done | done |].
    intros m Hm. by rewrite <- (whole_trunc _ _ Hm).
Qed.

Lemma X17_witness :
  ∃ r, main Sample.env (Sample.opts 2 "x") Sample.clock1 (Sample.serve [])
         Sample.disk_full = Done r ∧
       r_catalog_written r = false ∧
       prevIds_of (readJSONIfExists (catalog_json (r_disk r))) = ["1"; "2"; "3"] ∧
       take 2 (prevIds_of (readJSONIfExists (catalog_json (r_disk r)))) = r_outIds r.
Proof.
  eexists. split; [vm_compute; reflexivity|]. split; [vm_compute; reflexivity|].
  split; [vm_compute; reflexivity|].
  edestruct (X17_catalog_file_in_step Sample.env (Sample.opts 2 "x") Sample.clock1
           (Sample.serve []) Sample.disk_full) as (_ & _ & Hwhole);
    [vm_compute; reflexivity|].
  apply (Hwhole 2). reflexivity.
Defined.

(** ** Command-line arguments *)

Lemma indexOf_from_found i name pre rest :
  name ∉ pre → indexOf_from i name (pre ++ name :: rest) = i + Z.of_nat (length pre).
Proof.
  revert i. induction pre as [|x pre IH]; intros i Hpre; simpl.
  - rewrite String.eqb_refl. lia.
  - apply not_elem_of_cons in Hpre as [Hx Hpre].
    destruct (String.eqb x name) eqn:Heq; [by apply String.eqb_eq in Heq|].
    rewrite IH by done. lia.
Qed.

Lemma indexOf_from_absent i name argv : name ∉ argv → indexOf_from i name argv = -1.
Proof.
  revert i. induction argv as [|x argv IH]; intros i Hargv; simpl; [done|].
  apply not_elem_of_cons in Hargv as [Hx Hargv].
  destruct (String.eqb x name) eqn:Heq; [by apply String.eqb_eq in Heq|].
  by apply IH.
Qed.

Lemma hasFlag_elem argv name : hasFlag argv name = true ↔ name ∈ argv.
Proof.
  unfold hasFlag. rewrite existsb_exists. split.
  - intros (x & Hin & ->%String.eqb_eq). by apply list_elem_of_In.
  - intros Hin. exists name. split; [by apply list_elem_of_In | apply String.eqb_refl].
Qed.

(** X18. How the command line is read. An option takes the argument that
    follows the first mention of its name, whatever that argument is and
    whatever comes later; when the first mention is the last argument, or
    the name is not mentioned, the default is taken. A flag is set exactly
    when its name is among the arguments, wherever it stands, so an argument
    taken as the value of an option still counts as a flag. *)
Theorem X18_arg_first_mention pre name v post dflt :
  name ∉ pre →
  arg (pre ++ name :: v :: post) name dflt = Some v ∧
  arg (pre ++ [name]) name dflt = dflt ∧
  arg pre name dflt = dflt ∧
  (∀ argv flag, hasFlag argv flag = true ↔ flag ∈ argv) ∧
  hasFlag (pre ++ name :: v :: post) v = true ∧
  hasFlag pre name = false.
Proof.
  intros Hpre. split_and!.
  - unfold arg. rewrite indexOf_from_found by done.
    rewrite length_app. cbn [length].
    replace (0 <=? 0 + Z.of_nat (length pre)) with true by (symmetry; apply Z.leb_le; lia).
    replace (0 + Z.of_nat (length pre) + 1 <? Z.of_nat (length pre + S (S (length post))))
      with true by (symmetry; apply Z.ltb_lt; lia).
    cbn [andb].
    replace (Z.to_nat (0 + Z.of_nat (length pre) + 1)) with (length (pre ++ [name]))
      by (rewrite length_app; simpl; lia).
    change (pre ++ name :: v :: post) with (pre ++ [name] ++ v :: post).
    rewrite app_assoc. apply list_lookup_middle. done.
  - unfold arg. rewrite indexOf_from_found by done.
    rewrite length_app. cbn [length].
    replace (0 + Z.of_nat (length pre) + 1 <? Z.of_nat (length pre + 1))
      with false by (symmetry; apply Z.ltb_ge; lia).
    by rewrite andb_false_r.
  - unfold arg. by rewrite indexOf_from_absent by done.
  - intros argv flag. apply hasFlag_elem.
  - apply hasFlag_elem. rewrite elem_of_app, !elem_of_cons. tauto.
  - apply not_true_iff_false. by rewrite hasFlag_elem.
Qed.

Lemma X18_witness :
  arg ["node"; "sync_models.mjs"; "--max"; "--reseed"; "--max"; "5"] "--max" (Some "10000")
    = Some "--reseed" ∧
  hasFlag ["node"; "sync_models.mjs"; "--max"; "--reseed"; "--max"; "5"] "--reseed" = true ∧
  hasFlag ["node"; "sync_models.mjs"; "--max"; "5"; "--reseed"] "--reseed" = true ∧
  hasFlag ["node"; "sync_models.mjs"; "--max"; "5"] "--reseed" = false.
Proof.
  edestruct (X18_arg_first_mention ["node"; "sync_models.mjs"] "--max" "--reseed"
               ["--max"; "5"] (Some "10000")) as (Hval & _ & _ & Hflags & Hflag & _).
  - compute_done.
  - split_and!; [exact Hval | exact Hflag | |].
    + apply Hflags. compute_done.
    + apply not_true_iff_false. rewrite Hflags. compute_done.
Defined.

(** ** Where the records come from *)

Lemma got_accept_same brand id p st p' :
  p' ∈ got brand (accept brand id p st) → p' ∈ got brand st ∨ p' = p.
Proof.
  unfold got, accept. simpl. destruct (JsMap.get brand (freshByBrand st)) as [l|] eqn:Hget.
  - rewrite get_set_eq. rewrite elem_of_app, list_elem_of_singleton. tauto.
  - rewrite Hget. by left.
Qed.

Lemma take_page_traced up brand want arr st rq :
  traced up st → rq ∈ requested st → rq_brand rq = brand →
  (∀ p, p ∈ arr → p ∈ page_records up rq) →
  traced up (take_page brand want arr st).
Proof.
  intros Hst Hrq Hbrand. revert st Hst Hrq.
  induction arr as [|p r IH]; intros st Hst Hrq Harr; simpl; [done|].
  assert (∀ q, q ∈ r → q ∈ page_records up rq) as Hr by (intros q Hq; apply Harr; by right).
  destruct (negb _); [by apply IH|].
  destruct (decide _); [by apply IH|].
  assert (traced up (accept brand (idFor p) p st)) as Hacc.
  { intros b q Hq. destruct (decide (b = brand)) as [->|Hb].
    - apply got_accept_same in Hq as [Hq| ->]; [by apply Hst|].
      exists rq. split_and!; [done | done | apply Harr; left].
    - rewrite got_accept_other in Hq by done. by apply Hst. }
  destruct (_ <=? _); [done|]. by apply IH.
Qed.

Lemma logged_traced up rq w st : traced up st → traced up (logged rq w st).
Proof.
  intros Hst b p Hp. rewrite got_logged in Hp.
  destruct (Hst b p Hp) as (rq' & Hin & Hb & Hrec).
  exists rq'. split_and!; [|done..]. simpl. apply elem_of_app. by left.
Qed.

Lemma brand_loop_traced fuel up mk brand want page st :
  (∀ p, rq_brand (mk p) = brand) → traced up st →
  after (traced up) (brand_loop fuel up mk brand want page st).
Proof.
  intros Hmk. revert page st. induction fuel as [|fuel IH]; intros page st Hst; cbn [brand_loop].
  - by destruct (_ <? want).
  - destruct (_ <? want); [|done].
    destruct (fetchPage up (mk page)) as [[arr w]|f] eqn:Hpage; simpl; [|done].
    destruct arr as [|p arr]; cbv beta iota.
    + by apply logged_traced.
    + assert (traced up (take_page brand want (p :: arr) (logged (mk page) w st))) as Hnext.
      { apply (take_page_traced up brand want (p :: arr) _ (mk page)).
        - by apply logged_traced.
        - simpl. apply elem_of_app. right. left.
        - apply Hmk.
        - intros q Hq. unfold page_records. by rewrite Hpage. }
      destruct (take_page_throws _ _ _ _) eqn:Hthrows; [done|].
      destruct (page_cap <? page + 1); [done|]. by apply IH.
Qed.

Lemma fetch_brands_traced up mk quota brands st :
  (∀ b p, rq_brand (mk b p) = b) → traced up st →
  after (traced up) (fetch_brands up mk quota brands st).
Proof.
  intros Hmk. revert st. induction brands as [|brand r IH]; intros st Hst; [done|].
  rewrite fetch_brands_cons. destruct (want_of quota brand <=? 0); [by apply IH|].
  pose proof (brand_loop_traced (Z.to_nat page_cap) up (mk brand) brand
                (want_of quota brand) 1 st (Hmk brand) Hst) as Hloop.
  destruct (brand_loop _ up (mk brand) brand _ 1 st) as [st1|f]; [|done].
  by apply IH.
Qed.

Lemma merged_from fresh prevArr k p :
  k ≠ "" → JsMap.get k (merge_fresh fresh (build_prevMap prevArr [])) = Some p →
  p ∈ prevArr ∨ p ∈ fresh.
Proof.
  intros Hk. rewrite merge_fresh_get, build_prevMap_get by done. simpl.
  destruct (last (filter _ fresh)) as [q|] eqn:Hlast.
  - intros [= ->]. right. apply last_Some in Hlast as [l Hl].
    assert (p ∈ filter (fun p => idFor p = k) fresh) as Hin.
    { rewrite Hl. apply elem_of_app. right. left. }
    by apply list_elem_of_filter in Hin as [_ ?].
  - intros Hhead. left. apply head_Some in Hhead as [l Hl].
    assert (p ∈ filter (fun p => idFor p = k) prevArr) as Hin.
    { rewrite Hl. left. }
    by apply list_elem_of_filter in Hin as [_ ?].
Qed.

Lemma elem_of_concat {A} (x : A) (ls : list (list A)) :
  x ∈ concat ls → ∃ l, x ∈ l ∧ l ∈ ls.
Proof.
  induction ls as [|l ls IH]; simpl; [by intros ?%elem_of_nil|].
  intros [Hx|Hx]%elem_of_app.
  - exists l. split; [done | left].
  - destruct (IH Hx) as (l' & ? & ?). exists l'. split; [done | by right].
Qed.

(** X19. A run makes up no record. Every freshly accumulated record was
    returned by upstream in answer to a request of this run for a listed
    brand, and every record written to the table is one of those or a
    record of the previous table. *)
Theorem X19_records_provenance e o c up d r :
  main e o c up d = Done r →
  (∀ p, p ∈ r_fresh r →
     ∃ rq, rq ∈ r_requests r ∧ rq_brand rq ∈ r_brandList r ∧ p ∈ page_records up rq) ∧
  (∀ p, p ∈ r_outPerformers r → p ∈ prevArr_of d ∨ p ∈ r_fresh r).
Proof.
  intros (st & Hfetch & ->)%main_Done.
  destruct (reconcile_merged o c d st) as (Hkeyed & _ & _).
  revert Hkeyed. cbn [reconcile r_fresh r_requests r_brandList r_outPerformers r_merged].
  intros Hkeyed. split.
  - intros p Hp. unfold collect_fresh in Hp.
    apply elem_of_concat in Hp as (l & Hp & Hl).
    apply list_elem_of_fmap in Hl as (b & -> & Hb).
    unfold fetch_all in Hfetch.
    pose proof (fetch_brands_traced up (request_of e o)
                  (quotas (effective_max o) (brandList_of o d)) (brandList_of o d)
                  {| seen := ∅; freshByBrand := empty_fresh (brandList_of o d);
                     warned := []; requested := [] |}) as Htraced.
    rewrite Hfetch in Htraced. cbn [after] in Htraced.
    destruct (Htraced (fun _ _ => eq_refl)) with (b := b) (p := p) as (rq & Hrq & Hbrand & Hrec).
    + intros b' p'. rewrite got_empty_fresh. by intros ?%elem_of_nil.
    + done.
    + exists rq. split_and!; [done | by rewrite Hbrand | done].
  - intros p Hp. unfold select_performers in Hp.
    apply list_elem_of_omap in Hp as (id & _ & Hget).
    destruct (JsMap.get id _) as [q|] eqn:Hq; [|done].
    destruct (Js.truthy (Some q)); [|done]. injection Hget as ->.
    assert (id ≠ "") as Hid.
    { eapply keyed_has_nonempty; [exact Hkeyed|]. unfold JsMap.has. by rewrite Hq. }
    by apply (merged_from _ _ id).
Qed.

Lemma X19_witness :
  ∃ r, main Sample.env (Sample.opts 3 "x") Sample.clock1
         (Sample.serve [Sample.performer "4"]) Sample.disk_123 = Done r ∧
       r_outPerformers r = [Sample.performer "1"; Sample.performer "3"; Sample.performer "4"] ∧
       (∀ p, p ∈ r_outPerformers r → p ∈ prevArr_of Sample.disk_123 ∨ p ∈ r_fresh r).
Proof.
  eexists. split; [vm_compute; reflexivity|]. split; [vm_compute; reflexivity|].
  apply (X19_records_provenance Sample.env (Sample.opts 3 "x") Sample.clock1
           (Sample.serve [Sample.performer "4"]) Sample.disk_123).
  vm_compute; reflexivity.
Defined.

(** ** The brand list of a run *)

(** X20. The brand list of a run is never empty and holds only non-empty
    normal forms of [normalizeBrand]. The brands of the command line are
    taken whenever at least one name is left of them, whatever the
    configuration says; otherwise the list depends on the configuration
    file alone, not on the data files, and is the built-in default when
    that file is missing or does not parse. *)
Theorem X20_brand_list o d d' :
  brandList_of o d ≠ [] ∧
  normalised (brandList_of o d) ∧
  (splitBrands (opt_brands o) ≠ [] → brandList_of o d = splitBrands (opt_brands o)) ∧
  (site_config d = site_config d' → brandList_of o d = brandList_of o d') ∧
  (splitBrands (opt_brands o) = [] → readJSONIfExists (site_config d) = None →
     brandList_of o d = default_brands).
Proof.
  split_and!.
  - apply brandList_of_nonempty.
  - apply brandList_of_normalised.
  - unfold brandList_of. by destruct (splitBrands (opt_brands o)).
  - apply brandList_of_disk.
  - unfold brandList_of, getDefaultBrandsFromConfig. by intros -> ->.
Qed.

Lemma X20_witness :
  brandList_of (Sample.opts 3 " Bonga , x,, ") Sample.disk_empty = ["bongacams"; "x"] ∧
  brandList_of (Sample.opts 3 " , ") Sample.disk_empty = default_brands.
Proof.
  destruct (X20_brand_list (Sample.opts 3 " Bonga , x,, ") Sample.disk_empty
              Sample.disk_empty) as (_ & _ & Hcli & _).
  destruct (X20_brand_list (Sample.opts 3 " , ") Sample.disk_empty
              Sample.disk_empty) as (_ & _ & _ & _ & Hdefault).
  split.
  - rewrite Hcli; [vm_compute; reflexivity | by vm_compute].
  - apply Hdefault; vm_compute; reflexivity.
Defined.

(** ** Which records a brand contributes *)

#[local] Set Warnings "-clear-no-such-hyp".

Lemma first_new_app S a b :
  first_new S (a ++ b) =
  first_new S a ++ first_new (list_to_set (idFor <$> first_new S a) ∪ S) b.
Proof.
  revert S. induction a as [|p a IH]; intros S.
  - simpl. f_equal. set_solver.
  - cbn [app first_new].
    destruct (Js.nonempty (idFor p) && bool_decide (idFor p ∉ S)).
    + rewrite IH. rewrite fmap_cons. cbn [app]. do 3 f_equal. set_solver.
    + apply IH.
Qed.

Lemma take_first_new_app n S a b :
  take n (first_new S (a ++ b)) =
  take n (first_new S a) ++
  take (n - length (take n (first_new S a)))
    (first_new (list_to_set (idFor <$> take n (first_new S a)) ∪ S) b).
Proof.
  rewrite first_new_app, take_app, length_take.
  destruct (decide (n ≤ length (first_new S a))%nat) as [Hle|Hgt].
  - replace (n - length (first_new S a))%nat with 0%nat by lia.
    replace (n - n `min` length (first_new S a))%nat with 0%nat by lia.
    done.
  - rewrite (take_ge (first_new S a)) by lia.
    by replace (n `min` length (first_new S a))%nat with (length (first_new S a)) by lia.
Qed.

Lemma get_accept_other brand id p st b :
  b ≠ brand →
  JsMap.get b (freshByBrand (accept brand id p st)) = JsMap.get b (freshByBrand st).
Proof.
  intros Hb. unfold accept. simpl.
  destruct (JsMap.get brand (freshByBrand st)); [|done]. by apply get_set_ne.
Qed.

Lemma take_page_selects brand want arr st l0 :
  JsMap.get brand (freshByBrand st) = Some l0 →
  Z.of_nat (length l0) < want →
  ∃ t, t = take (Z.to_nat (want - Z.of_nat (length l0))) (first_new (seen st) arr) ∧
       JsMap.get brand (freshByBrand (take_page brand want arr st)) = Some (l0 ++ t) ∧
       seen (take_page brand want arr st) = list_to_set (idFor <$> t) ∪ seen st ∧
       ∀ b, b ≠ brand →
         JsMap.get b (freshByBrand (take_page brand want arr st)) =
         JsMap.get b (freshByBrand st).
Proof.
  revert st l0. induction arr as [|p r IH]; intros st l0 Hget Hlt.
  - exists []. cbn [take_page first_new]. rewrite take_nil, app_nil_r.
    split_and!; [done | done | set_solver | done].
  - cbn [take_page first_new].
    destruct (Js.nonempty (idFor p)) eqn:Hid; cbn [negb andb]; [|by apply IH].
    destruct (decide (idFor p ∈ seen st)) as [Hseen|Hseen].
    { rewrite bool_decide_eq_false_2 by tauto. by apply IH. }
    rewrite bool_decide_eq_true_2 by done.
    assert (JsMap.get brand (freshByBrand (accept brand (idFor p) p st)) = Some (l0 ++ [p]))
      as Hget'.
    { unfold accept. simpl. rewrite Hget. apply get_set_eq. }
    assert (got brand (accept brand (idFor p) p st) = l0 ++ [p]) as Hgot.
    { unfold got. by rewrite Hget'. }
    rewrite Hgot, length_app. cbn [length].
    destruct (want <=? Z.of_nat (length l0 + 1)) eqn:Hfull.
    + apply Z.leb_le in Hfull. exists [p].
      replace (Z.to_nat (want - Z.of_nat (length l0))) with 1%nat by lia.
      split_and!; [done | done | simpl; set_solver |].
      intros b Hb. by apply get_accept_other.
    + apply Z.leb_gt in Hfull.
      destruct (IH (accept brand (idFor p) p st) (l0 ++ [p]) Hget') as (t & Ht & Hg & Hs & Ho).
      { rewrite length_app. simpl. lia. }
      exists (p :: t). split_and!.
      * replace (Z.to_nat (want - Z.of_nat (length l0)))
          with (S (Z.to_nat (want - Z.of_nat (length (l0 ++ [p])))))
          by (rewrite length_app; simpl; lia).
        cbn [take]. by rewrite Ht.
      * by rewrite Hg, <- app_assoc.
      * rewrite Hs. simpl. set_solver.
      * intros b Hb. rewrite Ho by done. by apply get_accept_other.
Qed.

Lemma brand_loop_selects fuel up mk brand want page st st' l0 :
  JsMap.get brand (freshByBrand st) = Some l0 →
  page ≤ page_cap →
  brand_loop fuel up mk brand want page st = Done st' →
  ∃ k t, 0 ≤ k ∧ page + k ≤ page_cap + 1 ∧
         requested st' = requested st ++ (mk <$> seqZ page k) ∧
         t = take (Z.to_nat (want - Z.of_nat (length l0)))
               (first_new (seen st) (concat (page_records up <$> (mk <$> seqZ page k)))) ∧
         JsMap.get brand (freshByBrand st') = Some (l0 ++ t) ∧
         seen st' = list_to_set (idFor <$> t) ∪ seen st ∧
         ∀ b, b ≠ brand →
           JsMap.get b (freshByBrand st') = JsMap.get b (freshByBrand st).
Proof.
  unfold page_cap.
  revert page st l0. induction fuel as [|fuel IH]; intros page st l0 Hget Hpage;
    cbn [brand_loop]; unfold got at 1; rewrite Hget.
  - destruct (_ <? want) eqn:Hlt; [done|]. apply Z.ltb_ge in Hlt. intros [= <-].
    exists 0, []. rewrite seqZ_nil, !app_nil_r by done.
    replace (Z.to_nat (want - Z.of_nat (length l0))) with 0%nat by lia.
    split_and!; [lia | lia | done | done | done | set_solver | done].
  - destruct (_ <? want) eqn:Hlt; [apply Z.ltb_lt in Hlt|apply Z.ltb_ge in Hlt].
    2:{ intros [= <-]. exists 0, []. rewrite seqZ_nil, !app_nil_r by done.
        replace (Z.to_nat (want - Z.of_nat (length l0))) with 0%nat by lia.
        split_and!; [lia | lia | done | done | done | set_solver | done]. }
    destruct (fetchPage up (mk page)) as [[arr w]|f] eqn:Hfetch; simpl; [|done].
    assert (page_records up (mk page) = arr) as Hrec by (unfold page_records; by rewrite Hfetch).
    destruct arr as [|p arr]; cbv beta iota.
    + intros [= <-]. exists 1, [].
      change (seqZ page 1) with [page]. rewrite !fmap_cons, !fmap_nil. cbn [concat].
      rewrite Hrec. simpl. rewrite take_nil, app_nil_r.
      split_and!; [lia | lia | done | done | done | set_solver | done].
    + destruct (take_page_selects brand want (p :: arr) (logged (mk page) w st) l0 Hget Hlt)
        as (t1 & Ht1 & Hg1 & Hs1 & Ho1).
      pose proof (take_page_logs brand want (p :: arr) (logged (mk page) w st)) as [_ Hreq].
      set (st2 := take_page brand want (p :: arr) (logged (mk page) w st)) in *.
      cbn [logged seen] in Ht1, Hs1.
      destruct (take_page_throws _ _ _ _) eqn:Hthrows; [done|].
      destruct (page_cap <? page + 1) eqn:Hcap;
        [apply Z.ltb_lt in Hcap | apply Z.ltb_ge in Hcap]; unfold page_cap in Hcap.
      * intros [= <-]. exists 1, t1.
        change (seqZ page 1) with [page]. rewrite !fmap_cons, !fmap_nil. cbn [concat].
        rewrite Hrec, app_nil_r.
        split_and!; [lia | lia | by rewrite Hreq | done | done | done |].
        intros b Hb. by rewrite Ho1.
      * intros Hrun.
        apply (IH (page + 1) st2 (l0 ++ t1) Hg1) in Hrun
          as (k & t2 & Hk & Hcapk & Hrequested & Ht2 & Hg2 & Hs2 & Ho2); [|lia].
        exists (k + 1), (t1 ++ t2).
        assert (seqZ page (k + 1) = page :: seqZ (page + 1) k) as Hseq.
        { rewrite (seqZ_cons page (k + 1)) by lia.
          replace (Z.succ page) with (page + 1) by lia.
          by replace (Z.pred (k + 1)) with k by lia. }
        rewrite Hseq, !fmap_cons. cbn [concat]. rewrite Hrec.
        split_and!; [lia | lia | | | | |].
        -- rewrite Hrequested, Hreq. simpl. by rewrite <- app_assoc.
        -- rewrite take_first_new_app, <- Ht1. f_equal. rewrite Ht2, Hs1. f_equal.
           rewrite length_app. lia.
        -- by rewrite Hg2, app_assoc.
        -- rewrite Hs2, Hs1, fmap_app. set_solver.
        -- intros b Hb. by rewrite Ho2, Ho1.
Qed.

(** The loop makes a request only while the quota is unmet, and goes on to
    the next page only after a page with records. *)
Lemma brand_loop_stops fuel up mk brand want page st st' l0 :
  JsMap.get brand (freshByBrand st) = Some l0 →
  page ≤ page_cap →
  brand_loop fuel up mk brand want page st = Done st' →
  ∃ k, 0 ≤ k ∧ page + k ≤ page_cap + 1 ∧
       requested st' = requested st ++ (mk <$> seqZ page k) ∧
       got brand st' =
         l0 ++ take (Z.to_nat (want - Z.of_nat (length l0)))
                 (first_new (seen st) (concat (page_records up <$> (mk <$> seqZ page k)))) ∧
       (∀ j, 0 ≤ j < k →
          Z.of_nat (length l0) +
          Z.of_nat (length (first_new (seen st)
                              (concat (page_records up <$> (mk <$> seqZ page j))))) < want) ∧
       (∀ j, 0 ≤ j < k - 1 → page_records up (mk (page + j)) ≠ []) ∧
       (want ≤ Z.of_nat (length (got brand st')) ∨
        (0 < k ∧ page_records up (mk (page + k - 1)) = []) ∨
        page + k = page_cap + 1).
Proof.
  unfold page_cap.
  revert page st l0. induction fuel as [|fuel IH]; intros page st l0 Hget Hpage;
    cbn [brand_loop]; unfold got at 1; rewrite Hget.
  - destruct (_ <? want) eqn:Hlt; [done|]. apply Z.ltb_ge in Hlt. intros [= <-].
    exists 0. rewrite seqZ_nil, !app_nil_r by done.
    replace (Z.to_nat (want - Z.of_nat (length l0))) with 0%nat by lia.
    unfold got. rewrite Hget, take_0, app_nil_r.
    split_and!; [lia | lia | done | done | intros; lia | intros; lia | by left].
  - destruct (_ <? want) eqn:Hlt; [apply Z.ltb_lt in Hlt|apply Z.ltb_ge in Hlt].
    2:{ intros [= <-]. exists 0. rewrite seqZ_nil, !app_nil_r by done.
        replace (Z.to_nat (want - Z.of_nat (length l0))) with 0%nat by lia.
        unfold got. rewrite Hget, take_0, app_nil_r.
        split_and!; [lia | lia | done | done | intros; lia | intros; lia | by left]. }
    destruct (fetchPage up (mk page)) as [[arr w]|f] eqn:Hfetch; simpl; [|done].
    assert (page_records up (mk page) = arr) as Hrec by (unfold page_records; by rewrite Hfetch).
    assert (∀ j, 0 ≤ j < 1 →
              Z.of_nat (length l0) +
              Z.of_nat (length (first_new (seen st)
                                  (concat (page_records up <$> (mk <$> seqZ page j))))) < want)
      as Hfirst.
    { intros j Hj. replace j with 0 by lia. rewrite seqZ_nil by done. simpl. lia. }
    destruct arr as [|p arr]; cbv beta iota.
    + intros [= <-]. exists 1.
      change (seqZ page 1) with [page]. rewrite !fmap_cons, !fmap_nil. cbn [concat].
      rewrite Hrec. cbn [app first_new]. rewrite take_nil, app_nil_r.
      unfold got. cbn [logged freshByBrand]. rewrite Hget.
      split_and!; [lia | lia | done | done | exact Hfirst | intros; lia |].
      right. left. split; [lia|]. by replace (page + 1 - 1) with page by lia.
    + destruct (take_page_selects brand want (p :: arr) (logged (mk page) w st) l0 Hget Hlt)
        as (t1 & Ht1 & Hg1 & Hs1 & _).
      pose proof (take_page_logs brand want (p :: arr) (logged (mk page) w st)) as [_ Hreq].
      set (st2 := take_page brand want (p :: arr) (logged (mk page) w st)) in *.
      cbn [logged seen] in Ht1, Hs1.
      destruct (take_page_throws _ _ _ _) eqn:Hthrows; [done|].
      destruct (page_cap <? page + 1) eqn:Hcap;
        [apply Z.ltb_lt in Hcap | apply Z.ltb_ge in Hcap]; unfold page_cap in Hcap.
      * intros [= <-]. exists 1.
        change (seqZ page 1) with [page]. rewrite !fmap_cons, !fmap_nil. cbn [concat].
        rewrite Hrec, app_nil_r. unfold got at 1. rewrite Hg1, <- Ht1.
        split_and!; [lia | lia | by rewrite Hreq | done | exact Hfirst | intros; lia |].
        right. right. lia.
      * intros Hrun.
        apply (IH (page + 1) st2 (l0 ++ t1) Hg1) in Hrun
          as (k & Hk & Hcapk & Hrequested & Hgot & Hunmet & Hfilled & Hstop); [|lia].
        exists (k + 1).
        assert (∀ j, 0 ≤ j → seqZ page (j + 1) = page :: seqZ (page + 1) j) as Hseq.
        { intros j Hj. rewrite (seqZ_cons page (j + 1)) by lia.
          replace (Z.succ page) with (page + 1) by lia.
          by replace (Z.pred (j + 1)) with j by lia. }
        split_and!; [lia | lia | | | | |].
        -- rewrite Hrequested, Hreq, Hseq by done. simpl. by rewrite <- app_assoc.
        -- rewrite Hgot, Hseq, !fmap_cons by done. cbn [concat]. rewrite Hrec.
           rewrite take_first_new_app, <- Ht1, <- app_assoc, Hs1, length_app.
           do 3 f_equal. lia.
        -- intros j Hj. destruct (decide (j = 0)) as [->|Hj0]; [apply Hfirst; lia|].
           pose proof (Hunmet 0 ltac:(lia)) as Hzero.
           specialize (Hunmet (j - 1) ltac:(lia)).
           rewrite length_app in Hunmet, Hzero.
           assert (t1 = first_new (seen st) (p :: arr)) as Hall.
           { assert (length t1 < Z.to_nat (want - Z.of_nat (length l0)))%nat as Hshort by lia.
             rewrite Ht1 in Hshort |- *. rewrite length_take in Hshort.
             apply take_ge. lia. }
           replace j with ((j - 1) + 1) by lia.
           rewrite Hseq, !fmap_cons by lia. cbn [concat]. rewrite Hrec.
           rewrite first_new_app, length_app, <- Hall, <- Hs1. lia.
        -- intros j Hj. destruct (decide (j = 0)) as [->|Hj0].
           ++ rewrite Z.add_0_r, Hrec. done.
           ++ replace (page + j) with (page + 1 + (j - 1)) by lia. apply Hfilled. lia.
        -- destruct Hstop as [?|[[? Hempty]|?]]; [by left | | right; right; lia].
           right. left. split; [lia|].
           by replace (page + (k + 1) - 1) with (page + 1 + k - 1) by lia.
Qed.

(** C8. The loop of a brand with a positive quota ends: 250 units of fuel
    are as good as any larger amount and are never exhausted. It requests
    the pages 1, 2, ... in turn, at most 250 of them, and is left as soon as
    the quota is met, or a page came without records, or page 250 has been
    taken: every request is made with the quota still unmet by the records
    of the pages before it, every page before the last one requested came
    with records, and the brand ends with the first new records of the
    requested pages, up to its quota. A first page without records ends the
    loop of the brand with nothing added and the run goes on with the next
    brand. No request of a completed run asks for a page beyond 250. *)
Theorem C8_fetch_loop_terminates up mk brand want :
  0 < want →
  (∀ fuel st, (Z.to_nat page_cap ≤ fuel)%nat →
     brand_loop fuel up mk brand want 1 st =
       brand_loop (Z.to_nat page_cap) up mk brand want 1 st ∧
     brand_loop (Z.to_nat page_cap) up mk brand want 1 st ≠ Failed OutOfFuel) ∧
  (∀ fuel page st, want ≤ Z.of_nat (length (got brand st)) →
     brand_loop fuel up mk brand want page st = Done st) ∧
  (∀ fuel page st w,
     Z.of_nat (length (got brand st)) < want → fetchPage up (mk page) = Done ([], w) →
     brand_loop (S fuel) up mk brand want page st = Done (logged (mk page) w st) ∧
     got brand (logged (mk page) w st) = got brand st) ∧
  (∀ st st', brand_loop (Z.to_nat page_cap) up mk brand want 1 st = Done st' →
     ∃ k, 0 ≤ k ≤ page_cap ∧
          requested st' = requested st ++ (mk <$> seqZ 1 k) ∧
          (want ≤ Z.of_nat (length (got brand st')) ∨
           (0 < k ∧ ∃ w, fetchPage up (mk k) = Done ([], w)) ∨
           k = page_cap)) ∧
  (∀ st st' l0,
     JsMap.get brand (freshByBrand st) = Some l0 →
     brand_loop (Z.to_nat page_cap) up mk brand want 1 st = Done st' →
     ∃ k, 0 ≤ k ≤ page_cap ∧
          requested st' = requested st ++ (mk <$> seqZ 1 k) ∧
          got brand st' =
            l0 ++ take (Z.to_nat (want - Z.of_nat (length l0)))
                    (first_new (seen st)
                       (concat (page_records up <$> (mk <$> seqZ 1 k)))) ∧
          (∀ j, 0 ≤ j < k →
             Z.of_nat (length l0) +
             Z.of_nat (length (first_new (seen st)
                                 (concat (page_records up <$> (mk <$> seqZ 1 j))))) < want) ∧
          (∀ j, 1 ≤ j < k → page_records up (mk j) ≠ []) ∧
          (want ≤ Z.of_nat (length (got brand st')) ∨
           (0 < k ∧ page_records up (mk k) = []) ∨
           k = page_cap)) ∧
  (∀ quota mk' rest st w,
     want_of quota brand = want → mk' brand = mk → got brand st = [] →
     fetchPage up (mk 1) = Done ([], w) →
     fetch_brands up mk' quota (brand :: rest) st =
       fetch_brands up mk' quota rest (logged (mk 1) w st)) ∧
  (∀ e o c d r, main e o c up d = Done r →
     Forall (fun rq => 1 ≤ rq_page rq ≤ page_cap) (r_requests r)).
Proof.
  intros Hwant. split_and!.
  - intros fuel st Hfuel. split.
    + apply brand_loop_fuel; [done | unfold page_cap; lia | done].
    + destruct (brand_loop_result (Z.to_nat page_cap) up mk brand want 1 st)
        as [[st' ->]|[[rq [-> _]]| ->]]; done.
  - intros. by apply brand_loop_quota_met.
  - intros fuel page st w Hlt Hpage. split; [by apply brand_loop_empty_page | done].
  - intros st st' Hrun.
    apply brand_loop_trace in Hrun as (k & Hk & Hcap & Hreq & Hstop); [|done].
    exists k. unfold page_cap in *. split_and!; [lia | lia | done |].
    destruct Hstop as [?|[[? [w Hw]]|?]]; [by left | | right; right; lia].
    right. left. split; [done|]. exists w. by replace k with (1 + k - 1) at 1 by lia.
  - intros st st' l0 Hget Hrun.
    apply (brand_loop_stops _ _ _ _ _ _ _ _ l0 Hget) in Hrun
      as (k & Hk & Hcap & Hreq & Hgot & Hunmet & Hfilled & Hstop); [|done].
    exists k. unfold page_cap in *. split_and!; [lia | lia | done | done | done | |].
    + intros j Hj. replace j with (1 + (j - 1)) by lia. apply Hfilled. lia.
    + destruct Hstop as [?|[[? Hempty]|?]]; [by left | | right; right; lia].
      right. left. split; [done|]. by replace k with (1 + k - 1) by lia.
  - intros quota mk' rest st w Hq <- Hgot Hpage. rewrite fetch_brands_cons, Hq.
    rewrite (proj2 (Z.leb_gt _ _) Hwant).
    change (Z.to_nat page_cap) with (S 249).
    rewrite (brand_loop_empty_page 249 up (mk' brand) brand want 1 st w); [done | | done].
    rewrite Hgot. simpl. lia.
  - intros e o c d r (st & Hst & ->)%main_Done. cbn [reconcile r_requests].
    revert Hst. unfold fetch_all. apply fetch_brands_pages; [done | constructor].
Qed.

Lemma C8_witness :
  0 < 2 ∧
  brand_loop (Z.to_nat page_cap) (Sample.serve Sample.records_x) Sample.request_x "x" 2 1
    Sample.state_x = Done Sample.state_x_taken ∧
  requested Sample.state_x_taken = [Sample.request_x 1] ∧
  got "x" Sample.state_x_taken = [Sample.performer "4"; Sample.performer "5"] ∧
  brand_loop (Z.to_nat page_cap) (Sample.serve []) Sample.request_x "x" 3 1 Sample.state_x =
    Done (logged (Sample.request_x 1) [] Sample.state_x) ∧
  ∃ k, 0 ≤ k ≤ page_cap ∧
       requested Sample.state_x_taken =
         requested Sample.state_x ++ (Sample.request_x <$> seqZ 1 k) ∧
       got "x" Sample.state_x_taken =
         [] ++ take (Z.to_nat (2 - Z.of_nat (length (@nil json))))
                 (first_new (seen Sample.state_x)
                    (concat (page_records (Sample.serve Sample.records_x) <$>
                               (Sample.request_x <$> seqZ 1 k)))) ∧
       (∀ j, 0 ≤ j < k →
          Z.of_nat (length (@nil json)) +
          Z.of_nat (length (first_new (seen Sample.state_x)
                              (concat (page_records (Sample.serve Sample.records_x) <$>
                                         (Sample.request_x <$> seqZ 1 j))))) < 2) ∧
       (∀ j, 1 ≤ j < k → page_records (Sample.serve Sample.records_x) (Sample.request_x j) ≠ []).
Proof.
  assert (0 < 2) as Hwant by lia.
  assert (brand_loop (Z.to_nat page_cap) (Sample.serve Sample.records_x) Sample.request_x
            "x" 2 1 Sample.state_x = Done Sample.state_x_taken) as Hrun
    by (vm_compute; reflexivity).
  destruct (C8_fetch_loop_terminates (Sample.serve Sample.records_x) Sample.request_x "x" 2
              Hwant) as (_ & _ & _ & _ & Hstops & _ & _).
  destruct (C8_fetch_loop_terminates (Sample.serve []) Sample.request_x "x" 3 ltac:(lia))
    as (_ & _ & Hempty & _ & _ & _ & _).
  destruct (Hstops Sample.state_x Sample.state_x_taken [] eq_refl Hrun)
    as (k & Hk & Hreq & Hgot & Hunmet & Hfilled & _).
  split_and!; [lia | exact Hrun | vm_compute; reflexivity | vm_compute; reflexivity | |].
  - change (Z.to_nat page_cap) with (S 249).
    apply (Hempty 249%nat 1 Sample.state_x []); [simpl; lia | reflexivity].
  - exists k. split_and!; [lia | lia | exact Hreq | exact Hgot | exact Hunmet | exact Hfilled].
Defined.

(** X21. What the loop of a brand adds. Entered with [n] records still
    wanted for the brand, the loop requests pages 1 to [k], for some [k] of
    at most 250, and of the records of these pages, in the order upstream
    returned them, it takes the first [n] that have an identifier which
    was not seen before, in this run or earlier on these pages. It marks
    exactly the identifiers of the records it took as seen, and leaves the
    records of every other brand alone. *)
Theorem X21_brand_loop_selection up mk brand want st st' l0 :
  JsMap.get brand (freshByBrand st) = Some l0 →
  brand_loop (Z.to_nat page_cap) up mk brand want 1 st = Done st' →
  ∃ k t, 0 ≤ k ≤ page_cap ∧
         requested st' = requested st ++ (mk <$> seqZ 1 k) ∧
         t = take (Z.to_nat (want - Z.of_nat (length l0)))
               (first_new (seen st) (concat (page_records up <$> (mk <$> seqZ 1 k)))) ∧
         got brand st' = l0 ++ t ∧
         seen st' = list_to_set (idFor <$> t) ∪ seen st ∧
         ∀ b, b ≠ brand → got b st' = got b st.
Proof.
  intros Hget Hrun.
  apply (brand_loop_selects _ _ _ _ _ _ _ _ l0 Hget) in Hrun
    as (k & t & Hk & Hcap & Hreq & Ht & Hg & Hs & Ho); [|done].
  exists k, t. split_and!; [lia | lia | done | done | | done |].
  - unfold got. by rewrite Hg.
  - intros b Hb. unfold got. by rewrite Ho.
Qed.

Lemma X21_witness :
  got "x" Sample.state_x_taken = [Sample.performer "4"; Sample.performer "5"] ∧
  ∃ k t, 0 ≤ k ≤ page_cap ∧
         requested Sample.state_x_taken =
           requested Sample.state_x ++ (Sample.request_x <$> seqZ 1 k) ∧
         t = take (Z.to_nat (2 - Z.of_nat (length (@nil json))))
               (first_new (seen Sample.state_x)
                  (concat (page_records (Sample.serve Sample.records_x) <$>
                             (Sample.request_x <$> seqZ 1 k)))) ∧
         got "x" Sample.state_x_taken = [] ++ t ∧
         seen Sample.state_x_taken = list_to_set (idFor <$> t) ∪ seen Sample.state_x ∧
         ∀ b, b ≠ "x" → got b Sample.state_x_taken = got b Sample.state_x.
Proof.
  split; [vm_compute; reflexivity|].
  apply (X21_brand_loop_selection (Sample.serve Sample.records_x) Sample.request_x "x" 2
           Sample.state_x Sample.state_x_taken []); [reflexivity | vm_compute; reflexivity].
Defined.

Lemma fetch_brands_selects up mk quota brands st st' :
  NoDup brands →
  (∀ b, b ∈ brands → JsMap.get b (freshByBrand st) = Some []) →
  fetch_brands up mk quota brands st = Done st' →
  ∃ ks, Forall2 (fun b k => 0 ≤ k ≤ page_cap ∧ (want_of quota b ≤ 0 → k = 0)) brands ks ∧
        requested st' =
          requested st ++ concat (zip_with (fun b k => mk b <$> seqZ 1 k) brands ks) ∧
        concat ((fun b => got b st') <$> brands) =
          pick_fresh up mk quota (seen st) (zip brands ks) ∧
        ∀ b, b ∉ brands → JsMap.get b (freshByBrand st') = JsMap.get b (freshByBrand st).
Proof.
  revert st. induction brands as [|brand r IH]; intros st Hnd Hempty.
  { intros [= <-]. exists []. split_and!; [constructor | | done | done].
    simpl. by rewrite app_nil_r. }
  apply NoDup_cons in Hnd as [Hbrand Hnd].
  rewrite fetch_brands_cons. destruct (want_of quota brand <=? 0) eqn:Hwant.
  - apply Z.leb_le in Hwant. intros Hrun.
    apply IH in Hrun as (ks & Hks & Hreq & Hfresh & Hother);
      [|done | intros b Hb; apply Hempty; by right].
    exists (0 :: ks). split_and!.
    + constructor; [|done]. unfold page_cap. lia.
    + cbn [zip_with concat]. by rewrite seqZ_nil by done.
    + rewrite fmap_cons. cbn [concat zip zip_with pick_fresh].
      replace (Z.to_nat (want_of quota brand)) with 0%nat by lia. rewrite !take_0.
      unfold got at 1. rewrite Hother by done. rewrite Hempty by left. cbn [app].
      rewrite Hfresh. f_equal. set_solver.
    + intros b [Hb Hr]%not_elem_of_cons. by apply Hother.
  - apply Z.leb_gt in Hwant.
    destruct (brand_loop _ up (mk brand) brand _ 1 st) as [st1|f] eqn:Hloop; [|done].
    apply (brand_loop_selects _ _ _ _ _ _ _ _ [] (Hempty brand ltac:(left))) in Hloop
      as (k & t & Hk & Hcap & Hreq1 & Ht & Hg1 & Hs1 & Ho1); [|done].
    intros Hrun.
    apply IH in Hrun as (ks & Hks & Hreq & Hfresh & Hother); [|done|].
    2:{ intros b Hb. rewrite Ho1; [apply Hempty; by right|]. by intros ->. }
    exists (k :: ks). split_and!.
    + constructor; [|done]. split; lia.
    + rewrite Hreq, Hreq1. cbn [zip_with concat]. by rewrite <- app_assoc.
    + rewrite fmap_cons. cbn [concat zip zip_with pick_fresh].
      unfold got at 1. rewrite Hother by done. rewrite Hg1. cbn [app length] in *.
      rewrite Z.sub_0_r in Ht. rewrite <- Ht, Hfresh, Hs1. done.
    + intros b [Hb Hr]%not_elem_of_cons. rewrite Hother by done. by apply Ho1.
Qed.

Lemma get_empty_fresh brandList b :
  b ∈ brandList → JsMap.get b (empty_fresh brandList) = Some [].
Proof.
  unfold empty_fresh. intros Hb.
  assert (∀ m : list (string * list json),
            b ∈ brandList ∨ JsMap.get b m = Some [] →
            JsMap.get b (foldl (fun m b => JsMap.set b [] m) m brandList) = Some [])
    as Hgen; [|apply Hgen; by left].
  clear Hb. induction brandList as [|b0 r IH]; intros m Hb; simpl.
  - by destruct Hb as [?%elem_of_nil|?].
  - apply IH. destruct (decide (b0 = b)) as [->|Hne].
    + right. apply get_set_eq.
    + rewrite get_set_ne by done. destruct Hb as [[?|?]%elem_of_cons|?]; [done | by left | by right].
Qed.

(** X22. The freshly fetched records as a function of what upstream
    returned, for a list of pairwise distinct brands. The run requests the
    pages 1 to [k] of each brand, for some [k] of at most 250 (none for a
    brand without quota), brand after brand; and the fresh records are, for
    each brand in turn, the first records of its pages, up to the quota of
    the brand, whose identifier is not empty and was not met before, on
    these pages or among the records taken for the brands before it. *)
Theorem X22_fresh_selection e o c up d r :
  main e o c up d = Done r →
  NoDup (r_brandList r) →
  ∃ ks, Forall2 (fun b k => 0 ≤ k ≤ page_cap ∧ (want_of (r_quota r) b ≤ 0 → k = 0))
          (r_brandList r) ks ∧
        r_requests r =
          concat (zip_with (fun b k => request_of e o b <$> seqZ 1 k) (r_brandList r) ks) ∧
        r_fresh r = pick_fresh up (request_of e o) (r_quota r) ∅ (zip (r_brandList r) ks).
Proof.
  intros (st & Hfetch & ->)%main_Done.
  cbn [reconcile r_brandList r_quota r_requests r_fresh]. intros Hnd.
  unfold fetch_all in Hfetch.
  apply fetch_brands_selects in Hfetch as (ks & Hks & Hreq & Hfresh & _); [|done|].
  - exists ks. split_and!; done.
  - intros b Hb. cbn [freshByBrand]. by apply get_empty_fresh.
Qed.

Lemma X22_witness :
  ∃ r, main Sample.env (Sample.opts 3 "x,y") Sample.clock1
         (Sample.serve Sample.records_x) Sample.disk_empty = Done r ∧
       r_fresh r = [Sample.performer "4"; Sample.performer "5"; Sample.performer "6"] ∧
       ∃ ks, r_fresh r =
             pick_fresh (Sample.serve Sample.records_x)
               (request_of Sample.env (Sample.opts 3 "x,y")) (r_quota r) ∅
               (zip (r_brandList r) ks).
Proof.
  eexists. split; [vm_compute; reflexivity|]. split; [vm_compute; reflexivity|].
  edestruct (X22_fresh_selection Sample.env (Sample.opts 3 "x,y") Sample.clock1
               (Sample.serve Sample.records_x) Sample.disk_empty)
    as (ks & _ & _ & Hfresh); [vm_compute; reflexivity | |].
  - apply (bool_decide_unpack _). vm_compute. exact I.
  - exists ks. exact Hfresh.
Defined.

(** ** What the run prints about the catalog *)

Lemma written_without_catalog o c d st :
  r_catalog_written (reconcile o c d st) =
  r_needReseed (reconcile o c d st) || r_idsChanged (reconcile o c d st).
Proof.
  cbn [reconcile r_catalog_written r_needReseed r_idsChanged].
  destruct (Js.truthy (readJSONIfExists (catalog_json d))) eqn:Hcat.
  - by rewrite orb_false_r.
  - rewrite (prevIds_of_falsy _ Hcat). unfold needReseed_of. simpl.
    by rewrite !orb_true_r.
Qed.

(** X23. The word printed for the catalog tells what was done to the file:
    "unchanged" is printed exactly when the catalog file was not written,
    and then the file is the one found; "reseed" or "updated" is printed
    exactly when it was written. *)
Theorem X23_status_word e o c up d r :
  main e o c up d = Done r →
  (catalog_status (r_needReseed r) (r_idsChanged r) = "unchanged" ↔
     r_catalog_written r = false) ∧
  (catalog_status (r_needReseed r) (r_idsChanged r) = "unchanged" →
     catalog_json (r_disk r) = catalog_json d) ∧
  (catalog_status (r_needReseed r) (r_idsChanged r) = "reseed" ∨
   catalog_status (r_needReseed r) (r_idsChanged r) = "updated" ↔
     r_catalog_written r = true).
Proof.
  intros (st & _ & ->)%main_Done.
  pose proof (written_without_catalog o c d st) as Hw.
  assert (catalog_json (r_disk (reconcile o c d st)) =
          if r_catalog_written (reconcile o c d st)
          then Parsed (catalog_object c (brandList_of o d) (effective_max o)
                         (r_outIds (reconcile o c d st)))
          else catalog_json d) as Hfile by reflexivity.
  rewrite Hfile, Hw. unfold catalog_status.
  destruct (r_needReseed (reconcile o c d st)), (r_idsChanged (reconcile o c d st));
    simpl; split_and!; try done; try (split; [by intros [?|?] | by (left + right)]);
    split; by intros [?|?].
Qed.

Lemma X23_witness :
  ∃ r, main Sample.env (Sample.opts 2 "x") Sample.clock1 (Sample.serve [])
         Sample.disk_full = Done r ∧
       catalog_status (r_needReseed r) (r_idsChanged r) = "unchanged" ∧
       catalog_json (r_disk r) = catalog_json Sample.disk_full.
Proof.
  eexists. split; [vm_compute; reflexivity|]. split; [vm_compute; reflexivity|].
  edestruct (X23_status_word Sample.env (Sample.opts 2 "x") Sample.clock1 (Sample.serve [])
               Sample.disk_full) as (_ & Hfile & _); [vm_compute; reflexivity|].
  apply Hfile. vm_compute; reflexivity.
Defined.

(** ** What the catalog covers *)

Lemma fetch_all_fresh_length e o up d st :
  fetch_all e o up (brandList_of o d) = Done st →
  Z.of_nat (length (collect_fresh (brandList_of o d) st)) ≤ Qceiling (effective_max o).
Proof.
  intros Hst.
  destruct (quotas_sum_le (effective_max o) (brandList_of o d)) as [Hpos Hsum];
    [apply effective_max_ge | apply brandList_of_nonempty |].
  rewrite collect_fresh_length. etrans; [|exact Hsum]. apply zsum_le.
  intros b. specialize (Hpos b).
  pose proof (fetch_brands_bound up (request_of e o)
    (quotas (effective_max o) (brandList_of o d)) (brandList_of o d)
    {| seen := ∅; freshByBrand := empty_fresh (brandList_of o d);
       warned := []; requested := [] |}) as Hbound.
  unfold fetch_all in Hst. rewrite Hst in Hbound. simpl in Hbound.
  etrans; [apply Hbound|]; [|lia]. intros b'. rewrite got_empty_fresh. simpl. lia.
Qed.

Lemma fetch_all_fresh_NoDup e o up brandList st :
  NoDup brandList → fetch_all e o up brandList = Done st →
  NoDup (idFor <$> collect_fresh brandList st).
Proof.
  intros Hnd Hst. destruct (fetch_all_distinct _ _ _ _ _ Hnd Hst) as [Hkeys Hids].
  unfold collect_fresh, got. rewrite <- Hkeys at 1.
  rewrite values_by_keys; [done|]. by rewrite Hkeys.
Qed.

(** X24. What the catalog covers. When [max] is at least the number of
    records in the merged table, the catalog lists every identifier of the
    table, so nothing known is left out of the files. And on a reseed with
    pairwise distinct brands the catalog begins with the identifiers of all
    the fresh records, in the order they were fetched, before any older
    identifier. (A [max] that is not whole counts as [max] rounded up.) *)
Theorem X24_catalog_coverage e o c up d r :
  main e o c up d = Done r →
  (Z.of_nat (length (r_merged r)) ≤ Qceiling (r_max r) →
     r_outIds r ≡ₚ JsMap.keys (r_merged r)) ∧
  (r_needReseed r = true → NoDup (r_brandList r) →
     r_outIds r =
     (idFor <$> r_fresh r) ++
     take (Z.to_nat (Qceiling (r_max r)) - length (r_fresh r))
       (filter (fun x => x ∉ idFor <$> r_fresh r) (JsMap.keys (r_merged r)))).
Proof.
  intros Hrun. destruct (catalog_bounds e o c up d r Hrun) as (Hmax & Hlen & Hnd).
  apply main_Done in Hrun as (st & Hst & ->).
  destruct (reconcile_merged o c d st) as (_ & Hkeys & Hin).
  split.
  - set (r := reconcile o c d st) in *. intros Hroom.
    assert (length (r_merged r) = length (JsMap.keys (r_merged r))) as Hk
      by (unfold JsMap.keys; by rewrite length_fmap).
    destruct (decide (Z.of_nat (length (r_outIds r)) < Qceiling (r_max r)))
      as [Hshort|Hfull].
    + apply NoDup_Permutation; [done..|]. intros x. split.
      * intros Hx. eapply Forall_forall in Hin; [|exact Hx]. by apply has_true.
      * intros Hx%has_true. by apply (build_catalog_short _ _ _ _ _ Hshort).
    + apply submseteq_length_Permutation; [|lia].
      apply NoDup_submseteq; [done|].
      intros x Hx. eapply Forall_forall in Hin; [|exact Hx]. by apply has_true.
  - revert Hkeys.
    cbn [reconcile r_outIds r_max r_needReseed r_merged r_fresh r_brandList].
    intros Hkeys Hseed Hbrands. rewrite Hseed.
    pose proof (fetch_all_fresh _ _ _ _ _ Hst) as Hne.
    pose proof (fetch_all_fresh_length _ _ _ _ _ Hst) as Hfresh.
    pose proof (fetch_all_fresh_NoDup _ _ _ _ _ Hbrands Hst) as Hdistinct.
    set (fresh := collect_fresh (brandList_of o d) st) in *.
    rewrite build_catalog_as_keys by apply effective_max_pos.
    rewrite fill_keys_spec. cbn [outIds used app length]. rewrite Nat.sub_0_r.
    rewrite (filter_Forall_id (fun x => x ∉ ∅)) by (apply Forall_forall; set_solver).
    rewrite (filter_Forall_id (fun x => x ≠ "")) by (by apply Forall_fmap).
    rewrite distinct_app, (distinct_id _ Hdistinct), (distinct_id _ Hkeys).
    rewrite take_app, length_fmap.
    rewrite take_ge by (rewrite length_fmap; lia). done.
Qed.

Lemma X24_witness :
  ∃ r, main Sample.env (Sample.opts 5 "x") Sample.clock1
         (Sample.serve [Sample.performer "4"]) Sample.disk_123 = Done r ∧
       r_outIds r = ["1"; "3"; "4"] ∧
       r_outIds r ≡ₚ JsMap.keys (r_merged r).
Proof.
  eexists. split; [vm_compute; reflexivity|]. split; [vm_compute; reflexivity|].
  edestruct (X24_catalog_coverage Sample.env (Sample.opts 5 "x") Sample.clock1
               (Sample.serve [Sample.performer "4"]) Sample.disk_123) as (Hall & _);
    [vm_compute; reflexivity|].
  apply Hall. vm_compute. discriminate.
Defined.

(** ** Values that [String] cannot convert *)


Lemma existsb_true_elem {A} (f : A → bool) l :
  existsb f l = true → ∃ x, x ∈ l ∧ f x = true.
Proof.
  induction l as [|x l IH]; simpl; [done|].
  intros [Hx|(y & Hy & Hfy)%IH]%orb_true_iff.
  - exists x. split; [left | done].
  - exists y. split; [by right | done].
Qed.



Lemma take_page_throws_elem brand want arr st :
  take_page_throws brand want arr st = true → ∃ p, p ∈ arr ∧ idFor_throws p = true.
Proof.
  revert st. induction arr as [|p r IH]; intros st; simpl; [done|].
  destruct (idFor_throws p) eqn:Hp; [intros _; exists p; split; [left | done]|].
  assert (∀ st', take_page_throws brand want r st' = true →
                 ∃ q, q ∈ p :: r ∧ idFor_throws q = true) as Hr.
  { intros st' (q & ? & ?)%IH. exists q. split; [by right | done]. }
  destruct (negb _); [apply Hr|]. destruct (decide _); [apply Hr|].
  destruct (_ <=? _); [done | apply Hr].
Qed.

Lemma take_page_throws_none brand want arr st :
  Forall (fun p => idFor_throws p = false) arr → take_page_throws brand want arr st = false.
Proof.
  intros Harr. destruct (take_page_throws brand want arr st) eqn:Hthrows; [|done].
  apply take_page_throws_elem in Hthrows as (p & Hp & Hthrows).
  eapply Forall_forall in Harr; [|exact Hp]. congruence.
Qed.

(** A [TypeError] in the fetch loops comes from a record of a page that was
    fetched for a listed brand. *)
Lemma brand_loop_thrown fuel up mk brand want page st :
  brand_loop fuel up mk brand want page st = Failed TypeError →
  page ≤ page_cap →
  ∃ p rec, page ≤ p ≤ page_cap ∧ rec ∈ page_records up (mk p) ∧ idFor_throws rec = true.
Proof.
  revert page st. induction fuel as [|fuel IH]; intros page st; cbn [brand_loop].
  - by destruct (_ <? want).
  - destruct (_ <? want); [|done].
    destruct (fetchPage up (mk page)) as [[arr w]|f] eqn:Hfetch; simpl.
    + destruct arr as [|p arr]; cbv beta iota; [done|].
      destruct (take_page_throws _ _ _ _) eqn:Hthrows.
      * intros _ Hpage. apply take_page_throws_elem in Hthrows as (rec & Hrec & Hthrows).
        exists page, rec. unfold page_records. rewrite Hfetch.
        split_and!; [lia | lia | done | done].
      * destruct (page_cap <? page + 1) eqn:Hcap; [done|].
        apply Z.ltb_ge in Hcap. intros Hrun Hpage.
        apply IH in Hrun as (q & rec & Hq & Hrec & Hthrown); [|lia].
        exists q, rec. split_and!; [lia | lia | done | done].
    + by apply fetchPage_Failed in Hfetch as [-> Hup].
Qed.

Lemma fetch_brands_thrown up mk quota brands st :
  fetch_brands up mk quota brands st = Failed TypeError →
  ∃ b p rec, b ∈ brands ∧ 0 < want_of quota b ∧ 1 ≤ p ≤ page_cap ∧
             rec ∈ page_records up (mk b p) ∧ idFor_throws rec = true.
Proof.
  revert st. induction brands as [|brand r IH]; intros st; [done|].
  rewrite fetch_brands_cons. destruct (want_of quota brand <=? 0) eqn:Hwant.
  - intros (b & p & rec & Hb & H)%IH. exists b, p, rec. split; [by right | done].
  - apply Z.leb_gt in Hwant.
    destruct (brand_loop _ up (mk brand) brand _ 1 st) as [st1|f] eqn:Hloop.
    + intros (b & p & rec & Hb & H)%IH. exists b, p, rec. split; [by right | done].
    + intros [= ->]. apply brand_loop_thrown in Hloop as (p & rec & Hp & Hrec & Hthrown);
        [|done].
      exists brand, p, rec. split_and!; [left | lia | lia | lia | done | done].
Qed.


Lemma fetch_all_fresh_traced e o up brandList st p :
  fetch_all e o up brandList = Done st → p ∈ collect_fresh brandList st →
  ∃ rq, rq ∈ requested st ∧ rq_brand rq ∈ brandList ∧ p ∈ page_records up rq.
Proof.
  intros Hfetch Hp. unfold collect_fresh in Hp.
  apply elem_of_concat in Hp as (l & Hp & Hl).
  apply list_elem_of_fmap in Hl as (b & -> & Hb).
  unfold fetch_all in Hfetch.
  pose proof (fetch_brands_traced up (request_of e o)
                (quotas (effective_max o) brandList) brandList
                {| seen := ∅; freshByBrand := empty_fresh brandList;
                   warned := []; requested := [] |}) as Htraced.
  rewrite Hfetch in Htraced. cbn [after] in Htraced.
  destruct (Htraced (fun _ _ => eq_refl)) with (b := b) (p := p) as (rq & Hrq & Hbrand & Hrec).
  - intros b' p'. rewrite got_empty_fresh. by intros ?%elem_of_nil.
  - done.
  - exists rq. split_and!; [done | by rewrite Hbrand | done].
Qed.

Lemma outPerformers_from o c d st p :
  p ∈ r_outPerformers (reconcile o c d st) →
  p ∈ prevArr_of d ∨ p ∈ r_fresh (reconcile o c d st).
Proof.
  destruct (reconcile_merged o c d st) as (Hkeyed & _ & _).
  revert Hkeyed. cbn [reconcile r_fresh r_outPerformers r_merged].
  intros Hkeyed Hp. unfold select_performers in Hp.
  apply list_elem_of_omap in Hp as (id & _ & Hget).
  destruct (JsMap.get id _) as [q|] eqn:Hq; [|done].
  destruct (Js.truthy (Some q)); [|done]. injection Hget as ->.
  assert (id ≠ "") as Hid.
  { eapply keyed_has_nonempty; [exact Hkeyed|]. unfold JsMap.has. by rewrite Hq. }
  by apply (merged_from _ _ id).
Qed.

(** ** How a run fails, in full *)

(** X10. The ways a run fails. It stops for missing credentials exactly
    when the token is empty or both key variables are (the second key
    variable stands in for the first), whatever upstream and the files are.
    It fails on a call of [fetch] only for a request that [fetch] rejected,
    which is a request for a listed brand with a positive quota and a page
    from 1 to 250. It fails with a [TypeError] only where [String] meets a
    value that it cannot convert: in the brands of the configuration file or
    of the previous catalog, in the identifiers of the previous catalog, of a
    record of the previous table or of a record of a page fetched for a
    listed brand, or in the brand of a record of the previous table or of a
    fetched page. The model's fuel is never the cause, and a bad status or a
    bad body is never a failure: when every request is answered the run
    completes unless it fails in the first or the third way. *)
Theorem X10_failures e o c up d :
  (main e o c up d = Failed MissingCredentials ↔
     (CRAK_API_KEY e = "" ∧ CRAK_KEY e = "") ∨ CRAK_TOKEN e = "") ∧
  (∀ rq, main e o c up d = Failed (FetchRejected rq) →
     up rq = None ∧
     ∃ b p, rq = request_of e o b p ∧ b ∈ brandList_of o d ∧
            0 < want_of (quotas (effective_max o) (brandList_of o d)) b ∧
            1 ≤ p ≤ page_cap) ∧
  main e o c up d ≠ Failed OutOfFuel ∧
  (main e o c up d = Failed TypeError →
     brandList_throws o d = true ∨
     prevMap_throws d = true ∨
     prevCat_throws (readJSONIfExists (catalog_json d)) = true ∨
     (∃ b p rec, b ∈ brandList_of o d ∧ 1 ≤ p ≤ page_cap ∧
                 rec ∈ page_records up (request_of e o b p) ∧ idFor_throws rec = true) ∨
     (∃ rec, (rec ∈ prevArr_of d ∨ ∃ rq, rec ∈ page_records up rq) ∧
             brandKeyFrom_throws rec "" = true)) ∧
  ((∀ rq, up rq ≠ None) →
     (∃ r, main e o c up d = Done r) ∨
     main e o c up d = Failed MissingCredentials ∨
     main e o c up d = Failed TypeError).
Proof.
  split_and!.
  - rewrite <- apiKey_of_empty. split.
    + destruct (main_result e o c up d) as [[r ->]|[[_ H]|[[rq [-> _]]| ->]]]; done.
    + intros Hmissing. unfold main.
      destruct (Js.nonempty (apiKey_of e)) eqn:Hkey; [|done].
      destruct (Js.nonempty (CRAK_TOKEN e)) eqn:Htoken; [|done].
      apply nonempty_true in Hkey, Htoken. by destruct Hmissing.
  - intros rq. rewrite main_unfold. destruct (_ || _); [done|]. destruct (_ || _); [done|].
    unfold fetch_all.
    destruct (fetch_brands _ _ _ _ _) as [st|f] eqn:Hfetch; [by destruct (counts_throws _)|].
    intros [= ->]. apply fetch_brands_failed in Hfetch as (b & p & Hb & Hw & Hp & -> & Hup).
    split; [done|]. by exists b, p.
  - apply main_fuel.
  - rewrite main_unfold. destruct (_ || _); [done|].
    destruct (brandList_throws o d); [by auto|].
    destruct (prevMap_throws d); [by auto|].
    destruct (prevCat_throws _); [by auto|]. cbn [orb].
    destruct (fetch_all e o up (brandList_of o d)) as [st|f] eqn:Hfetch.
    + destruct (counts_throws _) eqn:Hcounts; [|done]. intros _.
      apply existsb_true_elem in Hcounts as (rec & Hrec & Hthrown).
      do 4 right. exists rec. split; [|done].
      apply outPerformers_from in Hrec as [?|Hrec]; [by left|]. right.
      destruct (fetch_all_fresh_traced _ _ _ _ _ _ Hfetch Hrec) as (rq & _ & _ & ?).
      by exists rq.
    + intros [= ->]. unfold fetch_all in Hfetch.
      apply fetch_brands_thrown in Hfetch as (b & p & rec & Hb & _ & Hp & Hrec & Hthrown).
      do 3 right. left. by exists b, p, rec.
  - intros Hup. destruct (main_result e o c up d) as [?|[[? _]|[[rq [_ Hrq]]|?]]];
      [by left | right; by left | by apply Hup in Hrq | right; by right].
Qed.

Lemma X10_witness :
  main Sample.env_no_token (Sample.opts 3 "x") Sample.clock1 Sample.offline
    Sample.disk_empty = Failed MissingCredentials ∧
  main Sample.env (Sample.opts 3 "x") Sample.clock1 Sample.offline Sample.disk_empty
    = Failed (FetchRejected (Sample.request_x 1)) ∧
  Sample.offline (Sample.request_x 1) = None ∧
  main Sample.env (Sample.opts 3 "x") Sample.clock1
    (Sample.serve [Sample.unconvertible]) Sample.disk_empty = Failed TypeError ∧
  main Sample.env (Sample.opts 3 "x") Sample.clock1
    (Sample.serve [Sample.unconvertible_brand]) Sample.disk_empty = Failed TypeError ∧
  ∃ rec, (rec ∈ prevArr_of Sample.disk_empty ∨
          ∃ rq, rec ∈ page_records (Sample.serve [Sample.unconvertible_brand]) rq) ∧
         brandKeyFrom_throws rec "" = true.
Proof.
  destruct (X10_failures Sample.env_no_token (Sample.opts 3 "x") Sample.clock1
              Sample.offline Sample.disk_empty) as ([_ Hmissing] & _).
  destruct (X10_failures Sample.env (Sample.opts 3 "x") Sample.clock1
              Sample.offline Sample.disk_empty) as (_ & Hrejected & _).
  destruct (X10_failures Sample.env (Sample.opts 3 "x") Sample.clock1
              (Sample.serve [Sample.unconvertible_brand]) Sample.disk_empty)
    as (_ & _ & _ & Hthrown & _).
  split; [apply Hmissing; by right|].
  split; [vm_compute; reflexivity|].
  split; [apply (Hrejected (Sample.request_x 1)); vm_compute; reflexivity|].
  split; [vm_compute; reflexivity|].
  split; [vm_compute; reflexivity|].
  destruct Hthrown as [H|[H|[H|[(b & p & rec & _ & _ & Hrec & H)|H]]]];
    [vm_compute; reflexivity | discriminate H.. | | exact H].
  exfalso. vm_compute in Hrec.
  destruct p as [|[p|p|]|p]; try (by apply elem_of_nil in Hrec).
  apply list_elem_of_singleton in Hrec as ->. discriminate H.
Defined.

(** ** A second run on the same answers *)






